(** * Pattern matcher of the graph rule engine (src/lang/pattern-matcher.ts)

    A shallow embedding of [PatternMatcher] and a verification of the
    properties the specification states about it.

    Conventions of the embedding.
    - JS strings are [string]; a [Record<string, _>] used as a map is a
      [gmap string _]; a [Set<NodeId>] is a [gset string]; a [Map] whose
      iteration order is observed is an association list in insertion order.
    - Hop counts, depths and result limits are natural numbers.
    - Methods that read or fill the caches of the matcher take the matcher
      and return the new matcher next to their result.
    - The built-in functions of the JS runtime the code calls
      ([toLowerCase], [parseFloat], [Number.prototype.toString], [String])
      are an interface, [JSBuiltins]; every theorem holds for every
      implementation of it. *)

From Stdlib Require Import String Ascii ZArith List Bool Lia DecimalString.
From stdpp Require Import base option list gmap strings.

Local Open Scope string_scope.
Local Open Scope list_scope.

(** ** JS values *)

(** Values stored in property bags and in pattern constraints.  Numbers are
    integers.  Arrays may nest, as the code takes [any]. *)
Inductive Value : Type :=
| VNull : Value
| VBool : bool -> Value
| VNum : Z -> Value
| VStr : string -> Value
| VArr : list Value -> Value.

Definition isArray (v : Value) : bool :=
  match v with VArr _ => true | _ => false end.

(** [a === b].  Primitives compare by value.  Arrays compare by reference in
    JS; an array held by a graph entity and a value held by a pattern are
    never the same object, so two arrays are never strictly equal here. *)
Definition strict_eq (a b : Value) : bool :=
  match a, b with
  | VNull, VNull => true
  | VBool x, VBool y => Bool.eqb x y
  | VNum x, VNum y => Z.eqb x y
  | VStr x, VStr y => String.eqb x y
  | _, _ => false
  end.

(** Truthiness of a string: only the empty string is falsy. *)
Definition truthy (s : string) : bool := negb (String.eqb s "").

(** The runtime's built-ins used by the matcher.  [parseFloat] returns
    [None] when the result is [NaN] or is not an integer (such a result is
    never [===] to a number of the model). *)
Class JSBuiltins : Type := {
  toLowerCase : string -> string;
  parseFloat : string -> option Z;
  numberToString : Z -> string;
  valueToString : Value -> string
}.

(** ** Graph store *)

(** The module [@/graph] ([Graph], [Node], [NodeId], [Edge], [Path]) is not
    part of the sources at hand.  Its types are given the members the
    matcher reads, and its operations follow section 4.A of the
    specification. *)

Definition NodeId : Type := string.

Module Node.
(** Modelled from the spec: the type [Node] of [@/graph]: an identifier,
    one primary label and a property bag.  [data] is [None] when the node
    carries no object as its data. *)
Record t : Type := mk {
  id : NodeId;
  label : string;
  data : option (gmap string Value)
}.
End Node.

Module Edge.
(** Modelled from the spec: the type [Edge] of [@/graph]: source and
    target node ids, a label (the relationship type) and a property bag. *)
Record t : Type := mk {
  source : NodeId;
  target : NodeId;
  label : string;
  data : option (gmap string Value)
}.
End Edge.

Module Path.
(** Modelled from the spec: the type [Path] of [@/graph]: the nodes and
    the edges of an alternating sequence. *)
Record t : Type := mk {
  nodes : list Node.t;
  edges : list Edge.t
}.
End Path.

Inductive Direction : Type := outgoing | incoming | both.

Module Graph.
(** Modelled from the spec: the class [Graph] of [@/graph].  Nodes and
    edges are kept in a stable order (that of [getAllNodes] and
    [getAllEdges]). *)
Record t : Type := mk {
  nodes : list Node.t;
  edges : list Edge.t
}.

(** Modelled from the spec: [getNode(id)], the node with this id if any. *)
Definition getNode (g : t) (i : NodeId) : option Node.t :=
  List.find (fun n => String.eqb (Node.id n) i) (nodes g).

(** Modelled from the spec: [getEdge(src, tgt, label)], the edge with
    this triple if any. *)
Definition getEdge (g : t) (src tgt : NodeId) (lbl : string) : option Edge.t :=
  List.find (fun e => String.eqb (Edge.source e) src
                      && String.eqb (Edge.target e) tgt
                      && String.eqb (Edge.label e) lbl) (edges g).

(** Modelled from the spec: [findNodes(pred)], a linear scan returning a
    materialized list. *)
Definition findNodes (g : t) (pred : Node.t -> bool) : list Node.t :=
  List.filter pred (nodes g).

(** Modelled from the spec: [findEdges(pred)], a linear scan returning a
    materialized list. *)
Definition findEdges (g : t) (pred : Edge.t -> bool) : list Edge.t :=
  List.filter pred (edges g).

(** Modelled from the spec: [getEdgesForNode(id, direction)], the
    incident edges: outgoing (src = id), incoming (tgt = id), or both. *)
Definition getEdgesForNode (g : t) (i : NodeId) (d : Direction) : list Edge.t :=
  List.filter (fun e =>
    match d with
    | outgoing => String.eqb (Edge.source e) i
    | incoming => String.eqb (Edge.target e) i
    | both => String.eqb (Edge.source e) i || String.eqb (Edge.target e) i
    end) (edges g).

(** Modelled from the spec: the invariants of section 3: node ids are
    unique within a graph and edge endpoints refer to nodes of the
    graph. *)
Definition wf (g : t) : Prop :=
  NoDup (List.map Node.id (nodes g)) /\
  Forall (fun e => In (Edge.source e) (List.map Node.id (nodes g))
                   /\ In (Edge.target e) (List.map Node.id (nodes g))) (edges g).
End Graph.

(** ** Patterns *)

Module NodePattern.
Record t : Type := mk {
  variable : option string;
  labels : list string;
  properties : gmap string Value
}.
End NodePattern.

Module RelationshipPattern.
Record t : Type := mk {
  variable : option string;
  type : option string;
  properties : gmap string Value;
  direction : Direction;
  minHops : option nat;
  maxHops : option nat
}.
End RelationshipPattern.

Module Segment.
Record t : Type := mk {
  relationship : RelationshipPattern.t;
  node : NodePattern.t
}.
End Segment.

Module PathPattern.
Record t : Type := mk {
  start : NodePattern.t;
  segments : list Segment.t
}.
End PathPattern.

(** ** Options and the matcher object *)

Record PatternMatcherOptions : Type := mkOptionsArg {
  opt_caseSensitiveLabels : option bool;
  opt_enableTypeCoercion : option bool;
  opt_maxPathDepth : option nat;
  opt_maxPathResults : option nat
}.

(** [Required<PatternMatcherOptions>] *)
Record Options : Type := mkOptions {
  caseSensitiveLabels : bool;
  enableTypeCoercion : bool;
  maxPathDepth : nat;
  maxPathResults : nat
}.

Record PatternMatcher : Type := mkMatcher {
  options : Options;
  labelCache : gmap string (list NodeId);
  typeCache : gmap string (list (NodeId * NodeId * string))
}.

(** [a ?? b] *)
Definition nullish {A : Type} (a : option A) (b : A) : A :=
  match a with Some x => x | None => b end.

(** The argument [{}] of the constructor. *)
Definition noOptions : PatternMatcherOptions :=
  mkOptionsArg None None None None.

(** [constructor(options = {})] *)
Definition newPatternMatcher (o : PatternMatcherOptions) : PatternMatcher :=
  {| options := {| caseSensitiveLabels := nullish (opt_caseSensitiveLabels o) false;
                   enableTypeCoercion := nullish (opt_enableTypeCoercion o) false;
                   maxPathDepth := nullish (opt_maxPathDepth o) 10;
                   maxPathResults := nullish (opt_maxPathResults o) 1000 |};
     labelCache := ∅;
     typeCache := ∅ |}.

(** [clearCache()] *)
Definition clearCache (m : PatternMatcher) : PatternMatcher :=
  {| options := options m; labelCache := ∅; typeCache := ∅ |}.

(** ** Helper methods and node matching *)

Section Matching.
Context `{JSBuiltins}.
Variable o : Options.

Definition getNodeLabels (node : Node.t) : list string := [Node.label node].

Definition normalizeLabel (label : string) : string :=
  if caseSensitiveLabels o then label else toLowerCase label.

Definition labelMatches (nodeLabels : list string) (requiredLabel : string) : bool :=
  let normalizedRequired := normalizeLabel requiredLabel in
  existsb (fun label => String.eqb (normalizeLabel label) normalizedRequired) nodeLabels.

Definition typeMatches (relationshipType requiredType : string) : bool :=
  String.eqb (normalizeLabel relationshipType) (normalizeLabel requiredType).

(** The coercions tried when [enableTypeCoercion] is set.  [Some b] is a
    [return b]; [None] falls through to the array check. *)
Definition coerce (actual expected : Value) : option bool :=
  match expected, actual with
  | VNum e, VStr a =>
      Some (match parseFloat a with Some x => Z.eqb x e | None => false end)
  | VStr e, VNum a => Some (String.eqb (numberToString a) e)
  | VBool e, _ =>
      let actualStr := toLowerCase (valueToString actual) in
      if e && (strict_eq actual (VNum 1) || String.eqb actualStr "true") then Some true
      else if negb e && (strict_eq actual (VNum 0) || String.eqb actualStr "false") then Some true
      else None
  | _, _ => None
  end.

Fixpoint valuesMatch (actual expected : Value) {struct actual} : bool :=
  if strict_eq actual expected then true
  else
    match (if enableTypeCoercion o then coerce actual expected else None) with
    | Some b => b
    | None =>
        match actual with
        | VArr items =>
            if negb (isArray expected)
            then existsb (fun item => valuesMatch item expected) items
            else false
        | _ => false
        end
    end.

Definition nodePropertiesMatch (node : Node.t) (requiredProps : gmap string Value) : bool :=
  match Node.data node with
  | None => Nat.eqb (size requiredProps) 0
  | Some nodeData =>
      forallb (fun kv : string * Value =>
                 let (key, requiredValue) := kv in
                 if String.eqb key "id"
                 then strict_eq (VStr (Node.id node)) requiredValue
                 else match nodeData !! key with
                      | Some actual => valuesMatch actual requiredValue
                      | None => false
                      end)
              (map_to_list requiredProps)
  end.

Definition edgePropertiesMatch (edge : Edge.t) (requiredProps : gmap string Value) : bool :=
  match Edge.data edge with
  | None => Nat.eqb (size requiredProps) 0
  | Some edgeData =>
      forallb (fun kv : string * Value =>
                 let (key, requiredValue) := kv in
                 match edgeData !! key with
                 | Some actual => valuesMatch actual requiredValue
                 | None => false
                 end)
              (map_to_list requiredProps)
  end.

Definition matchesNodePattern (node : Node.t) (pattern : NodePattern.t) : bool :=
  if negb (forallb (fun requiredLabel => labelMatches (getNodeLabels node) requiredLabel)
                   (NodePattern.labels pattern))
  then false
  else if Nat.ltb 0 (size (NodePattern.properties pattern))
       then nodePropertiesMatch node (NodePattern.properties pattern)
       else true.

Definition hasCorrectDirection (edge : Edge.t) (pattern : RelationshipPattern.t)
           (sourceNode targetNode : Node.t) : bool :=
  match RelationshipPattern.direction pattern with
  | outgoing => String.eqb (Edge.source edge) (Node.id sourceNode)
                && String.eqb (Edge.target edge) (Node.id targetNode)
  | incoming => String.eqb (Edge.target edge) (Node.id sourceNode)
                && String.eqb (Edge.source edge) (Node.id targetNode)
  | both => true
  end.

Definition isBoth (d : Direction) : bool :=
  match d with both => true | _ => false end.

Definition matchesRelationshipPattern (edge : Edge.t) (pattern : RelationshipPattern.t)
           (sourceNode targetNode : option Node.t) : bool :=
  if match RelationshipPattern.type pattern with
     | Some ty => truthy ty && negb (typeMatches (Edge.label edge) ty)
     | None => false
     end
  then false
  else if match sourceNode, targetNode with
          | Some s, Some t =>
              negb (isBoth (RelationshipPattern.direction pattern))
              && negb (hasCorrectDirection edge pattern s t)
          | _, _ => false
          end
  then false
  else if Nat.ltb 0 (size (RelationshipPattern.properties pattern))
          && negb (edgePropertiesMatch edge (RelationshipPattern.properties pattern))
  then false
  else true.

End Matching.

(** ** Node lookup through the label cache *)

Section Finding.
Context `{JSBuiltins}.

(** [nodeIds.map(id => graph.getNode(id)).filter(node => node !== undefined)] *)
Definition nodesOfIds (graph : Graph.t) (nodeIds : list NodeId) : list Node.t :=
  omap (Graph.getNode graph) nodeIds.

Definition getNodesByLabel (m : PatternMatcher) (graph : Graph.t) (label : string)
  : list Node.t * PatternMatcher :=
  let normalizedLabel := normalizeLabel (options m) label in
  match labelCache m !! normalizedLabel with
  | Some nodeIds => (nodesOfIds graph nodeIds, m)
  | None =>
      let matchingNodes :=
        Graph.findNodes graph
          (fun node => labelMatches (options m) (getNodeLabels node) label) in
      let nodeIds := List.map Node.id matchingNodes in
      (nodesOfIds graph nodeIds,
       {| options := options m;
          labelCache := <[normalizedLabel := nodeIds]> (labelCache m);
          typeCache := typeCache m |})
  end.

Definition findMatchingNodes (m : PatternMatcher) (graph : Graph.t)
           (pattern : NodePattern.t) : list Node.t * PatternMatcher :=
  match NodePattern.labels pattern with
  | label0 :: _ =>
      let (labeledNodes, m') := getNodesByLabel m graph label0 in
      (List.filter (fun node => matchesNodePattern (options m) node pattern) labeledNodes, m')
  | [] =>
      (Graph.findNodes graph (fun node => matchesNodePattern (options m) node pattern), m)
  end.

(** ** Relationship lookup through the type cache *)

Definition edgesOfIds (graph : Graph.t) (ids : list (NodeId * NodeId * string))
  : list Edge.t :=
  omap (fun i : NodeId * NodeId * string =>
          let '(source, target, label) := i in Graph.getEdge graph source target label) ids.

Definition getRelationshipsByType (m : PatternMatcher) (graph : Graph.t) (type : string)
  : list Edge.t * PatternMatcher :=
  let normalizedType := normalizeLabel (options m) type in
  match typeCache m !! normalizedType with
  | Some edgeIdentifiers => (edgesOfIds graph edgeIdentifiers, m)
  | None =>
      let matchingEdges :=
        Graph.findEdges graph (fun edge => typeMatches (options m) (Edge.label edge) type) in
      let edgeIdentifiers :=
        List.map (fun edge => (Edge.source edge, Edge.target edge, Edge.label edge))
                 matchingEdges in
      (edgesOfIds graph edgeIdentifiers,
       {| options := options m;
          labelCache := labelCache m;
          typeCache := <[normalizedType := edgeIdentifiers]> (typeCache m) |})
  end.

(** [getEndpointNodes], then [if (!sourceNode || !targetNode) return false]
    and the match of the pattern: the test [filterEdgesByPattern] and the
    general case of [findMatchingRelationships] apply to an edge. *)
Definition matchesWithEndpoints (o : Options) (graph : Graph.t)
           (pattern : RelationshipPattern.t) (edge : Edge.t) : bool :=
  match Graph.getNode graph (Edge.source edge), Graph.getNode graph (Edge.target edge) with
  | Some sourceNode, Some targetNode =>
      matchesRelationshipPattern o edge pattern (Some sourceNode) (Some targetNode)
  | _, _ => false
  end.

Definition filterEdgesByPattern (o : Options) (graph : Graph.t) (edges : list Edge.t)
           (pattern : RelationshipPattern.t) : list Edge.t :=
  List.filter (matchesWithEndpoints o graph pattern) edges.

(** [{ ...pattern, direction: d }] *)
Definition withDirection (pattern : RelationshipPattern.t) (d : Direction)
  : RelationshipPattern.t :=
  {| RelationshipPattern.variable := RelationshipPattern.variable pattern;
     RelationshipPattern.type := RelationshipPattern.type pattern;
     RelationshipPattern.properties := RelationshipPattern.properties pattern;
     RelationshipPattern.direction := d;
     RelationshipPattern.minHops := RelationshipPattern.minHops pattern;
     RelationshipPattern.maxHops := RelationshipPattern.maxHops pattern |}.

(** [{ ...pattern, type: undefined }] *)
Definition withoutType (pattern : RelationshipPattern.t) : RelationshipPattern.t :=
  {| RelationshipPattern.variable := RelationshipPattern.variable pattern;
     RelationshipPattern.type := None;
     RelationshipPattern.properties := RelationshipPattern.properties pattern;
     RelationshipPattern.direction := RelationshipPattern.direction pattern;
     RelationshipPattern.minHops := RelationshipPattern.minHops pattern;
     RelationshipPattern.maxHops := RelationshipPattern.maxHops pattern |}.

Definition isIncoming (d : Direction) : bool :=
  match d with incoming => true | _ => false end.

(** The filter of the case where [sourceId] is given. *)
Definition matchesFromSource (o : Options) (graph : Graph.t)
           (pattern : RelationshipPattern.t) (sourceId : NodeId) (edge : Edge.t) : bool :=
  if match RelationshipPattern.type pattern with
     | Some ty => truthy ty && negb (typeMatches o (Edge.label edge) ty)
     | None => false
     end
  then false
  else
    match Graph.getNode graph (Edge.source edge), Graph.getNode graph (Edge.target edge) with
    | Some edgeSourceNode, Some edgeTargetNode =>
        if isIncoming (RelationshipPattern.direction pattern)
           && String.eqb (Edge.target edge) sourceId
        then matchesRelationshipPattern o edge (withDirection pattern outgoing)
               (Some edgeSourceNode) (Some edgeTargetNode)
        else matchesRelationshipPattern o edge pattern
               (Some edgeSourceNode) (Some edgeTargetNode)
    | _, _ => false
    end.

(** [findMatchingRelationships] past the case of a given [sourceId]:
    through the type cache when the pattern has a type, by a scan of all
    edges otherwise. *)
Definition findRelationshipsAnywhere (m : PatternMatcher) (graph : Graph.t)
           (pattern : RelationshipPattern.t) : list Edge.t * PatternMatcher :=
  match RelationshipPattern.type pattern with
  | Some ty =>
      if truthy ty then
        let (typedEdges, m') := getRelationshipsByType m graph ty in
        (filterEdgesByPattern (options m) graph typedEdges (withoutType pattern), m')
      else (Graph.findEdges graph (matchesWithEndpoints (options m) graph pattern), m)
  | None => (Graph.findEdges graph (matchesWithEndpoints (options m) graph pattern), m)
  end.

Definition findMatchingRelationships (m : PatternMatcher) (graph : Graph.t)
           (pattern : RelationshipPattern.t) (sourceId : option NodeId)
  : list Edge.t * PatternMatcher :=
  match sourceId with
  | Some i =>
      if truthy i then
        match Graph.getNode graph i with
        | None => ([], m)
        | Some _ =>
            let edges :=
              Graph.getEdgesForNode graph i (RelationshipPattern.direction pattern) in
            (List.filter (matchesFromSource (options m) graph pattern i) edges, m)
        end
      else findRelationshipsAnywhere m graph pattern
  | None => findRelationshipsAnywhere m graph pattern
  end.

(** ** Helpers of the path search *)

Definition getCandidateEdges (graph : Graph.t) (nodeId : NodeId) (direction : Direction)
  : list Edge.t :=
  Graph.getEdgesForNode graph nodeId direction.

Definition getNeighborNode (graph : Graph.t) (currentNodeId : NodeId) (edge : Edge.t)
           (patternDirection : Direction) : option Node.t :=
  let neighborId :=
    if String.eqb (Edge.source edge) currentNodeId
       && match patternDirection with outgoing | both => true | incoming => false end
    then Some (Edge.target edge)
    else if String.eqb (Edge.target edge) currentNodeId
            && match patternDirection with incoming | both => true | outgoing => false end
    then Some (Edge.source edge)
    else None in
  match neighborId with
  | Some i => Graph.getNode graph i
  | None => None
  end.

(** Hop constraints of a relationship pattern, as [findMatchingPaths]
    computes them for the segment it is working on. *)
Definition minHopsOf (rel : RelationshipPattern.t) : nat :=
  nullish (RelationshipPattern.minHops rel) 1.

Definition isVariable (rel : RelationshipPattern.t) : bool :=
  negb (Nat.eqb (minHopsOf rel) 1
        && match RelationshipPattern.maxHops rel with
           | Some h => Nat.eqb h 1
           | None => false
           end).

Definition maxHopsTraversal (o : Options) (rel : RelationshipPattern.t) : nat :=
  match RelationshipPattern.maxHops rel with
  | Some maxHopsSpecified => Nat.min maxHopsSpecified (maxPathDepth o)
  | None => maxPathDepth o
  end.

(** ** Breadth-first search *)

Record QueueState : Type := mkState {
  currentNode : Node.t;
  currentPath : Path.t;
  segmentIdx : nat;
  varHopCount : nat;
  visitedInPath : gset NodeId
}.

(** How the body of a loop ends: [break], or the next iteration
    ([continue] or the end of the body). *)
Inductive Ctl : Type := Break | Next.

Definition bfsIterationLimit : nat := 100000.

Section Search.
Variable o : Options.
Variable graph : Graph.t.
Variable segments : list Segment.t.

(** [if (results.length < maxPathResults) results.push(newPath)] *)
Definition pushResult (results : list Path.t) (newPath : Path.t) : list Path.t :=
  if Nat.ltb (length results) (maxPathResults o) then results ++ [newPath] else results.

(** The body of the loop over the candidate edges of a dequeued state. *)
Definition edgeStep (st : QueueState) (currentSegment : Segment.t) (edge : Edge.t)
           (results : list Path.t) (queue : list QueueState)
  : Ctl * (list Path.t * list QueueState) :=
  let currentRelPattern := Segment.relationship currentSegment in
  let targetNodePattern := Segment.node currentSegment in
  let minHops := minHopsOf currentRelPattern in
  let isFinalSegment := Nat.leb (length segments) (segmentIdx st + 1) in
  match getNeighborNode graph (Node.id (currentNode st)) edge
                        (RelationshipPattern.direction currentRelPattern) with
  | None => (Next, (results, queue))
  | Some neighborNode =>
    if negb (matchesRelationshipPattern o edge currentRelPattern
               (Some (currentNode st)) (Some neighborNode))
    then (Next, (results, queue))
    else
      let newHopCount := varHopCount st + 1 in
      let newPath :=
        {| Path.nodes := Path.nodes (currentPath st) ++ [neighborNode];
           Path.edges := Path.edges (currentPath st) ++ [edge] |} in
      let newVisited := {[Node.id neighborNode]} ∪ visitedInPath st in
      let wouldCycle := bool_decide (Node.id neighborNode ∈ visitedInPath st) in
      if match NodePattern.properties targetNodePattern !! "id" with
         | Some expectedId => negb (strict_eq (VStr (Node.id neighborNode)) expectedId)
         | None => false
         end
      then (Next, (results, queue))
      else
        let matchedTargetNode := matchesNodePattern o neighborNode targetNodePattern in
        let complete := isFinalSegment && Nat.leb minHops newHopCount && matchedTargetNode in
        let results1 := if complete then pushResult results newPath else results in
        if complete && Nat.leb (maxPathResults o) (length results1)
        then (Break, (results1, queue))
        else if complete && negb (isVariable currentRelPattern)
        then (Next, (results1, queue))
        else
          let queue1 :=
            if isVariable currentRelPattern
               && Nat.ltb newHopCount (maxHopsTraversal o currentRelPattern)
               && negb wouldCycle
            then queue ++ [{| currentNode := neighborNode;
                              currentPath := newPath;
                              segmentIdx := segmentIdx st;
                              varHopCount := newHopCount;
                              visitedInPath := newVisited |}]
            else queue in
          let queue2 :=
            if Nat.leb minHops newHopCount && matchedTargetNode
               && negb isFinalSegment && negb wouldCycle
            then queue1 ++ [{| currentNode := neighborNode;
                               currentPath := newPath;
                               segmentIdx := segmentIdx st + 1;
                               varHopCount := 0;
                               visitedInPath := newVisited |}]
            else queue1 in
          if Nat.leb (maxPathResults o) (length results1)
          then (Break, (results1, queue2))
          else (Next, (results1, queue2))
  end.

(** [for (const edge of candidateEdges) { ... }] *)
Fixpoint edgeLoop (st : QueueState) (currentSegment : Segment.t)
         (candidateEdges : list Edge.t)
         (results : list Path.t) (queue : list QueueState)
  : list Path.t * list QueueState :=
  match candidateEdges with
  | [] => (results, queue)
  | edge :: rest =>
      match edgeStep st currentSegment edge results queue with
      | (Break, rq) => rq
      | (Next, (results', queue')) => edgeLoop st currentSegment rest results' queue'
      end
  end.

(** The body of the [while] loop after [queue.shift()]: [queue] is the
    rest of the queue. *)
Definition processState (st : QueueState) (results : list Path.t)
           (queue : list QueueState) : list Path.t * list QueueState :=
  match segments !! segmentIdx st with
  | None => (results, queue)
  | Some currentSegment =>
      if Nat.leb (maxPathDepth o) (length (Path.edges (currentPath st)))
      then (results, queue)
      else
        let candidateEdges :=
          getCandidateEdges graph (Node.id (currentNode st))
            (RelationshipPattern.direction (Segment.relationship currentSegment)) in
        edgeLoop st currentSegment candidateEdges results queue
  end.

(** The [while] loop; [fuel] is the number of iterations the counter
    [bfsIterations] still allows. *)
Fixpoint bfsLoop (fuel : nat) (queue : list QueueState) (results : list Path.t)
  : list Path.t :=
  match queue with
  | [] => results
  | st :: rest =>
      if Nat.ltb (length results) (maxPathResults o) then
        match fuel with
        | O => results
        | S fuel' =>
            let (results', queue') := processState st results rest in
            if Nat.leb (maxPathResults o) (length results')
            then results'
            else bfsLoop fuel' queue' results'
        end
      else results
  end.

Definition initialState (startNode : Node.t) : QueueState :=
  {| currentNode := startNode;
     currentPath := {| Path.nodes := [startNode]; Path.edges := [] |};
     segmentIdx := 0;
     varHopCount := 0;
     visitedInPath := {[Node.id startNode]} |}.

(** [for (const startNode of initialNodes) { ... }], from [results = []]. *)
Definition bfsResults (initialNodes : list Node.t) : list Path.t :=
  fold_left (fun results startNode =>
               bfsLoop bfsIterationLimit [initialState startNode] results)
            initialNodes [].
End Search.

(** ** Deduplication *)

(** [array.join(',')] *)
Definition join (sep : string) (l : list string) : string := String.concat sep l.

Definition edgeToString (e : Edge.t) : string :=
  Edge.source e ++ "-" ++ Edge.label e ++ "-" ++ Edge.target e.

Definition pathToString (p : Path.t) : string :=
  let nodeIds := join "," (List.map Node.id (Path.nodes p)) in
  let edgeIds := join "," (List.map edgeToString (Path.edges p)) in
  nodeIds ++ "|" ++ edgeIds.

(** [uniquePathsMap], a [Map] in insertion order. *)
Definition mapHas (um : list (string * Path.t)) (k : string) : bool :=
  existsb (fun kv => String.eqb (fst kv) k) um.

Definition dedupStep (um : list (string * Path.t)) (path : Path.t)
  : list (string * Path.t) :=
  let pathStr := pathToString path in
  if negb (mapHas um pathStr) then um ++ [(pathStr, path)] else um.

Definition uniqueResults (results : list Path.t) : list Path.t :=
  List.map snd (fold_left dedupStep results []).

(** ** findMatchingPaths *)

Definition initialNodesOf (m : PatternMatcher) (graph : Graph.t) (pattern : PathPattern.t)
  : list Node.t * PatternMatcher :=
  let (initialNodes, m') := findMatchingNodes m graph (PathPattern.start pattern) in
  (match NodePattern.properties (PathPattern.start pattern) !! "id" with
   | Some nodeId =>
       List.filter (fun node => strict_eq (VStr (Node.id node)) nodeId) initialNodes
   | None => initialNodes
   end, m').

Definition findMatchingPaths (m : PatternMatcher) (graph : Graph.t)
           (pattern : PathPattern.t) : list Path.t * PatternMatcher :=
  let segments := PathPattern.segments pattern in
  let (initialNodes, m') := initialNodesOf m graph pattern in
  match segments with
  | [] =>
      (List.map (fun node => {| Path.nodes := [node]; Path.edges := [] |}) initialNodes, m')
  | _ :: _ =>
      (uniqueResults (bfsResults (options m) graph segments initialNodes), m')
  end.

End Finding.

(** ** Binding contexts *)

Module BindingContext.
(** Modelled from the spec: the class [BindingContext] of
    [./condition-evaluator] is not part of the sources at hand.
    Section 3 describes it as a mapping from variable names to bound
    values: a node, an edge, a path or a scalar. *)
Inductive value : Type :=
| BNode : Node.t -> value
| BEdge : Edge.t -> value
| BPath : Path.t -> value
| BScalar : Value -> value.

Definition t : Type := gmap string value.

(** Modelled from the spec: [has(name)]. *)
Definition has (b : t) (name : string) : bool :=
  match b !! name with Some _ => true | None => false end.

(** Modelled from the spec: [get(name)]; a missing name is not bound. *)
Definition get (b : t) (name : string) : option value := b !! name.
End BindingContext.

(** [boundNode && boundNode.id] for [boundNode = bindings.get(name) as Node]:
    the id when the bound value is an object with a truthy [id] member.
    Of the bound values only a node has such a member. *)
Definition boundNodeId (bv : option BindingContext.value) : option NodeId :=
  match bv with
  | Some (BindingContext.BNode n) => if truthy (Node.id n) then Some (Node.id n) else None
  | _ => None
  end.

(** [variable && bindings.has(variable)], then the test on the bound node:
    the id that [enrichPatternWithBindings] adds for a node pattern's
    variable, if any. *)
Definition idToAdd (b : BindingContext.t) (variable : option string) : option NodeId :=
  match variable with
  | Some v =>
      if truthy v && BindingContext.has b v
      then boundNodeId (BindingContext.get b v)
      else None
  | None => None
  end.

(** ** Pattern objects on the heap

    [enrichPatternWithBindings] clones its argument and then assigns to
    members of the clone.  To state that the argument is left as it was,
    patterns are objects in a store: an object is named by its location and
    holds the locations of its members. *)

Module Heap.
Abbreviation loc := nat (only parsing).

Inductive obj : Type :=
| OProps : gmap string Value -> obj
| OLabels : list string -> obj
| ONodePattern : option string -> loc -> loc -> obj
| ORelPattern : option string -> option string -> loc -> Direction ->
                option nat -> option nat -> obj
| OSegment : loc -> loc -> obj
| OSegments : list loc -> obj
| OPathPattern : loc -> loc -> obj.

Abbreviation heap := (list obj) (only parsing).

(** Computations on the store that may fail (a member read on an object
    of another kind). *)
Definition M (A : Type) : Type := heap -> option (A * heap).

Definition ret {A : Type} (a : A) : M A := fun h => Some (a, h).

Definition bind {A B : Type} (c : M A) (k : A -> M B) : M B :=
  fun h => match c h with
           | Some (a, h') => k a h'
           | None => None
           end.

Definition fail {A : Type} : M A := fun _ => None.

Definition alloc (o : obj) : M loc := fun h => Some (length h, h ++ [o]).

Definition read (l : loc) : M obj :=
  fun h => match h !! l with Some o => Some (o, h) | None => None end.

Definition write (l : loc) (o : obj) : M unit :=
  fun h => if Nat.ltb l (length h) then Some (tt, <[l := o]> h) else None.

#[export] Instance M_ret : MRet M := @ret.
#[export] Instance M_bind : MBind M := fun A B k c => bind c k.

Definition readProps (l : loc) : M (gmap string Value) :=
  o ← read l; match o with OProps ps => ret ps | _ => fail end.

Definition readNodePattern (l : loc) : M (option string * loc * loc) :=
  o ← read l;
  match o with ONodePattern v lb lp => ret (v, lb, lp) | _ => fail end.

Definition readSegment (l : loc) : M (loc * loc) :=
  o ← read l; match o with OSegment lr ln => ret (lr, ln) | _ => fail end.

Definition readSegments (l : loc) : M (list loc) :=
  o ← read l; match o with OSegments items => ret items | _ => fail end.

Definition readPathPattern (l : loc) : M (loc * loc) :=
  o ← read l; match o with OPathPattern ls la => ret (ls, la) | _ => fail end.

Fixpoint mapM {A B : Type} (f : A -> M B) (l : list A) : M (list B) :=
  match l with
  | [] => ret []
  | a :: r => b ← f a; bs ← mapM f r; ret (b :: bs)
  end.

(** [{ ...x.properties }] *)
Definition cloneProps (lp : loc) : M loc :=
  ps ← readProps lp; alloc (OProps ps).

(** [{ ...node, properties: { ...node.properties } }]: the labels array
    is shared with the original. *)
Definition cloneNode (ln : loc) : M loc :=
  '(v, lb, lp) ← readNodePattern ln;
  lp' ← cloneProps lp;
  alloc (ONodePattern v lb lp').

(** [{ ...relationship, properties: { ...relationship.properties } }] *)
Definition cloneRel (lr : loc) : M loc :=
  o ← read lr;
  match o with
  | ORelPattern v ty lp d lo hi =>
      lp' ← cloneProps lp; alloc (ORelPattern v ty lp' d lo hi)
  | _ => fail
  end.

Definition cloneSegment (l : loc) : M loc :=
  '(lr, ln) ← readSegment l;
  lr' ← cloneRel lr;
  ln' ← cloneNode ln;
  alloc (OSegment lr' ln').

(** [node.properties = { ...node.properties, id: i }] *)
Definition setIdConstraint (ln : loc) (i : NodeId) : M unit :=
  '(v, lb, lp) ← readNodePattern ln;
  ps ← readProps lp;
  lp' ← alloc (OProps (<["id" := VStr i]> ps));
  write ln (ONodePattern v lb lp').

(** The body of [pattern.segments.forEach((segment, index) => ...)]. *)
Definition enrichSegment (b : BindingContext.t) (enrichedPattern : loc)
           (index : nat) (segment : loc) : M unit :=
  '(_, ln) ← readSegment segment;
  '(v, _, _) ← readNodePattern ln;
  match idToAdd b v with
  | Some i =>
      '(_, la') ← readPathPattern enrichedPattern;
      items' ← readSegments la';
      match items' !! index with
      | Some s' => '(_, ln') ← readSegment s'; setIdConstraint ln' i
      | None => fail
      end
  | None => ret tt
  end.

Fixpoint forEachFrom {A : Type} (f : nat -> A -> M unit) (index : nat) (l : list A)
  : M unit :=
  match l with
  | [] => ret tt
  | a :: r => _ ← f index a; forEachFrom f (S index) r
  end.

Definition enrichPatternWithBindings (pattern : loc) (b : BindingContext.t) : M loc :=
  '(ls, la) ← readPathPattern pattern;
  ls' ← cloneNode ls;
  items ← readSegments la;
  items' ← mapM cloneSegment items;
  la' ← alloc (OSegments items');
  enrichedPattern ← alloc (OPathPattern ls' la');
  '(v, _, _) ← readNodePattern ls;
  _ ← match idToAdd b v with
      | Some i =>
          '(ls'', _) ← readPathPattern enrichedPattern;
          setIdConstraint ls'' i
      | None => ret tt
      end;
  _ ← forEachFrom (enrichSegment b enrichedPattern) 0 items;
  ret enrichedPattern.

(** *** Reading a pattern off the store *)

Definition lookupProps (h : heap) (l : loc) : option (gmap string Value) :=
  match h !! l with Some (OProps ps) => Some ps | _ => None end.

Definition lookupLabels (h : heap) (l : loc) : option (list string) :=
  match h !! l with Some (OLabels ls) => Some ls | _ => None end.

Definition lookupNodePattern (h : heap) (l : loc) : option NodePattern.t :=
  match h !! l with
  | Some (ONodePattern v lb lp) =>
      match lookupLabels h lb, lookupProps h lp with
      | Some lbs, Some ps =>
          Some {| NodePattern.variable := v;
                  NodePattern.labels := lbs;
                  NodePattern.properties := ps |}
      | _, _ => None
      end
  | _ => None
  end.

Definition lookupRel (h : heap) (l : loc) : option RelationshipPattern.t :=
  match h !! l with
  | Some (ORelPattern v ty lp d lo hi) =>
      match lookupProps h lp with
      | Some ps =>
          Some {| RelationshipPattern.variable := v;
                  RelationshipPattern.type := ty;
                  RelationshipPattern.properties := ps;
                  RelationshipPattern.direction := d;
                  RelationshipPattern.minHops := lo;
                  RelationshipPattern.maxHops := hi |}
      | None => None
      end
  | _ => None
  end.

Definition lookupSegment (h : heap) (l : loc) : option Segment.t :=
  match h !! l with
  | Some (OSegment lr ln) =>
      match lookupRel h lr, lookupNodePattern h ln with
      | Some r, Some n => Some {| Segment.relationship := r; Segment.node := n |}
      | _, _ => None
      end
  | _ => None
  end.

Fixpoint lookupAll {A : Type} (f : loc -> option A) (ls : list loc) : option (list A) :=
  match ls with
  | [] => Some []
  | l :: r =>
      match f l, lookupAll f r with
      | Some a, Some rest => Some (a :: rest)
      | _, _ => None
      end
  end.

Definition lookupPathPattern (h : heap) (l : loc) : option PathPattern.t :=
  match h !! l with
  | Some (OPathPattern ls la) =>
      match lookupNodePattern h ls, h !! la with
      | Some s, Some (OSegments items) =>
          match lookupAll (lookupSegment h) items with
          | Some segs => Some {| PathPattern.start := s; PathPattern.segments := segs |}
          | None => None
          end
      | _, _ => None
      end
  | _ => None
  end.

(** *** Specification predicates *)

(** Every object of [h] is an object of [h'], at the same location. *)
Definition extends (h h' : heap) : Prop :=
  forall l o, h !! l = Some o -> h' !! l = Some o.

(** The stores agree on every object of [h] but the one at [ln]. *)
Definition agreeExcept (ln : loc) (h h' : heap) : Prop :=
  forall l o, h !! l = Some o -> l <> ln -> h' !! l = Some o.

(** [s'] is a segment object whose node member is the object at [ln'];
    it reads as the relationship pattern [r] and the node pattern [n]. *)
Definition segmentAt (h : heap) (s' ln' : loc) (r : RelationshipPattern.t)
           (n : NodePattern.t) : Prop :=
  exists lr', h !! s' = Some (OSegment lr' ln')
              /\ lookupRel h lr' = Some r
              /\ lookupNodePattern h ln' = Some n.

Definition isNodeObject (o : obj) : Prop :=
  match o with ONodePattern _ _ _ => True | _ => False end.

(** The clone of a path pattern in the store [h], which extends the
    store [h0] the original lives in: the path pattern object [e] with
    its start node at [ls'] and its segments array at [la']; [cells]
    lists the location of each segment object and of its node object;
    [start] and [rns] are what the start node and the segments read as. *)
Definition cloneAt (h0 : heap) (e ls' la' : loc) (cells : list (loc * loc))
           (h : heap) (start : NodePattern.t)
           (rns : list (RelationshipPattern.t * NodePattern.t)) : Prop :=
  extends h0 h
  /\ h !! e = Some (OPathPattern ls' la')
  /\ h !! la' = Some (OSegments (List.map fst cells))
  /\ lookupNodePattern h ls' = Some start
  /\ Forall2 (fun c rn => segmentAt h (fst c) (snd c) (fst rn) (snd rn)) cells rns.

(** The node objects of the clone are new and pairwise distinct. *)
Definition cloneNodesFresh (h0 : heap) (ls' : loc) (cells : list (loc * loc)) : Prop :=
  NoDup (ls' :: List.map snd cells)
  /\ Forall (fun l => length h0 <= l) (ls' :: List.map snd cells).

(** [np] with the constraint [id] set to [i]. *)
Definition withId (i : NodeId) (np : NodePattern.t) : NodePattern.t :=
  {| NodePattern.variable := NodePattern.variable np;
     NodePattern.labels := NodePattern.labels np;
     NodePattern.properties := <["id" := VStr i]> (NodePattern.properties np) |}.

(** What [enrichPatternWithBindings] does to a node pattern. *)
Definition enrichedNode (b : BindingContext.t) (np : NodePattern.t) : NodePattern.t :=
  match idToAdd b (NodePattern.variable np) with
  | Some i => withId i np
  | None => np
  end.
End Heap.

(** The result the specification gives for [enrichPatternWithBindings], on
    pattern values: a node pattern gains the constraint [id] when its
    variable is a non-empty name bound to a node whose id is not empty. *)
Definition withBoundId (b : BindingContext.t) (np : NodePattern.t) : NodePattern.t :=
  match NodePattern.variable np with
  | Some v =>
      match b !! v with
      | Some (BindingContext.BNode n) =>
          if bool_decide (v <> "" /\ Node.id n <> "")
          then {| NodePattern.variable := NodePattern.variable np;
                  NodePattern.labels := NodePattern.labels np;
                  NodePattern.properties :=
                    <["id" := VStr (Node.id n)]> (NodePattern.properties np) |}
          else np
      | _ => np
      end
  | None => np
  end.

Definition enrichedPatternSpec (b : BindingContext.t) (p : PathPattern.t) : PathPattern.t :=
  {| PathPattern.start := withBoundId b (PathPattern.start p);
     PathPattern.segments :=
       List.map (fun s => {| Segment.relationship := Segment.relationship s;
                             Segment.node := withBoundId b (Segment.node s) |})
                (PathPattern.segments p) |}.

(** ** Specification predicates *)

Section SearchRelations.
Context `{JSBuiltins}.
Variable o : Options.
Variable graph : Graph.t.
Variable segments : list Segment.t.

(** The search takes [edge] from the dequeued state [st], working on
    [currentSegment], and reaches [neighborNode]: the state is expanded,
    the edge leads to a neighbour, matches the relationship pattern and
    passes the [id] check. *)
Record hop (st : QueueState) (currentSegment : Segment.t) (edge : Edge.t)
       (neighborNode : Node.t) : Prop := mkHop {
  hop_segment : segments !! segmentIdx st = Some currentSegment;
  hop_depth : length (Path.edges (currentPath st)) < maxPathDepth o;
  hop_neighbor :
    getNeighborNode graph (Node.id (currentNode st)) edge
      (RelationshipPattern.direction (Segment.relationship currentSegment))
    = Some neighborNode;
  hop_relationship :
    matchesRelationshipPattern o edge (Segment.relationship currentSegment)
      (Some (currentNode st)) (Some neighborNode) = true
}.

Definition extendPath (p : Path.t) (edge : Edge.t) (neighborNode : Node.t) : Path.t :=
  {| Path.nodes := Path.nodes p ++ [neighborNode];
     Path.edges := Path.edges p ++ [edge] |}.

(** Check 1: the hop completes the pattern and its path is a result. *)
Inductive emits (st : QueueState) (p : Path.t) : Prop :=
| emits_complete (currentSegment : Segment.t) (edge : Edge.t) (neighborNode : Node.t) :
    hop st currentSegment edge neighborNode ->
    length segments <= segmentIdx st + 1 ->
    minHopsOf (Segment.relationship currentSegment) <= varHopCount st + 1 ->
    matchesNodePattern o neighborNode (Segment.node currentSegment) = true ->
    p = extendPath (currentPath st) edge neighborNode ->
    emits st p.

(** Checks 2 and 3: the states a hop puts on the queue. *)
Inductive successor (st st' : QueueState) : Prop :=
| successor_extend (currentSegment : Segment.t) (edge : Edge.t) (neighborNode : Node.t) :
    hop st currentSegment edge neighborNode ->
    isVariable (Segment.relationship currentSegment) = true ->
    varHopCount st + 1 < maxHopsTraversal o (Segment.relationship currentSegment) ->
    Node.id neighborNode ∉ visitedInPath st ->
    st' = {| currentNode := neighborNode;
             currentPath := extendPath (currentPath st) edge neighborNode;
             segmentIdx := segmentIdx st;
             varHopCount := varHopCount st + 1;
             visitedInPath := {[Node.id neighborNode]} ∪ visitedInPath st |} ->
    successor st st'
| successor_advance (currentSegment : Segment.t) (edge : Edge.t) (neighborNode : Node.t) :
    hop st currentSegment edge neighborNode ->
    minHopsOf (Segment.relationship currentSegment) <= varHopCount st + 1 ->
    matchesNodePattern o neighborNode (Segment.node currentSegment) = true ->
    segmentIdx st + 1 < length segments ->
    Node.id neighborNode ∉ visitedInPath st ->
    st' = {| currentNode := neighborNode;
             currentPath := extendPath (currentPath st) edge neighborNode;
             segmentIdx := segmentIdx st + 1;
             varHopCount := 0;
             visitedInPath := {[Node.id neighborNode]} ∪ visitedInPath st |} ->
    successor st st'.

(** The number [k] of edges a path spends on a segment agrees with the
    segment's hop constraints. *)
Definition hopsOK (k : nat) (s : Segment.t) : Prop :=
  1 <= k
  /\ minHopsOf (Segment.relationship s) <= k
  /\ (isVariable (Segment.relationship s) = false -> k = 1)
  /\ (forall h, RelationshipPattern.maxHops (Segment.relationship s) = Some h ->
                1 <= h -> k <= h).

(** [edge] passes the type check and the property check of the
    segment's relationship pattern. *)
Definition edgeFits (s : Segment.t) (edge : Edge.t) : Prop :=
  matchesRelationshipPattern o edge (Segment.relationship s) None None = true.

(** [run] is a run of edges a path may spend on the segment [s]. *)
Definition runOK (run : list Edge.t) (s : Segment.t) : Prop :=
  hopsOK (length run) s /\ Forall (edgeFits s) run.

(** [runs] splits the edges of a path into one run per segment. *)
Definition runSplit (runs : list (list Edge.t)) (segs : list Segment.t) (p : Path.t)
  : Prop :=
  concat runs = Path.edges p /\ Forall2 runOK runs segs.

(** Invariant of the queued states for the hop bounds: the edges of the
    path so far are the runs of the segments done, then the [varHopCount]
    edges spent on the current segment. *)
Definition hopsInvariant (st : QueueState) : Prop :=
  (exists runs cur,
      Path.edges (currentPath st) = concat runs ++ cur
      /\ length cur = varHopCount st
      /\ Forall2 runOK runs (take (segmentIdx st) segments)
      /\ (forall s, segments !! segmentIdx st = Some s -> Forall (edgeFits s) cur))
  /\ (varHopCount st = 0
      \/ exists s, segments !! segmentIdx st = Some s
                   /\ isVariable (Segment.relationship s) = true
                   /\ varHopCount st < maxHopsTraversal o (Segment.relationship s)).

(** Invariant of the queued states for the cycle check: the nodes of the
    path so far are pairwise distinct and [visitedInPath] holds their ids. *)
Definition visitedInvariant (st : QueueState) : Prop :=
  NoDup (List.map Node.id (Path.nodes (currentPath st)))
  /\ forall i, i ∈ visitedInPath st <-> In i (List.map Node.id (Path.nodes (currentPath st))).
End SearchRelations.

(** The path a pattern without segments yields for a start node. *)
Definition singlePath (node : Node.t) : Path.t :=
  {| Path.nodes := [node]; Path.edges := [] |}.

(** A path repeats no node, save that its last node may close a cycle. *)
Definition distinctButLast (p : Path.t) : Prop :=
  NoDup (List.map Node.id (removelast (Path.nodes p))).

(** ** Cache coherence *)

Section Coherence.
Context `{JSBuiltins}.

(** Every entry of the label cache is what [getNodesByLabel] computes
    from [graph] for the entry's label. *)
Definition labelCacheCoherent (m : PatternMatcher) (graph : Graph.t) : Prop :=
  forall label nodeIds,
    labelCache m !! normalizeLabel (options m) label = Some nodeIds ->
    nodeIds = List.map Node.id
                (Graph.findNodes graph
                   (fun node => labelMatches (options m) (getNodeLabels node) label)).

(** The same for the type cache and [getRelationshipsByType]. *)
Definition typeCacheCoherent (m : PatternMatcher) (graph : Graph.t) : Prop :=
  forall type edgeIdentifiers,
    typeCache m !! normalizeLabel (options m) type = Some edgeIdentifiers ->
    edgeIdentifiers
    = List.map (fun edge => (Edge.source edge, Edge.target edge, Edge.label edge))
        (Graph.findEdges graph
           (fun edge => typeMatches (options m) (Edge.label edge) type)).

(** The matcher is new or had its caches cleared, and has since been
    queried on [graph] only. *)
Inductive cachesBuiltOn (graph : Graph.t) : PatternMatcher -> Prop :=
| built_new (a : PatternMatcherOptions) : cachesBuiltOn graph (newPatternMatcher a)
| built_clear (m : PatternMatcher) : cachesBuiltOn graph (clearCache m)
| built_nodes (m : PatternMatcher) (pattern : NodePattern.t) :
    cachesBuiltOn graph m ->
    cachesBuiltOn graph (snd (findMatchingNodes m graph pattern))
| built_paths (m : PatternMatcher) (pattern : PathPattern.t) :
    cachesBuiltOn graph m ->
    cachesBuiltOn graph (snd (findMatchingPaths m graph pattern)).

(** No entry of the label cache lists a node id twice. *)
Definition labelCacheNoDup (m : PatternMatcher) : Prop :=
  forall key nodeIds, labelCache m !! key = Some nodeIds -> NoDup nodeIds.
End Coherence.

(** ** A reference implementation of the built-ins

    It agrees with the JS runtime on ASCII strings and on numerals written
    as plain decimal integers; it is used to run the matcher on concrete
    graphs. *)

Definition asciiLower (c : ascii) : ascii :=
  let n := nat_of_ascii c in
  if Nat.leb 65 n && Nat.leb n 90 then ascii_of_nat (n + 32) else c.

Fixpoint asciiToLowerCase (s : string) : string :=
  match s with
  | EmptyString => EmptyString
  | String c r => String (asciiLower c) (asciiToLowerCase r)
  end.

Definition decimalToString (z : Z) : string :=
  DecimalString.NilZero.string_of_int (Z.to_int z).

Definition decimalOfString (s : string) : option Z :=
  match DecimalString.NilZero.int_of_string s with
  | Some i => Some (Z.of_int i)
  | None => None
  end.

Fixpoint stringOfValue (v : Value) : string :=
  match v with
  | VNull => "null"
  | VBool true => "true"
  | VBool false => "false"
  | VNum z => decimalToString z
  | VStr s => s
  | VArr items =>
      String.concat ","
        (List.map (fun item => match item with VNull => "" | _ => stringOfValue item end) items)
  end.

#[export] Instance asciiBuiltins : JSBuiltins := {|
  toLowerCase := asciiToLowerCase;
  parseFloat := decimalOfString;
  numberToString := decimalToString;
  valueToString := stringOfValue
|}.

(** ** Test graphs and patterns *)

Definition plainNode (i : NodeId) (l : string) : Node.t :=
  {| Node.id := i; Node.label := l; Node.data := Some ∅ |}.

Definition plainEdge (s t : NodeId) (l : string) : Edge.t :=
  {| Edge.source := s; Edge.target := t; Edge.label := l; Edge.data := Some ∅ |}.

Definition anyNode : NodePattern.t :=
  {| NodePattern.variable := None; NodePattern.labels := []; NodePattern.properties := ∅ |}.

Definition labelled (l : string) : NodePattern.t :=
  {| NodePattern.variable := None; NodePattern.labels := [l]; NodePattern.properties := ∅ |}.

(** [-[:ty*lo..hi]->] *)
Definition rel (ty : option string) (lo hi : option nat) : RelationshipPattern.t :=
  {| RelationshipPattern.variable := None;
     RelationshipPattern.type := ty;
     RelationshipPattern.properties := ∅;
     RelationshipPattern.direction := outgoing;
     RelationshipPattern.minHops := lo;
     RelationshipPattern.maxHops := hi |}.

Definition seg (r : RelationshipPattern.t) (n : NodePattern.t) : Segment.t :=
  {| Segment.relationship := r; Segment.node := n |}.

(** a -> b -> a *)
Definition twoCycle : Graph.t :=
  {| Graph.nodes := [plainNode "a" "N"; plainNode "b" "N"];
     Graph.edges := [plainEdge "a" "b" "R"; plainEdge "b" "a" "R"] |}.

(** a -> b -> c *)
Definition chain3 : Graph.t :=
  {| Graph.nodes := [plainNode "a" "N"; plainNode "b" "N"; plainNode "c" "N"];
     Graph.edges := [plainEdge "a" "b" "R"; plainEdge "b" "c" "R"] |}.

Definition defaultMatcher : PatternMatcher := newPatternMatcher noOptions.

(** A matcher that returns one path at most. *)
Definition limitOne : PatternMatcher :=
  newPatternMatcher (mkOptionsArg None None None (Some 1)).

Definition pathOf (segs : list Segment.t) : PathPattern.t :=
  {| PathPattern.start := anyNode; PathPattern.segments := segs |}.

(** [()-[:R*1..1]->()-[:R*1..1]->()] *)
Definition twoFixedHops : PathPattern.t :=
  pathOf [seg (rel (Some "R") (Some 1) (Some 1)) anyNode;
          seg (rel (Some "R") (Some 1) (Some 1)) anyNode].

(** [()-[]->()], neither [minHops] nor [maxHops] given. *)
Definition hopsUnspecified : PathPattern.t := pathOf [seg (rel None None None) anyNode].

(** [()-[*0..0]->()] *)
Definition zeroHops : PathPattern.t := pathOf [seg (rel None (Some 0) (Some 0)) anyNode].

(** [()-[*1..2]->()] *)
Definition upToTwoHops : PathPattern.t := pathOf [seg (rel None (Some 1) (Some 2)) anyNode].

(** [()-[*1..2]->()-[*1..2]->()] *)
Definition twoVariableSegments : PathPattern.t :=
  pathOf [seg (rel None (Some 1) (Some 2)) anyNode;
          seg (rel None (Some 1) (Some 2)) anyNode].

(** a -> b -> c -> d *)
Definition chain4 : Graph.t :=
  {| Graph.nodes := [plainNode "a" "N"; plainNode "b" "N"; plainNode "c" "N";
                     plainNode "d" "N"];
     Graph.edges := [plainEdge "a" "b" "R"; plainEdge "b" "c" "R"; plainEdge "c" "d" "R"] |}.

(** [()] *)
Definition noSegments : PathPattern.t := pathOf [].

(** A node whose primary label is [Thing] and whose property bag has
    [labels: ["Person"]]. *)
Definition taggedNode : Node.t :=
  {| Node.id := "n1"; Node.label := "Thing";
     Node.data := Some {[ "labels" := VArr [VStr "Person"] ]} |}.

Definition emptyGraph : Graph.t := {| Graph.nodes := []; Graph.edges := [] |}.

Definition onePerson : Graph.t :=
  {| Graph.nodes := [plainNode "p1" "Person"]; Graph.edges := [] |}.

(** The matcher after a query for [Person] on the empty graph. *)
Definition usedOnEmptyGraph : PatternMatcher :=
  snd (findMatchingNodes defaultMatcher emptyGraph (labelled "Person")).

(** A store with the pattern [(a)] at location 4. *)
Definition storeWithPattern : list Heap.obj :=
  [Heap.OLabels []; Heap.OProps ∅; Heap.ONodePattern (Some "a") 0 1;
   Heap.OSegments []; Heap.OPathPattern 2 3].

(** The pattern [(a)], which [storeWithPattern] holds at location 4. *)
Definition noSegmentsNamed : PathPattern.t :=
  {| PathPattern.start :=
       {| NodePattern.variable := Some "a";
          NodePattern.labels := [];
          NodePattern.properties := ∅ |};
     PathPattern.segments := [] |}.

(** [a] bound to a node whose id is the empty string. *)
Definition boundToEmptyId : BindingContext.t :=
  {[ "a" := BindingContext.BNode (plainNode "" "X") ]}.

(** A store with the pattern [()], whose variable is the empty name, at
    location 4. *)
Definition storeWithUnnamed : list Heap.obj :=
  [Heap.OLabels []; Heap.OProps ∅; Heap.ONodePattern (Some "") 0 1;
   Heap.OSegments []; Heap.OPathPattern 2 3].

(** The empty name bound to the node [p1]. *)
Definition emptyNameBound : BindingContext.t :=
  {[ "" := BindingContext.BNode (plainNode "p1" "Person") ]}.

(** [a] bound to the node [p1]. *)
Definition boundToP1 : BindingContext.t :=
  {[ "a" := BindingContext.BNode (plainNode "p1" "Person") ]}.

Definition pathIds (p : Path.t) : list NodeId := List.map Node.id (Path.nodes p).

(** ** Values held by an array

    [occursIn expected v]: [v] is strictly equal to [expected], or [v] is
    an array and [expected] occurs in one of its elements. *)
Inductive occursIn (expected : Value) : Value -> Prop :=
| occurs_here (v : Value) :
    strict_eq v expected = true -> occursIn expected v
| occurs_inside (items : list Value) (item : Value) :
    In item items -> occursIn expected item -> occursIn expected (VArr items).

(** ** A stored pattern with a segment *)

(** A store with the pattern [(a)-[:R]->(b)] at location 9. *)
Definition storeWithSegment : list Heap.obj :=
  [Heap.OLabels []; Heap.OProps ∅; Heap.ONodePattern (Some "a") 0 1;
   Heap.OProps ∅; Heap.ORelPattern None (Some "R") 3 outgoing None None;
   Heap.OProps ∅; Heap.ONodePattern (Some "b") 0 5;
   Heap.OSegment 4 6; Heap.OSegments [7]; Heap.OPathPattern 2 8].

(** The pattern [(a)-[:R]->(b)], which [storeWithSegment] holds at
    location 9. *)
Definition oneSegmentNamed : PathPattern.t :=
  {| PathPattern.start :=
       {| NodePattern.variable := Some "a";
          NodePattern.labels := [];
          NodePattern.properties := ∅ |};
     PathPattern.segments :=
       [{| Segment.relationship := rel (Some "R") None None;
           Segment.node :=
             {| NodePattern.variable := Some "b";
                NodePattern.labels := [];
                NodePattern.properties := ∅ |} |}] |}.

(** [a] bound to the node [p1], [b] to the node [p2]. *)
Definition boundToP1P2 : BindingContext.t :=
  {[ "a" := BindingContext.BNode (plainNode "p1" "Person");
     "b" := BindingContext.BNode (plainNode "p2" "Person") ]}.

(** ** Specification predicates: what a returned path is *)

Section MatchRelations.
Context `{JSBuiltins}.
Variable o : Options.
Variable graph : Graph.t.
Variable segments : list Segment.t.

(** [edge] joins [n] to [n'] the way the direction [d] asks. *)
Definition joins (d : Direction) (n : Node.t) (edge : Edge.t) (n' : Node.t) : Prop :=
  match d with
  | outgoing => Edge.source edge = Node.id n /\ Edge.target edge = Node.id n'
  | incoming => Edge.target edge = Node.id n /\ Edge.source edge = Node.id n'
  | both => (Edge.source edge = Node.id n /\ Edge.target edge = Node.id n')
            \/ (Edge.target edge = Node.id n /\ Edge.source edge = Node.id n')
  end.

(** The [id] constraint of a node pattern, if it has one, is the id of
    [n]. *)
Definition idAllowed (pattern : NodePattern.t) (n : Node.t) : Prop :=
  forall v, NodePattern.properties pattern !! "id" = Some v -> v = VStr (Node.id n).

(** One hop of a match on the segment [s]: an edge of the graph that
    joins [n] to a node [n'] of the graph in the direction of the
    relationship pattern and matches it; [n'] passes the [id] check of the
    segment's node pattern. *)
Definition hopsTo (s : Segment.t) (n : Node.t) (edge : Edge.t) (n' : Node.t) : Prop :=
  In edge (Graph.edges graph)
  /\ In n' (Graph.nodes graph)
  /\ joins (RelationshipPattern.direction (Segment.relationship s)) n edge n'
  /\ matchesRelationshipPattern o edge (Segment.relationship s) (Some n) (Some n') = true
  /\ idAllowed (Segment.node s) n'.

(** [chain s n es ms last]: from [n], the edges [es] lead through the
    nodes [ms] to [last], each hop a hop on the segment [s]. *)
Inductive chain (s : Segment.t) : Node.t -> list Edge.t -> list Node.t -> Node.t -> Prop :=
| chain_nil (n : Node.t) : chain s n [] [] n
| chain_snoc (n : Node.t) (es : list Edge.t) (ms : list Node.t) (m : Node.t)
             (edge : Edge.t) (m' : Node.t) :
    chain s n es ms m ->
    hopsTo s m edge m' ->
    chain s n (es ++ [edge]) (ms ++ [m']) m'.

(** The number [k] of hops a path spends on the segment [s] is within
    the segment's hop constraints, as the search applies them: one hop at
    least and [minHops] hops at least; exactly one hop on a segment that
    is not variable; at most [maxHopsTraversal] hops ([maxHops] capped by
    [maxPathDepth], or [maxPathDepth] when [maxHops] is absent), or one
    hop when that bound is 0: the first hop of a segment is taken before
    any upper bound is looked at. *)
Definition hopsWithin (k : nat) (s : Segment.t) : Prop :=
  1 <= k
  /\ minHopsOf (Segment.relationship s) <= k
  /\ (isVariable (Segment.relationship s) = false -> k = 1)
  /\ k <= Nat.max 1 (maxHopsTraversal o (Segment.relationship s)).

(** [pathMatches segs n0 es ms last]: from [n0], the edges [es] lead
    through the nodes [ms] to [last] and match the segments [segs] in
    turn: each segment takes a chain of hops whose number is within its
    hop constraints and whose last node matches its node pattern. *)
Inductive pathMatches : list Segment.t -> Node.t -> list Edge.t -> list Node.t ->
                        Node.t -> Prop :=
| pathMatches_nil (n0 : Node.t) : pathMatches [] n0 [] [] n0
| pathMatches_snoc (segs : list Segment.t) (s : Segment.t) (n0 : Node.t)
                   (es : list Edge.t) (ms : list Node.t) (m : Node.t)
                   (es' : list Edge.t) (ms' : list Node.t) (m' : Node.t) :
    pathMatches segs n0 es ms m ->
    chain s m es' ms' m' ->
    hopsWithin (length es') s ->
    matchesNodePattern o m' (Segment.node s) = true ->
    pathMatches (segs ++ [s]) n0 (es ++ es') (ms ++ ms') m'.

(** The search takes [edge] from [st] as [hop] says, [edge] being one of
    the candidate edges of the current node, and the neighbour passes the
    [id] check. *)
Record hopFull (st : QueueState) (currentSegment : Segment.t) (edge : Edge.t)
       (neighborNode : Node.t) : Prop := mkHopFull {
  hopFull_hop : hop o graph segments st currentSegment edge neighborNode;
  hopFull_candidate :
    In edge (getCandidateEdges graph (Node.id (currentNode st))
               (RelationshipPattern.direction (Segment.relationship currentSegment)));
  hopFull_id : idAllowed (Segment.node currentSegment) neighborNode
}.

(** [emits] and [successor] with the hop described in full. *)
Inductive emitsFull (st : QueueState) (p : Path.t) : Prop :=
| emitsFull_complete (currentSegment : Segment.t) (edge : Edge.t) (neighborNode : Node.t) :
    hopFull st currentSegment edge neighborNode ->
    length segments <= segmentIdx st + 1 ->
    minHopsOf (Segment.relationship currentSegment) <= varHopCount st + 1 ->
    matchesNodePattern o neighborNode (Segment.node currentSegment) = true ->
    p = extendPath (currentPath st) edge neighborNode ->
    emitsFull st p.

Inductive successorFull (st st' : QueueState) : Prop :=
| successorFull_extend (currentSegment : Segment.t) (edge : Edge.t)
                       (neighborNode : Node.t) :
    hopFull st currentSegment edge neighborNode ->
    isVariable (Segment.relationship currentSegment) = true ->
    varHopCount st + 1 < maxHopsTraversal o (Segment.relationship currentSegment) ->
    Node.id neighborNode ∉ visitedInPath st ->
    st' = {| currentNode := neighborNode;
             currentPath := extendPath (currentPath st) edge neighborNode;
             segmentIdx := segmentIdx st;
             varHopCount := varHopCount st + 1;
             visitedInPath := {[Node.id neighborNode]} ∪ visitedInPath st |} ->
    successorFull st st'
| successorFull_advance (currentSegment : Segment.t) (edge : Edge.t)
                        (neighborNode : Node.t) :
    hopFull st currentSegment edge neighborNode ->
    minHopsOf (Segment.relationship currentSegment) <= varHopCount st + 1 ->
    matchesNodePattern o neighborNode (Segment.node currentSegment) = true ->
    segmentIdx st + 1 < length segments ->
    Node.id neighborNode ∉ visitedInPath st ->
    st' = {| currentNode := neighborNode;
             currentPath := extendPath (currentPath st) edge neighborNode;
             segmentIdx := segmentIdx st + 1;
             varHopCount := 0;
             visitedInPath := {[Node.id neighborNode]} ∪ visitedInPath st |} ->
    successorFull st st'.

(** Invariant of the queued states for the match: the path so far starts
    at one of the [initialNodes], matches the segments done, and then
    follows a chain of [varHopCount] hops on the current segment to the
    current node. *)
Definition matchInvariant (initialNodes : list Node.t) (st : QueueState) : Prop :=
  exists n0 es ms m es' ms',
    In n0 initialNodes
    /\ Path.nodes (currentPath st) = n0 :: ms ++ ms'
    /\ Path.edges (currentPath st) = es ++ es'
    /\ pathMatches (take (segmentIdx st) segments) n0 es ms m
    /\ length es' = varHopCount st
    /\ (forall s, segments !! segmentIdx st = Some s ->
                  chain s m es' ms' (currentNode st)).

(** A path starts at one of the [initialNodes] and matches the segments. *)
Definition matchesFrom (initialNodes : list Node.t) (p : Path.t) : Prop :=
  exists n0 ms last,
    In n0 initialNodes
    /\ Path.nodes p = n0 :: ms
    /\ pathMatches segments n0 (Path.edges p) ms last.
End MatchRelations.

(** [es] and [ms] are a walk from [n]: each edge joins a node to the next,
    the way [d] asks. *)
Fixpoint isWalk (d : Direction) (n : Node.t) (es : list Edge.t) (ms : list Node.t) : Prop :=
  match es, ms with
  | [], [] => True
  | e :: es', m :: ms' => joins d n e m /\ isWalk d m es' ms'
  | _, _ => False
  end.

(** The least number of edges a path needs to match the segments: each
    segment takes one edge at least, and [minHops] edges if that is more. *)
Definition minEdges (segments : list Segment.t) : nat :=
  list_sum (List.map (fun s => Nat.max 1 (minHopsOf (Segment.relationship s))) segments).

(** The direction [d] of a walk allows the hops of the segment [s]: it is
    the direction of the segment, or [both]. *)
Definition allows (d : Direction) (s : Segment.t) : Prop :=
  d = both \/ RelationshipPattern.direction (Segment.relationship s) = d.

(** Results kept under the limit: [rs] appended to [results], as far as
    [maxPathResults] allows. *)
Definition appendUpTo (o : Options) (results rs : list Path.t) : list Path.t :=
  results ++ take (maxPathResults o - length results) rs.

(** ** One fixed hop

    What a pattern of one segment asks of an edge out of a start node: the
    edge leads to a neighbour in the direction of the relationship, matches
    the relationship pattern, and the neighbour passes the [id] check and
    matches the node pattern.  The path of the hop, if so. *)
Section OneHop.
Context `{JSBuiltins}.
Variable o : Options.
Variable graph : Graph.t.
Variable s : Segment.t.

Definition oneHopPath (startNode : Node.t) (edge : Edge.t) : option Path.t :=
  match getNeighborNode graph (Node.id startNode) edge
          (RelationshipPattern.direction (Segment.relationship s)) with
  | None => None
  | Some neighborNode =>
      if matchesRelationshipPattern o edge (Segment.relationship s)
           (Some startNode) (Some neighborNode)
         && match NodePattern.properties (Segment.node s) !! "id" with
            | Some expectedId => strict_eq (VStr (Node.id neighborNode)) expectedId
            | None => true
            end
         && matchesNodePattern o neighborNode (Segment.node s)
      then Some {| Path.nodes := [startNode; neighborNode]; Path.edges := [edge] |}
      else None
  end.

(** The one-hop paths out of [startNode], in the order of its candidate
    edges. *)
Definition oneHopPathsFrom (startNode : Node.t) : list Path.t :=
  omap (oneHopPath startNode)
       (getCandidateEdges graph (Node.id startNode)
          (RelationshipPattern.direction (Segment.relationship s))).

(** The one-hop paths out of [initialNodes], in order. *)
Definition oneHopPaths (initialNodes : list Node.t) : list Path.t :=
  flat_map oneHopPathsFrom initialNodes.
End OneHop.

(** ** More test patterns *)

(** [()-[*11..]->()] *)
Definition elevenHops : PathPattern.t := pathOf [seg (rel None (Some 11) None) anyNode].

(** [({id: i})] *)
Definition nodeOfId (i : NodeId) : NodePattern.t :=
  {| NodePattern.variable := None;
     NodePattern.labels := [];
     NodePattern.properties := {[ "id" := VStr i ]} |}.

(** [()-[*1..2]->({id: "c"})] *)
Definition upToTwoHopsToC : PathPattern.t :=
  pathOf [seg (rel None (Some 1) (Some 2)) (nodeOfId "c")].

(** [()-[:R*1..1]->()] *)
Definition oneFixedHop : PathPattern.t :=
  pathOf [seg (rel (Some "R") (Some 1) (Some 1)) anyNode].

(** ** Specification predicates for relationship lookup *)

(** Both endpoints of [edge] are nodes of the graph. *)
Definition hasEndpoints (graph : Graph.t) (edge : Edge.t) : bool :=
  match Graph.getNode graph (Edge.source edge), Graph.getNode graph (Edge.target edge) with
  | Some _, Some _ => true
  | _, _ => false
  end.

(** The triple that identifies an edge in the type cache. *)
Definition edgeKey (edge : Edge.t) : NodeId * NodeId * string :=
  (Edge.source edge, Edge.target edge, Edge.label edge).

(** What the direction check of [matchesRelationshipPattern] comes to when
    the two nodes passed are the edge's own endpoints: [incoming] asks for
    an edge from a node to itself, the other directions for nothing. *)
Definition directionOnOwnEndpoints (d : Direction) (edge : Edge.t) : bool :=
  match d with
  | incoming => String.eqb (Edge.source edge) (Edge.target edge)
  | outgoing | both => true
  end.

(** a -> b, and a loop on b *)
Definition edgeAndLoop : Graph.t :=
  {| Graph.nodes := [plainNode "a" "N"; plainNode "b" "N"];
     Graph.edges := [plainEdge "a" "b" "R"; plainEdge "b" "b" "R"] |}.

(** A matcher with [enableTypeCoercion: true]. *)
Definition coercingMatcher : PatternMatcher :=
  newPatternMatcher (mkOptionsArg None (Some true) None None).

(** The variable of the node pattern [np] is a non-empty name that [b]
    binds to the node [n], whose id is not empty: the case in which
    [enrichPatternWithBindings] adds an [id] constraint. *)
Definition boundTo (b : BindingContext.t) (np : NodePattern.t) (n : Node.t) : Prop :=
  exists x, NodePattern.variable np = Some x
            /\ x <> ""
            /\ b !! x = Some (BindingContext.BNode n)
            /\ Node.id n <> "".

(** [(x)-[*1..2]->(y)] *)
Definition namedEnds : PathPattern.t :=
  {| PathPattern.start :=
       {| NodePattern.variable := Some "x";
          NodePattern.labels := [];
          NodePattern.properties := ∅ |};
     PathPattern.segments :=
       [seg (rel None (Some 1) (Some 2))
            {| NodePattern.variable := Some "y";
               NodePattern.labels := [];
               NodePattern.properties := ∅ |}] |}.

(** [x] bound to the node [a] of the chains, [y] to the node [b]. *)
Definition boundToAB : BindingContext.t :=
  {[ "x" := BindingContext.BNode (plainNode "a" "N");
     "y" := BindingContext.BNode (plainNode "b" "N") ]}.

(** [x] bound to the node [a] of the chains, [y] to the node [c]. *)
Definition boundToAC : BindingContext.t :=
  {[ "x" := BindingContext.BNode (plainNode "a" "N");
     "y" := BindingContext.BNode (plainNode "c" "N") ]}.

(** * Verification *)

(** ** Values and property constraints *)

Section ValueFacts.
Context `{JSBuiltins}.
Variable o : Options.

Lemma strict_eq_array_l (items : list Value) (v : Value) :
  strict_eq (VArr items) v = false.
Proof. reflexivity. Qed.

Lemma valuesMatch_scalar_no_coercion (actual expected : Value) :
  enableTypeCoercion o = false ->
  isArray actual = false ->
  valuesMatch o actual expected = strict_eq actual expected.
Proof.
  intros Hc Ha.
  destruct actual; simpl in *; try discriminate;
    rewrite Hc; destruct expected; simpl;
    repeat match goal with |- context [if ?b then _ else _] => destruct b end;
    reflexivity.
Qed.

Lemma valuesMatch_array_no_coercion (items : list Value) (expected : Value) :
  enableTypeCoercion o = false ->
  valuesMatch o (VArr items) expected
  = negb (isArray expected) && existsb (fun item => valuesMatch o item expected) items.
Proof.
  intros Hc. simpl. rewrite Hc.
  destruct (isArray expected); reflexivity.
Qed.

Lemma existsb_valuesMatch_scalars (items : list Value) (expected : Value) :
  enableTypeCoercion o = false ->
  Forall (fun item => isArray item = false) items ->
  existsb (fun item => valuesMatch o item expected) items
  = existsb (fun item => strict_eq item expected) items.
Proof.
  intros Hc Hitems. induction Hitems as [| item items Hitem _ IH]; simpl in *.
  - reflexivity.
  - rewrite IH. f_equal. apply valuesMatch_scalar_no_coercion; assumption.
Qed.

Lemma valuesMatch_array_of_scalars (items : list Value) (expected : Value) :
  enableTypeCoercion o = false ->
  isArray expected = false ->
  Forall (fun item => isArray item = false) items ->
  valuesMatch o (VArr items) expected
  = existsb (fun item => strict_eq item expected) items.
Proof.
  intros Hc He Hitems.
  rewrite valuesMatch_array_no_coercion by assumption.
  rewrite He. simpl. apply existsb_valuesMatch_scalars; assumption.
Qed.

(** Membership is deep on nested arrays: the array check recurses. *)
Lemma valuesMatch_nested_array (items : list Value) (expected : Value) :
  enableTypeCoercion o = false ->
  isArray expected = false ->
  valuesMatch o (VArr items) expected = true ->
  valuesMatch o (VArr [VArr items]) expected = true.
Proof.
  intros Hc He Hm.
  rewrite valuesMatch_array_no_coercion by assumption.
  rewrite He. simpl. simpl in Hm. rewrite Hm. reflexivity.
Qed.

(** The same for a property constraint of a node: with a single
    constraint [key: expected] on an array-valued property, the node
    matches exactly when the array holds the value. *)
Lemma nodePropertiesMatch_array_member (node : Node.t) (nodeData : gmap string Value)
      (key : string) (items : list Value) (expected : Value) :
  enableTypeCoercion o = false ->
  isArray expected = false ->
  Forall (fun item => isArray item = false) items ->
  key <> "id" ->
  Node.data node = Some nodeData ->
  nodeData !! key = Some (VArr items) ->
  nodePropertiesMatch o node {[ key := expected ]} = true
  <-> exists item, In item items /\ strict_eq item expected = true.
Proof.
  intros Hc He Hitems Hkey Hdata Hlook.
  unfold nodePropertiesMatch. rewrite Hdata, map_to_list_singleton.
  cbn [forallb]. rewrite andb_true_r.
  apply String.eqb_neq in Hkey. rewrite Hkey, Hlook.
  rewrite valuesMatch_array_of_scalars by assumption. apply existsb_exists.
Qed.

Lemma edgePropertiesMatch_array_member (edge : Edge.t) (edgeData : gmap string Value)
      (key : string) (items : list Value) (expected : Value) :
  enableTypeCoercion o = false ->
  isArray expected = false ->
  Forall (fun item => isArray item = false) items ->
  Edge.data edge = Some edgeData ->
  edgeData !! key = Some (VArr items) ->
  edgePropertiesMatch o edge {[ key := expected ]} = true
  <-> exists item, In item items /\ strict_eq item expected = true.
Proof.
  intros Hc He Hitems Hdata Hlook.
  unfold edgePropertiesMatch. rewrite Hdata, map_to_list_singleton.
  cbn [forallb]. rewrite andb_true_r, Hlook.
  rewrite valuesMatch_array_of_scalars by assumption. apply existsb_exists.
Qed.

(** Without coercion, a value that is not an array matches exactly the
    values it occurs in. *)
Lemma valuesMatch_occursIn (expected : Value) :
  enableTypeCoercion o = false ->
  isArray expected = false ->
  forall actual, valuesMatch o actual expected = true <-> occursIn expected actual.
Proof.
  intros Hc He actual. split.
  - revert actual. fix IH 1. intros actual.
    destruct actual as [| b | z | str | items].
    + rewrite valuesMatch_scalar_no_coercion by (assumption || reflexivity).
      apply occurs_here.
    + rewrite valuesMatch_scalar_no_coercion by (assumption || reflexivity).
      apply occurs_here.
    + rewrite valuesMatch_scalar_no_coercion by (assumption || reflexivity).
      apply occurs_here.
    + rewrite valuesMatch_scalar_no_coercion by (assumption || reflexivity).
      apply occurs_here.
    + rewrite valuesMatch_array_no_coercion by assumption.
      rewrite He. cbn [negb andb].
      intros Hm.
      assert (Hex : exists item, In item items /\ occursIn expected item).
      { induction items as [| item items IHitems]; simpl in Hm; [discriminate |].
        apply orb_true_iff in Hm. destruct Hm as [Hm | Hm].
        - exists item. split; [left; reflexivity | apply IH; exact Hm].
        - destruct (IHitems Hm) as (item' & Hin & Hocc).
          exists item'. split; [right; exact Hin | exact Hocc]. }
      destruct Hex as (item & Hin & Hocc).
      exact (occurs_inside expected items item Hin Hocc).
  - induction 1 as [v Heq | items item Hin Hocc IH].
    + destruct v; simpl in *; try discriminate; rewrite Heq; reflexivity.
    + rewrite valuesMatch_array_no_coercion by assumption.
      rewrite He. cbn [negb andb]. apply existsb_exists.
      exists item. split; assumption.
Qed.

(** C10.  With type coercion disabled, a required value that is not an
    array matches an array-valued property if and only if it occurs in
    an element of the array: it is strictly equal to the element, or the
    element is an array in which it occurs in turn, at any depth.  When
    no element of the array is itself an array, this is membership: the
    value matches if and only if some element of the array is strictly
    equal to it. *)
Theorem valuesMatch_array_is_membership (items : list Value) (expected : Value) :
  enableTypeCoercion o = false ->
  isArray expected = false ->
  (valuesMatch o (VArr items) expected = true
   <-> exists item, In item items /\ occursIn expected item)
  /\ (Forall (fun item => isArray item = false) items ->
      (valuesMatch o (VArr items) expected = true
       <-> exists item, In item items /\ strict_eq item expected = true)).
Proof.
  intros Hc He.
  assert (Hex : valuesMatch o (VArr items) expected = true
                <-> exists item, In item items /\ valuesMatch o item expected = true).
  { rewrite valuesMatch_array_no_coercion by assumption.
    rewrite He. cbn [negb andb]. apply existsb_exists. }
  split.
  - rewrite Hex.
    split; intros (item & Hin & Hm); exists item; (split; [exact Hin |]);
      apply (valuesMatch_occursIn expected Hc He item); exact Hm.
  - intros Hitems. rewrite Hex. rewrite Forall_forall in Hitems.
    split; intros (item & Hin & Hm); exists item; (split; [exact Hin |]).
    + rewrite <- (valuesMatch_scalar_no_coercion item expected Hc); [exact Hm |].
      apply Hitems. apply list_elem_of_In. exact Hin.
    + rewrite (valuesMatch_scalar_no_coercion item expected Hc); [exact Hm |].
      apply Hitems. apply list_elem_of_In. exact Hin.
Qed.
End ValueFacts.

(** ** Node matching *)

Section NodeFacts.
Context `{JSBuiltins}.

Lemma labelMatches_primary (o : Options) (node : Node.t) (requiredLabel : string) :
  labelMatches o (getNodeLabels node) requiredLabel
  = String.eqb (normalizeLabel o (Node.label node)) (normalizeLabel o requiredLabel).
Proof. unfold labelMatches, getNodeLabels. simpl. apply orb_false_r. Qed.

(** The label check depends on the required label through its normal form
    only. *)
Lemma labelMatches_normalized (o : Options) (nodeLabels : list string) (l1 l2 : string) :
  normalizeLabel o l1 = normalizeLabel o l2 ->
  labelMatches o nodeLabels l1 = labelMatches o nodeLabels l2.
Proof. intros Heq. unfold labelMatches. rewrite Heq. reflexivity. Qed.

(** C3, as the code has it.  A node matches a node pattern exactly when
    every required label equals the node's primary label (after
    normalisation: case-insensitively unless [caseSensitiveLabels] is set)
    and the property constraints hold.  The node's property bag, and so a
    [labels] array in it, plays no part in the label check. *)
Theorem matchesNodePattern_primary_label_only
        (o : Options) (node : Node.t) (pattern : NodePattern.t) :
  matchesNodePattern o node pattern = true
  <-> (forall requiredLabel, In requiredLabel (NodePattern.labels pattern) ->
         normalizeLabel o requiredLabel = normalizeLabel o (Node.label node))
      /\ (size (NodePattern.properties pattern) = 0
          \/ nodePropertiesMatch o node (NodePattern.properties pattern) = true).
Proof.
  unfold matchesNodePattern.
  destruct (forallb _ (NodePattern.labels pattern)) eqn:Hl; simpl.
  - rewrite forallb_forall in Hl.
    assert (Hlabels : forall requiredLabel, In requiredLabel (NodePattern.labels pattern) ->
               normalizeLabel o requiredLabel = normalizeLabel o (Node.label node)).
    { intros l Hin. specialize (Hl l Hin). rewrite labelMatches_primary in Hl.
      apply String.eqb_eq in Hl. congruence. }
    destruct (Nat.ltb 0 (size (NodePattern.properties pattern))) eqn:Hs.
    + apply Nat.ltb_lt in Hs. split.
      * intros Hm. split; [exact Hlabels | right; exact Hm].
      * intros [_ [Hz | Hm]]; [lia | exact Hm].
    + apply Nat.ltb_ge in Hs. split.
      * intros _. split; [exact Hlabels | left; lia].
      * reflexivity.
  - split; [discriminate |].
    intros [Hlabels _]. exfalso.
    assert (Hall : forallb (fun requiredLabel => labelMatches o (getNodeLabels node) requiredLabel)
                     (NodePattern.labels pattern) = true).
    { apply forallb_forall. intros l Hin. rewrite labelMatches_primary.
      apply String.eqb_eq. symmetry. apply Hlabels. exact Hin. }
    congruence.
Qed.

(** *** Lookups in the graph store *)

Lemma getNode_Some (graph : Graph.t) (i : NodeId) (node : Node.t) :
  Graph.getNode graph i = Some node -> In node (Graph.nodes graph) /\ Node.id node = i.
Proof.
  unfold Graph.getNode. intros Hf. apply find_some in Hf.
  destruct Hf as [Hin Heq]. apply String.eqb_eq in Heq. auto.
Qed.

Lemma nodesOfIds_In (graph : Graph.t) (nodeIds : list NodeId) (node : Node.t) :
  In node (nodesOfIds graph nodeIds) ->
  In node (Graph.nodes graph) /\ In (Node.id node) nodeIds.
Proof.
  unfold nodesOfIds. intros Hin. apply list_elem_of_In in Hin.
  apply list_elem_of_omap in Hin. destruct Hin as (i & Hi & Hget).
  apply getNode_Some in Hget. destruct Hget as [Hn Hid]. subst i.
  split; [assumption | apply list_elem_of_In; assumption].
Qed.

Lemma getNodesByLabel_In (m : PatternMatcher) (graph : Graph.t) (label : string)
      (node : Node.t) :
  In node (fst (getNodesByLabel m graph label)) -> In node (Graph.nodes graph).
Proof.
  unfold getNodesByLabel.
  destruct (labelCache m !! normalizeLabel (options m) label); simpl;
    intros Hin; apply nodesOfIds_In in Hin; tauto.
Qed.

Lemma getNodesByLabel_options (m : PatternMatcher) (graph : Graph.t) (label : string) :
  options (snd (getNodesByLabel m graph label)) = options m.
Proof.
  unfold getNodesByLabel.
  destruct (labelCache m !! normalizeLabel (options m) label); reflexivity.
Qed.

Lemma findMatchingNodes_sound (m : PatternMatcher) (graph : Graph.t)
      (pattern : NodePattern.t) (node : Node.t) :
  In node (fst (findMatchingNodes m graph pattern)) ->
  matchesNodePattern (options m) node pattern = true /\ In node (Graph.nodes graph).
Proof.
  unfold findMatchingNodes.
  destruct (NodePattern.labels pattern) as [| label0 rest].
  - simpl. unfold Graph.findNodes. rewrite filter_In. tauto.
  - pose proof (getNodesByLabel_In m graph label0 node) as Hin.
    destruct (getNodesByLabel m graph label0) as [labeledNodes m'].
    simpl in *. rewrite filter_In. intros [Hl Hm]. auto.
Qed.

Lemma findMatchingNodes_options (m : PatternMatcher) (graph : Graph.t)
      (pattern : NodePattern.t) :
  options (snd (findMatchingNodes m graph pattern)) = options m.
Proof.
  unfold findMatchingNodes.
  destruct (NodePattern.labels pattern) as [| label0 rest]; [reflexivity |].
  pose proof (getNodesByLabel_options m graph label0) as Ho.
  destruct (getNodesByLabel m graph label0). exact Ho.
Qed.

(** C4.  Whatever the label cache of the matcher holds, every node
    returned by [findMatchingNodes] satisfies [matchesNodePattern] and is
    a node of the graph. *)
Theorem findMatchingNodes_match_and_present (m : PatternMatcher) (graph : Graph.t)
        (pattern : NodePattern.t) :
  Forall (fun node => matchesNodePattern (options m) node pattern = true
                      /\ In node (Graph.nodes graph))
         (fst (findMatchingNodes m graph pattern)).
Proof.
  apply Forall_forall. intros node Hin.
  apply findMatchingNodes_sound. apply list_elem_of_In. exact Hin.
Qed.
End NodeFacts.

(** ** The search: what a dequeued state produces *)

Section SearchFacts.
Context `{JSBuiltins}.
Variable o : Options.
Variable graph : Graph.t.
Variable segments : list Segment.t.

Lemma pushResult_cases (results : list Path.t) (p : Path.t) :
  (pushResult o results p = results ++ [p] /\ length results < maxPathResults o)
  \/ (pushResult o results p = results /\ maxPathResults o <= length results).
Proof.
  unfold pushResult. destruct (Nat.ltb_spec (length results) (maxPathResults o)); auto.
Qed.

Ltac solve_appended :=
  first [ exists []; rewrite app_nil_r; split; [reflexivity | constructor]
        | eexists; split; [reflexivity |];
          repeat (first [apply List.Forall_nil | apply List.Forall_cons]);
          first [ eapply emits_complete; eauto; fail
                | eapply successor_extend; eauto; fail
                | eapply successor_advance; eauto; fail ]
        | rewrite <- app_assoc; eexists; split; [reflexivity |];
          repeat (first [apply List.Forall_nil | apply List.Forall_cons]);
          first [ eapply successor_extend; eauto; fail
                | eapply successor_advance; eauto; fail ] ].

Lemma edgeStep_spec (st : QueueState) (currentSegment : Segment.t) (edge : Edge.t)
      (results : list Path.t) (queue : list QueueState)
      (ctl : Ctl) (results' : list Path.t) (queue' : list QueueState) :
  segments !! segmentIdx st = Some currentSegment ->
  length (Path.edges (currentPath st)) < maxPathDepth o ->
  edgeStep o graph segments st currentSegment edge results queue
  = (ctl, (results', queue')) ->
  (exists ps, results' = results ++ ps /\ Forall (emits o graph segments st) ps)
  /\ (exists qs, queue' = queue ++ qs /\ Forall (successor o graph segments st) qs).
Proof.
  intros Hseg Hdepth. unfold edgeStep.
  destruct (getNeighborNode _ _ _ _) as [neighborNode |] eqn:Hnb.
  2: { intros [= <- <- <-]. split; exists []; rewrite app_nil_r; auto. }
  destruct (matchesRelationshipPattern _ _ _ _ _) eqn:Hrel; simpl negb; cbv iota.
  2: { intros [= <- <- <-]. split; exists []; rewrite app_nil_r; auto. }
  assert (Hhop : hop o graph segments st currentSegment edge neighborNode)
    by (constructor; assumption).
  destruct (match NodePattern.properties (Segment.node currentSegment) !! "id" with
            | Some expectedId => _ | None => false end).
  { intros [= <- <- <-]. split; exists []; rewrite app_nil_r; auto. }
  set (newPath := {| Path.nodes := _; Path.edges := _ |}).
  change newPath with (extendPath (currentPath st) edge neighborNode) in *.
  clear newPath.
  destruct (Nat.leb_spec (length segments) (segmentIdx st + 1)) as [Hfinal | Hfinal];
  destruct (Nat.leb_spec (minHopsOf (Segment.relationship currentSegment))
                         (varHopCount st + 1)) as [Hmin | Hmin];
  destruct (matchesNodePattern o neighborNode (Segment.node currentSegment)) eqn:Hmatch;
  destruct (isVariable (Segment.relationship currentSegment)) eqn:Hvar;
  destruct (Nat.ltb_spec (varHopCount st + 1)
                         (maxHopsTraversal o (Segment.relationship currentSegment)))
    as [Hmax | Hmax];
  destruct (bool_decide (Node.id neighborNode ∈ visitedInPath st)) eqn:Hcyc;
  try apply bool_decide_eq_false in Hcyc;
  cbn [andb negb];
  try (destruct (pushResult_cases results (extendPath (currentPath st) edge neighborNode))
        as [[-> Hlt] | [-> Hge]]);
  repeat match goal with
         | |- context [Nat.leb ?a ?b] => destruct (Nat.leb a b)
         end;
  intros Heq; inversion Heq; subst; clear Heq;
  split; solve_appended.
Qed.

Lemma edgeLoop_spec (st : QueueState) (currentSegment : Segment.t)
      (candidateEdges : list Edge.t) :
  segments !! segmentIdx st = Some currentSegment ->
  length (Path.edges (currentPath st)) < maxPathDepth o ->
  forall results queue results' queue',
    edgeLoop o graph segments st currentSegment candidateEdges results queue
    = (results', queue') ->
    (exists ps, results' = results ++ ps /\ Forall (emits o graph segments st) ps)
    /\ (exists qs, queue' = queue ++ qs /\ Forall (successor o graph segments st) qs).
Proof.
  intros Hseg Hdepth.
  induction candidateEdges as [| edge rest IH]; intros results queue results' queue'.
  - simpl. intros [= <- <-]. split; exists []; rewrite app_nil_r; auto.
  - simpl.
    destruct (edgeStep o graph segments st currentSegment edge results queue)
      as [ctl [results1 queue1]] eqn:Hstep.
    apply edgeStep_spec in Hstep; [| assumption | assumption].
    destruct Hstep as [(ps1 & -> & Hps1) (qs1 & -> & Hqs1)].
    destruct ctl.
    + intros [= <- <-]. split; eauto.
    + intros Hloop. apply IH in Hloop.
      destruct Hloop as [(ps2 & -> & Hps2) (qs2 & -> & Hqs2)].
      split; [exists (ps1 ++ ps2) | exists (qs1 ++ qs2)];
        rewrite app_assoc; (split; [reflexivity | apply Forall_app; auto]).
Qed.

Lemma processState_spec (st : QueueState) (results : list Path.t)
      (queue : list QueueState) (results' : list Path.t) (queue' : list QueueState) :
  processState o graph segments st results queue = (results', queue') ->
  (exists ps, results' = results ++ ps /\ Forall (emits o graph segments st) ps)
  /\ (exists qs, queue' = queue ++ qs /\ Forall (successor o graph segments st) qs).
Proof.
  unfold processState.
  destruct (segments !! segmentIdx st) as [currentSegment |] eqn:Hseg.
  2: { intros [= <- <-]. split; exists []; rewrite app_nil_r; auto. }
  destruct (Nat.leb_spec (maxPathDepth o) (length (Path.edges (currentPath st)))).
  { intros [= <- <-]. split; exists []; rewrite app_nil_r; auto. }
  apply edgeLoop_spec; assumption.
Qed.

(** Invariants of the search: a property of the queued states that the
    initial states have and the hops preserve holds of every state that
    emits a result. *)
Section Invariant.
Variable I : QueueState -> Prop.
Variable Q : Path.t -> Prop.
Hypothesis I_successor :
  forall st st', I st -> successor o graph segments st st' -> I st'.
Hypothesis I_emits :
  forall st p, I st -> emits o graph segments st p -> Q p.

Lemma bfsLoop_invariant (fuel : nat) :
  forall queue results,
    Forall I queue -> Forall Q results ->
    Forall Q (bfsLoop o graph segments fuel queue results).
Proof.
  induction fuel as [| fuel IH]; intros queue results Hq Hr.
  - destruct queue; simpl; [assumption |].
    destruct (Nat.ltb _ _); assumption.
  - destruct queue as [| st rest]; simpl; [assumption |].
    destruct (Nat.ltb _ _); [| assumption].
    destruct (processState o graph segments st results rest)
      as [results' queue'] eqn:Hp.
    apply processState_spec in Hp.
    destruct Hp as [(ps & -> & Hps) (qs & -> & Hqs)].
    apply Forall_cons in Hq. destruct Hq as [Hst Hrest].
    assert (Hr' : Forall Q (results ++ ps)).
    { apply Forall_app. split; [assumption |].
      eapply Forall_impl; [exact Hps |]. intros p Hp. eapply I_emits; eauto. }
    destruct (Nat.leb _ _); [assumption |].
    apply IH; [| assumption].
    apply Forall_app. split; [assumption |].
    eapply Forall_impl; [exact Hqs |]. intros st' Hs. eapply I_successor; eauto.
Qed.

Lemma bfsFold_invariant (fuel : nat) (initialNodes : list Node.t) :
  (forall startNode, In startNode initialNodes -> I (initialState startNode)) ->
  forall results,
    Forall Q results ->
    Forall Q (fold_left (fun results startNode =>
                           bfsLoop o graph segments fuel [initialState startNode] results)
                        initialNodes results).
Proof.
  induction initialNodes as [| startNode rest IH]; intros Hinit results Hr;
    cbn [fold_left].
  - assumption.
  - apply IH.
    + intros n Hn. apply Hinit. right. assumption.
    + apply bfsLoop_invariant; [| assumption].
      constructor; [| constructor]. apply Hinit. left. reflexivity.
Qed.

Lemma bfsResults_invariant (initialNodes : list Node.t) :
  (forall startNode, In startNode initialNodes -> I (initialState startNode)) ->
  Forall Q (bfsResults o graph segments initialNodes).
Proof.
  intros Hinit. unfold bfsResults.
  apply bfsFold_invariant; [assumption | constructor].
Qed.
End Invariant.
End SearchFacts.

(** ** The search: invariants of the queued states *)

Section SearchInvariants.
Context `{JSBuiltins}.
Variable o : Options.
Variable graph : Graph.t.
Variable segments : list Segment.t.

(** *** The cycle check *)

Lemma visitedInvariant_initial (startNode : Node.t) :
  visitedInvariant (initialState startNode).
Proof.
  split; simpl.
  - apply NoDup_singleton.
  - intros i. rewrite elem_of_singleton. intuition.
Qed.

Lemma visitedInvariant_extend (st : QueueState) (edge : Edge.t) (neighborNode : Node.t)
      (idx hops : nat) :
  visitedInvariant st ->
  Node.id neighborNode ∉ visitedInPath st ->
  visitedInvariant
    {| currentNode := neighborNode;
       currentPath := extendPath (currentPath st) edge neighborNode;
       segmentIdx := idx;
       varHopCount := hops;
       visitedInPath := {[Node.id neighborNode]} ∪ visitedInPath st |}.
Proof.
  intros [Hnd Hvis] Hfresh. split; simpl; rewrite map_app; simpl.
  - apply NoDup_app. repeat split.
    + exact Hnd.
    + intros i Hi Hi'. apply list_elem_of_In in Hi.
      apply list_elem_of_singleton in Hi'. subst i.
      apply Hfresh. apply Hvis. exact Hi.
    + apply NoDup_singleton.
  - intros i. rewrite elem_of_union, elem_of_singleton, in_app_iff, Hvis.
    simpl. intuition.
Qed.

Lemma visitedInvariant_successor (st st' : QueueState) :
  visitedInvariant st -> successor o graph segments st st' -> visitedInvariant st'.
Proof.
  intros Hinv Hs.
  destruct Hs as [s e n _ _ _ Hfresh -> | s e n _ _ _ _ Hfresh ->];
    apply visitedInvariant_extend; assumption.
Qed.

Lemma visitedInvariant_emits (st : QueueState) (p : Path.t) :
  visitedInvariant st -> emits o graph segments st p -> distinctButLast p.
Proof.
  intros [Hnd _] He. destruct He as [s e n _ _ _ _ ->].
  unfold distinctButLast, extendPath. simpl.
  rewrite removelast_last. exact Hnd.
Qed.

(** *** The hop bounds *)

Lemma hopsInvariant_initial (startNode : Node.t) :
  hopsInvariant o segments (initialState startNode).
Proof.
  split; [| left; reflexivity].
  exists [], []. simpl. rewrite take_0. repeat split; constructor.
Qed.

(** The checks of an edge that do not look at the end nodes. *)
Lemma matchesRelationshipPattern_no_nodes (edge : Edge.t) (pattern : RelationshipPattern.t)
      (sourceNode targetNode : option Node.t) :
  matchesRelationshipPattern o edge pattern sourceNode targetNode = true ->
  matchesRelationshipPattern o edge pattern None None = true.
Proof.
  unfold matchesRelationshipPattern.
  destruct (match RelationshipPattern.type pattern with
            | Some ty => truthy ty && negb (typeMatches o (Edge.label edge) ty)
            | None => false
            end); [discriminate |].
  destruct (match sourceNode, targetNode with
            | Some s, Some t => _
            | _, _ => false
            end); [discriminate |].
  destruct sourceNode, targetNode; auto.
Qed.

Lemma hop_edgeFits (st : QueueState) (s : Segment.t) (edge : Edge.t) (n : Node.t) :
  hop o graph segments st s edge n -> edgeFits o s edge.
Proof.
  intros Hhop. unfold edgeFits.
  eapply matchesRelationshipPattern_no_nodes. apply (hop_relationship _ _ _ _ _ _ _ Hhop).
Qed.

(** The hop that follows a queued state stays within the bounds of the
    segment the state works on. *)
Lemma hopsOK_next (st : QueueState) (s : Segment.t) :
  hopsInvariant o segments st ->
  segments !! segmentIdx st = Some s ->
  minHopsOf (Segment.relationship s) <= varHopCount st + 1 ->
  hopsOK (varHopCount st + 1) s.
Proof.
  intros [_ Hvar] Hseg Hmin. unfold hopsOK. repeat split.
  - lia.
  - exact Hmin.
  - intros Hfixed. destruct Hvar as [-> | (s' & Hs' & Hv & _)]; [reflexivity |].
    congruence.
  - intros h Hh Hpos. destruct Hvar as [-> | (s' & Hs' & _ & Hlt)]; [simpl; lia |].
    assert (s' = s) by congruence. subst s'.
    unfold maxHopsTraversal in Hlt. rewrite Hh in Hlt. lia.
Qed.

(** The run a hop closes: the edges spent on the segment, then the edge
    of the hop. *)
Lemma runOK_closed (st : QueueState) (s : Segment.t) (edge : Edge.t) (n : Node.t)
      (cur : list Edge.t) :
  hopsInvariant o segments st ->
  hop o graph segments st s edge n ->
  minHopsOf (Segment.relationship s) <= varHopCount st + 1 ->
  length cur = varHopCount st ->
  Forall (edgeFits o s) cur ->
  runOK o (cur ++ [edge]) s.
Proof.
  intros Hinv Hhop Hmin Hlen Hcur. split.
  - rewrite length_app, Hlen. simpl.
    apply hopsOK_next; [assumption | apply (hop_segment _ _ _ _ _ _ _ Hhop) | assumption].
  - apply Forall_app. split; [assumption |].
    constructor; [| constructor]. eapply hop_edgeFits. exact Hhop.
Qed.

Lemma hopsInvariant_successor (st st' : QueueState) :
  hopsInvariant o segments st -> successor o graph segments st st' ->
  hopsInvariant o segments st'.
Proof.
  intros Hinv Hs.
  destruct Hs as [s e n Hhop Hv Hlt _ -> | s e n Hhop Hmin _ Hnext _ ->].
  - pose proof (hop_segment _ _ _ _ _ _ _ Hhop) as Hseg.
    destruct Hinv as [(runs & cur & Hedges & Hlen & Hok & Hcur) _]. split; simpl.
    + exists runs, (cur ++ [e]). rewrite Hedges, length_app, app_assoc. simpl.
      repeat split; [lia | assumption |].
      intros s' Hs'. assert (s' = s) by congruence. subst s'.
      apply Forall_app. split; [apply Hcur; assumption |].
      constructor; [| constructor]. eapply hop_edgeFits. exact Hhop.
    + right. exists s. repeat split; [assumption | assumption | lia].
  - pose proof (hop_segment _ _ _ _ _ _ _ Hhop) as Hseg.
    pose proof Hinv as [(runs & cur & Hedges & Hlen & Hok & Hcur) _].
    pose proof (runOK_closed st s e n cur Hinv Hhop Hmin Hlen (Hcur s Hseg)) as Hrun.
    split; simpl; [| left; reflexivity].
    exists (runs ++ [cur ++ [e]]), [].
    rewrite Hedges, concat_app. simpl. rewrite !app_nil_r, app_assoc.
    repeat split.
    + replace (segmentIdx st + 1) with (S (segmentIdx st)) by lia.
      erewrite take_S_r by exact Hseg.
      apply Forall2_app; [assumption |]. constructor; [assumption | constructor].
    + intros s' _. constructor.
Qed.

Lemma hopsInvariant_emits (st : QueueState) (p : Path.t) :
  hopsInvariant o segments st -> emits o graph segments st p ->
  length (Path.edges p) <= maxPathDepth o /\ exists runs, runSplit o runs segments p.
Proof.
  intros Hinv He. destruct He as [s e n Hhop Hfinal Hmin _ ->].
  pose proof (hop_segment _ _ _ _ _ _ _ Hhop) as Hseg.
  pose proof (hop_depth _ _ _ _ _ _ _ Hhop) as Hdepth.
  pose proof Hinv as [(runs & cur & Hedges & Hlen & Hok & Hcur) _].
  pose proof (runOK_closed st s e n cur Hinv Hhop Hmin Hlen (Hcur s Hseg)) as Hrun.
  simpl. rewrite length_app. simpl. split; [lia |].
  exists (runs ++ [cur ++ [e]]).
  assert (Hlt : segmentIdx st < length segments)
    by (apply lookup_lt_is_Some; eauto).
  assert (Hsegs : segments = take (segmentIdx st) segments ++ [s]).
  { rewrite <- (take_S_r _ _ _ Hseg). symmetry. apply take_ge. lia. }
  split; simpl.
  - rewrite Hedges, concat_app. simpl. rewrite app_nil_r, app_assoc. reflexivity.
  - rewrite Hsegs.
    apply Forall2_app; [assumption |]. constructor; [assumption | constructor].
Qed.

(** *** The result limit *)

Lemma pushResult_length (results : list Path.t) (p : Path.t) :
  length results <= maxPathResults o ->
  length (pushResult o results p) <= maxPathResults o.
Proof.
  intros Hle. destruct (pushResult_cases o results p) as [[-> Hlt] | [-> _]];
    [rewrite length_app; simpl; lia | assumption].
Qed.

Lemma edgeStep_length (st : QueueState) (currentSegment : Segment.t) (edge : Edge.t)
      (results : list Path.t) (queue : list QueueState) :
  length results <= maxPathResults o ->
  length (fst (snd (edgeStep o graph segments st currentSegment edge results queue)))
  <= maxPathResults o.
Proof.
  intros Hle. unfold edgeStep.
  pose proof (pushResult_length results) as Hpush.
  repeat match goal with
         | |- context [match ?x with _ => _ end] =>
             match x with
             | context [match _ with _ => _ end] => fail 1
             | _ => destruct x eqn:?
             end
         end; simpl; auto.
Qed.
End SearchInvariants.

(** ** The result limit *)

Section ResultLimit.
Context `{JSBuiltins}.
Variable o : Options.
Variable graph : Graph.t.
Variable segments : list Segment.t.

Lemma edgeLoop_length (st : QueueState) (currentSegment : Segment.t)
      (candidateEdges : list Edge.t) :
  forall results queue,
    length results <= maxPathResults o ->
    length (fst (edgeLoop o graph segments st currentSegment candidateEdges results queue))
    <= maxPathResults o.
Proof.
  induction candidateEdges as [| edge rest IH]; intros results queue Hle; simpl.
  - assumption.
  - pose proof (edgeStep_length o graph segments st currentSegment edge results queue Hle)
      as Hstep.
    destruct (edgeStep o graph segments st currentSegment edge results queue)
      as [[|] [results1 queue1]]; simpl in *; auto.
Qed.

Lemma processState_length (st : QueueState) (results : list Path.t)
      (queue : list QueueState) :
  length results <= maxPathResults o ->
  length (fst (processState o graph segments st results queue)) <= maxPathResults o.
Proof.
  intros Hle. unfold processState.
  destruct (segments !! segmentIdx st); [| assumption].
  destruct (Nat.leb _ _); [assumption |].
  apply edgeLoop_length. assumption.
Qed.

Lemma bfsLoop_length (fuel : nat) :
  forall queue results,
    length results <= maxPathResults o ->
    length (bfsLoop o graph segments fuel queue results) <= maxPathResults o.
Proof.
  induction fuel as [| fuel IH]; intros queue results Hle.
  - destruct queue; simpl; [assumption |]. destruct (Nat.ltb _ _); assumption.
  - destruct queue as [| st rest]; simpl; [assumption |].
    destruct (Nat.ltb _ _); [| assumption].
    pose proof (processState_length st results rest Hle) as Hp.
    destruct (processState o graph segments st results rest) as [results' queue'].
    simpl in Hp. destruct (Nat.leb _ _); [assumption |].
    apply IH. assumption.
Qed.

Lemma bfsFold_length (fuel : nat) (initialNodes : list Node.t) :
  forall results,
    length results <= maxPathResults o ->
    length (fold_left (fun results startNode =>
                         bfsLoop o graph segments fuel [initialState startNode] results)
                      initialNodes results)
    <= maxPathResults o.
Proof.
  induction initialNodes as [| startNode rest IH]; intros results Hle; cbn [fold_left].
  - assumption.
  - apply IH. apply bfsLoop_length. assumption.
Qed.

Lemma bfsResults_length (initialNodes : list Node.t) :
  length (bfsResults o graph segments initialNodes) <= maxPathResults o.
Proof. unfold bfsResults. apply bfsFold_length. simpl. lia. Qed.
End ResultLimit.

(** ** Deduplication *)

Section Dedup.

Lemma mapHas_true (um : list (string * Path.t)) (k : string) :
  mapHas um k = true <-> k ∈ List.map fst um.
Proof.
  unfold mapHas. rewrite existsb_exists, list_elem_of_In, in_map_iff.
  split.
  - intros (kv & Hin & Heq). apply String.eqb_eq in Heq. eauto.
  - intros (kv & Heq & Hin). exists kv. split; [assumption |].
    apply String.eqb_eq. assumption.
Qed.

Lemma mapHas_false (um : list (string * Path.t)) (k : string) :
  mapHas um k = false <-> k ∉ List.map fst um.
Proof.
  rewrite <- mapHas_true. destruct (mapHas um k); split; congruence.
Qed.

(** What the deduplication loop adds to the map [um]: the paths of
    [results] whose key is neither in [um] nor carried by an earlier path
    of [results], in the order of [results]. *)
Lemma dedup_fold (results : list Path.t) :
  forall um,
    NoDup (List.map fst um) ->
    exists ext,
      fold_left dedupStep results um = um ++ List.map (fun p => (pathToString p, p)) ext
      /\ NoDup (List.map fst um ++ List.map pathToString ext)
      /\ sublist ext results
      /\ (forall p, p ∈ results ->
            pathToString p ∈ List.map fst um ++ List.map pathToString ext)
      /\ (forall p, p ∈ ext ->
            exists l1 l2, results = l1 ++ p :: l2
                          /\ pathToString p ∉ List.map pathToString l1).
Proof.
  induction results as [| path rest IH]; intros um Hnd.
  - exists []. simpl. rewrite !app_nil_r. repeat split; auto.
    + intros p Hp. inversion Hp.
    + intros p Hp. inversion Hp.
  - cbn [fold_left]. unfold dedupStep at 2.
    destruct (mapHas um (pathToString path)) eqn:Hhas; cbn [negb].
    + apply mapHas_true in Hhas.
      destruct (IH um Hnd) as (ext & Heq & Hnd' & Hsub & Hall & Hfirst).
      exists ext. repeat split; auto.
      * apply sublist_cons. assumption.
      * intros p Hp. apply elem_of_cons in Hp. destruct Hp as [-> | Hp]; [| auto].
        apply elem_of_app. left. assumption.
      * intros p Hp. destruct (Hfirst p Hp) as (l1 & l2 & -> & Hnot).
        assert (Hne : pathToString p <> pathToString path).
        { intros Heq'. rewrite <- Heq' in Hhas.
          apply NoDup_app in Hnd'. destruct Hnd' as (_ & Hdisj & _).
          apply (Hdisj _ Hhas). apply list_elem_of_In. apply in_map.
          apply list_elem_of_In. assumption. }
        exists (path :: l1), l2. split; [reflexivity |].
        simpl. rewrite not_elem_of_cons. auto.
    + apply mapHas_false in Hhas.
      assert (Hnd1 : NoDup (List.map fst (um ++ [(pathToString path, path)]))).
      { rewrite map_app. simpl. apply NoDup_app. repeat split; auto.
        - intros k Hk Hk'. apply list_elem_of_singleton in Hk'. subst k. auto.
        - apply NoDup_singleton. }
      destruct (IH _ Hnd1) as (ext & Heq & Hnd' & Hsub & Hall & Hfirst).
      rewrite map_app in Hnd', Hall. simpl in Hnd', Hall.
      rewrite <- app_assoc in Hnd', Hall. simpl in Hnd', Hall.
      exists (path :: ext). repeat split.
      * rewrite Heq, <- app_assoc. reflexivity.
      * exact Hnd'.
      * apply sublist_skip. assumption.
      * intros p Hp. apply elem_of_cons in Hp. destruct Hp as [-> | Hp]; [| auto].
        apply elem_of_app. right. simpl. apply elem_of_cons. left. reflexivity.
      * intros p Hp. apply elem_of_cons in Hp. destruct Hp as [-> | Hp].
        -- exists [], rest. split; [reflexivity |]. simpl. apply not_elem_of_nil.
        -- destruct (Hfirst p Hp) as (l1 & l2 & -> & Hnot).
           assert (Hne : pathToString p <> pathToString path).
           { intros Heq'. apply NoDup_app in Hnd'. destruct Hnd' as (_ & _ & Hnd').
             simpl in Hnd'. apply NoDup_cons in Hnd'. destruct Hnd' as [Hnotin _].
             apply Hnotin. rewrite <- Heq'. apply list_elem_of_In. apply in_map.
             apply list_elem_of_In. assumption. }
           exists (path :: l1), l2. split; [reflexivity |].
           simpl. rewrite not_elem_of_cons. auto.
Qed.

Lemma uniqueResults_spec (results : list Path.t) :
  NoDup (List.map pathToString (uniqueResults results))
  /\ sublist (uniqueResults results) results
  /\ (forall p, p ∈ results ->
        pathToString p ∈ List.map pathToString (uniqueResults results))
  /\ (forall p, p ∈ uniqueResults results ->
        exists l1 l2, results = l1 ++ p :: l2
                      /\ pathToString p ∉ List.map pathToString l1).
Proof.
  unfold uniqueResults.
  destruct (dedup_fold results [] (NoDup_nil_2)) as (ext & Heq & Hnd & Hsub & Hall & Hfirst).
  rewrite Heq. simpl in *.
  assert (Hsnd : List.map snd (List.map (fun p => (pathToString p, p)) ext) = ext).
  { rewrite List.map_map. simpl. apply List.map_id. }
  rewrite Hsnd. auto.
Qed.

Lemma uniqueResults_length (results : list Path.t) :
  length (uniqueResults results) <= length results.
Proof. apply sublist_length. apply uniqueResults_spec. Qed.

Lemma uniqueResults_Forall (Q : Path.t -> Prop) (results : list Path.t) :
  Forall Q results -> Forall Q (uniqueResults results).
Proof.
  intros Hq. rewrite Forall_forall in Hq |- *.
  intros p Hp. apply Hq. eapply elem_of_sublist; [exact Hp |].
  apply uniqueResults_spec.
Qed.
End Dedup.

(** ** Returned paths *)

Section PathFacts.
Context `{JSBuiltins}.

Lemma findMatchingPaths_fst (m : PatternMatcher) (graph : Graph.t)
      (pattern : PathPattern.t) :
  fst (findMatchingPaths m graph pattern)
  = match PathPattern.segments pattern with
    | [] => List.map singlePath (fst (initialNodesOf m graph pattern))
    | _ :: _ =>
        uniqueResults (bfsResults (options m) graph (PathPattern.segments pattern)
                                  (fst (initialNodesOf m graph pattern)))
    end.
Proof.
  unfold findMatchingPaths.
  destruct (initialNodesOf m graph pattern) as [initialNodes m'].
  destruct (PathPattern.segments pattern); reflexivity.
Qed.

(** A property of the single-node paths and of the results of the search
    holds of every returned path. *)
Lemma findMatchingPaths_Forall (Q : Path.t -> Prop) (m : PatternMatcher)
      (graph : Graph.t) (pattern : PathPattern.t) :
  (PathPattern.segments pattern = [] -> forall node, Q (singlePath node)) ->
  (forall initialNodes,
      Forall Q (bfsResults (options m) graph (PathPattern.segments pattern) initialNodes)) ->
  Forall Q (fst (findMatchingPaths m graph pattern)).
Proof.
  intros Hsingle Hbfs. rewrite findMatchingPaths_fst.
  destruct (PathPattern.segments pattern) eqn:Hsegs.
  - apply Forall_forall. intros p Hp. apply list_elem_of_In, in_map_iff in Hp.
    destruct Hp as (node & <- & _). apply Hsingle. reflexivity.
  - apply uniqueResults_Forall. apply Hbfs.
Qed.

Lemma findMatchingPaths_runSplit (m : PatternMatcher) (graph : Graph.t)
      (pattern : PathPattern.t) :
  Forall (fun p => length (Path.edges p) <= maxPathDepth (options m)
                   /\ exists runs,
                        runSplit (options m) runs (PathPattern.segments pattern) p)
         (fst (findMatchingPaths m graph pattern)).
Proof.
  apply findMatchingPaths_Forall.
  - intros Hsegs node. simpl. split; [lia |].
    exists []. rewrite Hsegs. split; [reflexivity | constructor].
  - intros initialNodes.
    apply (bfsResults_invariant _ _ _
             (hopsInvariant (options m) (PathPattern.segments pattern))).
    + apply hopsInvariant_successor.
    + apply hopsInvariant_emits.
    + intros startNode _. apply hopsInvariant_initial.
Qed.

Lemma isVariable_false_iff (r : RelationshipPattern.t) :
  isVariable r = false
  <-> minHopsOf r = 1 /\ RelationshipPattern.maxHops r = Some 1.
Proof.
  unfold isVariable. rewrite negb_false_iff, andb_true_iff, Nat.eqb_eq.
  destruct (RelationshipPattern.maxHops r) as [h |].
  - rewrite Nat.eqb_eq. split; intros [? ?]; split; congruence.
  - split; intros [? ?]; discriminate.
Qed.

(** C1, as the code has it.  The cycle check guards the queue, not the
    results: on every returned path the nodes before the last are pairwise
    distinct, and the last node may be one of them. *)
Theorem findMatchingPaths_nodes_distinct_but_last (m : PatternMatcher)
        (graph : Graph.t) (pattern : PathPattern.t) :
  Forall (fun p => NoDup (List.map Node.id (removelast (Path.nodes p))))
         (fst (findMatchingPaths m graph pattern)).
Proof.
  apply (findMatchingPaths_Forall distinctButLast).
  - intros _ node. unfold distinctButLast. simpl. apply NoDup_nil_2.
  - intros initialNodes.
    apply (bfsResults_invariant _ _ _ visitedInvariant).
    + apply visitedInvariant_successor.
    + apply visitedInvariant_emits.
    + intros startNode _. apply visitedInvariant_initial.
Qed.

(** C2, as the code has it.  A segment is fixed-length exactly when
    [minHops ?? 1] is 1 and [maxHops] is given and is 1; a segment whose
    [maxHops] is not given is variable-length.  On every returned path
    the edges split into one run per segment, made of edges that pass the
    segment's relationship checks, and the run of a fixed-length segment
    is a single edge. *)
Theorem isVariable_unless_one_to_one (m : PatternMatcher) (graph : Graph.t)
        (pattern : PathPattern.t) :
  (forall r, isVariable r = false
             <-> nullish (RelationshipPattern.minHops r) 1 = 1
                 /\ RelationshipPattern.maxHops r = Some 1)
  /\ (forall r, RelationshipPattern.maxHops r = None -> isVariable r = true)
  /\ Forall (fun p =>
               exists runs,
                 concat runs = Path.edges p
                 /\ Forall2 (fun run s =>
                               1 <= length run
                               /\ Forall (edgeFits (options m) s) run
                               /\ (isVariable (Segment.relationship s) = false ->
                                   length run = 1))
                            runs (PathPattern.segments pattern))
            (fst (findMatchingPaths m graph pattern)).
Proof.
  split; [apply isVariable_false_iff | split].
  - intros r Hr. unfold isVariable. rewrite Hr, andb_false_r. reflexivity.
  - eapply Forall_impl; [apply findMatchingPaths_runSplit |].
    intros p [_ (runs & Hcat & Hok)]. exists runs.
    split; [assumption |].
    eapply Forall2_impl; [exact Hok |].
    intros run s [(H1 & _ & Hfix & _) Hfits]. auto.
Qed.

(** C5, as the code has it.  When every relationship pattern carries
    [maxHops = h] with [h >= 1], the edges of every returned path split
    into one run per segment, made of edges that pass the segment's
    relationship checks, of at least one and at most [h] edges each, and
    the path has at most [maxPathDepth] edges. *)
Theorem findMatchingPaths_hop_bounds (m : PatternMatcher) (graph : Graph.t)
        (pattern : PathPattern.t) (h : nat) :
  1 <= h ->
  (forall s, In s (PathPattern.segments pattern) ->
             RelationshipPattern.maxHops (Segment.relationship s) = Some h) ->
  Forall (fun p =>
            (exists runs,
                concat runs = Path.edges p
                /\ Forall2 (fun run s =>
                              1 <= length run <= h
                              /\ Forall (edgeFits (options m) s) run)
                           runs (PathPattern.segments pattern))
            /\ length (Path.edges p) <= maxPathDepth (options m))
         (fst (findMatchingPaths m graph pattern)).
Proof.
  intros Hh Hall.
  eapply Forall_impl; [apply findMatchingPaths_runSplit |].
  intros p [Hdepth (runs & Hcat & Hok)].
  split; [| assumption]. exists runs. split; [assumption |].
  revert Hall. clear -Hok Hh.
  induction Hok as [| run s runs segs Hrun Hrest IH]; intros Hall; constructor.
  - destruct Hrun as [(H1 & _ & _ & Hmax) Hfits]. split; [| assumption].
    split; [assumption |].
    apply Hmax; [| assumption]. apply Hall. left. reflexivity.
  - apply IH. intros s' Hs'. apply Hall. right. assumption.
Qed.

(** C6, as the code has it.  For a pattern with at least one segment
    [findMatchingPaths] returns at most [maxPathResults] paths, and the
    limit is 1000 when the option is not supplied. *)
Theorem findMatchingPaths_result_limit (m : PatternMatcher) (graph : Graph.t)
        (pattern : PathPattern.t) :
  PathPattern.segments pattern <> [] ->
  length (fst (findMatchingPaths m graph pattern)) <= maxPathResults (options m)
  /\ (forall c t d,
         maxPathResults (options (newPatternMatcher (mkOptionsArg c t d None))) = 1000).
Proof.
  intros Hsegs. split.
  - rewrite findMatchingPaths_fst.
    destruct (PathPattern.segments pattern) as [| s rest]; [congruence |].
    etransitivity; [apply uniqueResults_length | apply bfsResults_length].
  - reflexivity.
Qed.
End PathFacts.

(** ** Deduplication of the returned paths *)

Section DedupFacts.
Context `{JSBuiltins}.

Lemma NoDup_map_inj {A B : Type} (f : A -> B) (l : list A) :
  (forall x y, f x = f y -> x = y) -> NoDup l -> NoDup (List.map f l).
Proof.
  intros Hinj. induction 1 as [| x l Hx Hnd IH]; simpl.
  - apply NoDup_nil_2.
  - apply NoDup_cons_2; [| assumption].
    intros Hin. apply list_elem_of_In, in_map_iff in Hin.
    destruct Hin as (y & Heq & Hy). apply Hinj in Heq. subst y.
    apply Hx. apply list_elem_of_In. assumption.
Qed.

Lemma filter_NoDup_ids (f : Node.t -> bool) (l : list Node.t) :
  NoDup (List.map Node.id l) -> NoDup (List.map Node.id (List.filter f l)).
Proof.
  induction l as [| n l IH]; simpl; intros Hnd; [assumption |].
  apply NoDup_cons in Hnd. destruct Hnd as [Hn Hnd].
  destruct (f n); simpl; [| auto].
  apply NoDup_cons_2; [| auto].
  intros Hin. apply Hn. apply list_elem_of_In, in_map_iff in Hin.
  destruct Hin as (n' & Heq & Hn'). apply filter_In in Hn'. destruct Hn' as [Hn' _].
  apply list_elem_of_In, in_map_iff. eauto.
Qed.

Lemma nodesOfIds_cons (graph : Graph.t) (i : NodeId) (nodeIds : list NodeId) :
  nodesOfIds graph (i :: nodeIds)
  = match Graph.getNode graph i with
    | Some node => node :: nodesOfIds graph nodeIds
    | None => nodesOfIds graph nodeIds
    end.
Proof. reflexivity. Qed.

Lemma nodesOfIds_NoDup (graph : Graph.t) (nodeIds : list NodeId) :
  NoDup nodeIds -> NoDup (List.map Node.id (nodesOfIds graph nodeIds)).
Proof.
  induction 1 as [| i nodeIds Hi Hnd IH].
  - apply NoDup_nil_2.
  - rewrite nodesOfIds_cons.
    destruct (Graph.getNode graph i) as [node |] eqn:Hget; [| assumption].
    apply getNode_Some in Hget. destruct Hget as [_ Hid].
    simpl. apply NoDup_cons_2; [| assumption].
    intros Hin. apply Hi. apply list_elem_of_In, in_map_iff in Hin.
    destruct Hin as (n' & Heq & Hn'). apply nodesOfIds_In in Hn'.
    destruct Hn' as [_ Hn']. apply list_elem_of_In. congruence.
Qed.

Lemma getNodesByLabel_NoDup (m : PatternMatcher) (graph : Graph.t) (label : string) :
  NoDup (List.map Node.id (Graph.nodes graph)) ->
  labelCacheNoDup m ->
  NoDup (List.map Node.id (fst (getNodesByLabel m graph label))).
Proof.
  intros Hg Hc. unfold getNodesByLabel.
  destruct (labelCache m !! normalizeLabel (options m) label) as [nodeIds |] eqn:Hl; simpl.
  - apply nodesOfIds_NoDup. eapply Hc. exact Hl.
  - apply nodesOfIds_NoDup. apply filter_NoDup_ids. assumption.
Qed.

Lemma findMatchingNodes_NoDup (m : PatternMatcher) (graph : Graph.t)
      (pattern : NodePattern.t) :
  NoDup (List.map Node.id (Graph.nodes graph)) ->
  labelCacheNoDup m ->
  NoDup (List.map Node.id (fst (findMatchingNodes m graph pattern))).
Proof.
  intros Hg Hc. unfold findMatchingNodes.
  destruct (NodePattern.labels pattern) as [| label0 rest]; simpl.
  - apply filter_NoDup_ids. assumption.
  - pose proof (getNodesByLabel_NoDup m graph label0 Hg Hc) as Hnd.
    destruct (getNodesByLabel m graph label0) as [labeledNodes m']. simpl in *.
    apply filter_NoDup_ids. assumption.
Qed.

Lemma initialNodesOf_NoDup (m : PatternMatcher) (graph : Graph.t)
      (pattern : PathPattern.t) :
  NoDup (List.map Node.id (Graph.nodes graph)) ->
  labelCacheNoDup m ->
  NoDup (List.map Node.id (fst (initialNodesOf m graph pattern))).
Proof.
  intros Hg Hc. unfold initialNodesOf.
  pose proof (findMatchingNodes_NoDup m graph (PathPattern.start pattern) Hg Hc) as Hnd.
  destruct (findMatchingNodes m graph (PathPattern.start pattern)) as [initialNodes m'].
  simpl in *.
  destruct (NodePattern.properties (PathPattern.start pattern) !! "id");
    [apply filter_NoDup_ids |]; assumption.
Qed.

Lemma append_bar_inj (s1 s2 : string) :
  (s1 ++ "|")%string = (s2 ++ "|")%string -> s1 = s2.
Proof.
  revert s2. induction s1 as [| a s1 IH]; intros [| b s2]; simpl; intros Heq.
  - reflexivity.
  - destruct s2; discriminate.
  - destruct s1; discriminate.
  - injection Heq as -> Heq. f_equal. apply IH. assumption.
Qed.

Lemma pathToString_singlePath (node : Node.t) :
  pathToString (singlePath node) = (Node.id node ++ "|")%string.
Proof. reflexivity. Qed.

Lemma findMatchingPaths_keys_NoDup_no_segments (m : PatternMatcher) (graph : Graph.t)
      (pattern : PathPattern.t) :
  PathPattern.segments pattern = [] ->
  NoDup (List.map Node.id (Graph.nodes graph)) ->
  labelCacheNoDup m ->
  NoDup (List.map pathToString (fst (findMatchingPaths m graph pattern))).
Proof.
  intros Hsegs Hg Hc. rewrite findMatchingPaths_fst, Hsegs.
  rewrite List.map_map.
  rewrite (List.map_ext _ (fun node => (fun i => (i ++ "|")%string) (Node.id node)))
    by (intros node; apply pathToString_singlePath).
  rewrite <- (List.map_map Node.id (fun i => (i ++ "|")%string)).
  apply NoDup_map_inj; [apply append_bar_inj |].
  apply initialNodesOf_NoDup; assumption.
Qed.

(** C7.  No two returned paths have the same canonical string (for a
    pattern without segments this rests on the node ids of the graph
    being unique and on the label cache listing no id twice).  For a
    pattern with segments the returned list is the list the search
    produced with, for each canonical string, only its first path kept:
    it is a sub-list of the produced list in the same order, it has every
    canonical string of the produced list, and nothing before a kept path
    in the produced list has its canonical string. *)
Theorem findMatchingPaths_deduplicated (m : PatternMatcher) (graph : Graph.t)
        (pattern : PathPattern.t) :
  (PathPattern.segments pattern <> []
   \/ (NoDup (List.map Node.id (Graph.nodes graph)) /\ labelCacheNoDup m)) ->
  let returned := fst (findMatchingPaths m graph pattern) in
  let produced := bfsResults (options m) graph (PathPattern.segments pattern)
                             (fst (initialNodesOf m graph pattern)) in
  NoDup (List.map pathToString returned)
  /\ (PathPattern.segments pattern <> [] ->
      sublist returned produced
      /\ (forall p, p ∈ produced ->
            pathToString p ∈ List.map pathToString returned)
      /\ (forall p, p ∈ returned ->
            exists l1 l2, produced = l1 ++ p :: l2
                          /\ pathToString p ∉ List.map pathToString l1)).
Proof.
  intros Hyp returned produced. subst returned produced.
  destruct (PathPattern.segments pattern) as [| s rest] eqn:Hsegs.
  - split; [| congruence].
    destruct Hyp as [Hne | [Hg Hc]]; [congruence |].
    apply findMatchingPaths_keys_NoDup_no_segments; assumption.
  - rewrite findMatchingPaths_fst, Hsegs.
    split; [apply uniqueResults_spec |]. intros _. apply uniqueResults_spec.
Qed.
End DedupFacts.

(** ** The label cache *)

Section CacheFacts.
Context `{JSBuiltins}.

Lemma labelCacheCoherent_empty (m : PatternMatcher) (graph : Graph.t) :
  labelCache m = ∅ -> labelCacheCoherent m graph.
Proof.
  intros He label nodeIds Hl. rewrite He, lookup_empty in Hl. discriminate.
Qed.

Lemma labelCacheCoherent_clearCache (m : PatternMatcher) (graph : Graph.t) :
  labelCacheCoherent (clearCache m) graph.
Proof. apply labelCacheCoherent_empty. reflexivity. Qed.

(** With a coherent cache [getNodesByLabel] returns what a scan of the
    graph gives, whether the label is cached or not. *)
Lemma getNodesByLabel_coherent (m : PatternMatcher) (graph : Graph.t) (label : string) :
  labelCacheCoherent m graph ->
  fst (getNodesByLabel m graph label)
  = nodesOfIds graph
      (List.map Node.id
         (Graph.findNodes graph
            (fun node => labelMatches (options m) (getNodeLabels node) label))).
Proof.
  intros Hc. unfold getNodesByLabel.
  destruct (labelCache m !! normalizeLabel (options m) label) as [nodeIds |] eqn:Hl; simpl.
  - rewrite (Hc label nodeIds Hl). reflexivity.
  - reflexivity.
Qed.

Lemma getNodesByLabel_preserves_coherent (m : PatternMatcher) (graph : Graph.t)
      (label : string) :
  labelCacheCoherent m graph ->
  labelCacheCoherent (snd (getNodesByLabel m graph label)) graph.
Proof.
  intros Hc. unfold getNodesByLabel.
  destruct (labelCache m !! normalizeLabel (options m) label) as [nodeIds |] eqn:Hl; simpl.
  - exact Hc.
  - intros label' nodeIds'. unfold labelMatches. simpl.
    destruct (decide (normalizeLabel (options m) label
                      = normalizeLabel (options m) label')) as [Heq | Hne].
    + rewrite Heq, lookup_insert_eq. intros [= <-]. reflexivity.
    + rewrite lookup_insert_ne by assumption. apply Hc.
Qed.

Lemma findMatchingNodes_preserves_coherent (m : PatternMatcher) (graph : Graph.t)
      (pattern : NodePattern.t) :
  labelCacheCoherent m graph ->
  labelCacheCoherent (snd (findMatchingNodes m graph pattern)) graph.
Proof.
  intros Hc. unfold findMatchingNodes.
  destruct (NodePattern.labels pattern) as [| label0 rest]; [exact Hc |].
  pose proof (getNodesByLabel_preserves_coherent m graph label0 Hc) as Hc'.
  destruct (getNodesByLabel m graph label0). exact Hc'.
Qed.

Lemma findMatchingPaths_snd (m : PatternMatcher) (graph : Graph.t)
      (pattern : PathPattern.t) :
  snd (findMatchingPaths m graph pattern)
  = snd (findMatchingNodes m graph (PathPattern.start pattern)).
Proof.
  unfold findMatchingPaths, initialNodesOf.
  destruct (findMatchingNodes m graph (PathPattern.start pattern)).
  destruct (PathPattern.segments pattern); reflexivity.
Qed.

Lemma findMatchingPaths_preserves_coherent (m : PatternMatcher) (graph : Graph.t)
      (pattern : PathPattern.t) :
  labelCacheCoherent m graph ->
  labelCacheCoherent (snd (findMatchingPaths m graph pattern)) graph.
Proof.
  rewrite findMatchingPaths_snd. apply findMatchingNodes_preserves_coherent.
Qed.

Lemma findMatchingPaths_options (m : PatternMatcher) (graph : Graph.t)
      (pattern : PathPattern.t) :
  options (snd (findMatchingPaths m graph pattern)) = options m.
Proof. rewrite findMatchingPaths_snd. apply findMatchingNodes_options. Qed.

(** A matcher that was only queried on [graph] since it was created or
    cleared has a coherent cache. *)
Lemma cachesBuiltOn_coherent (graph : Graph.t) (m : PatternMatcher) :
  cachesBuiltOn graph m -> labelCacheCoherent m graph.
Proof.
  induction 1 as [a | m | m pattern _ IH | m pattern _ IH].
  - apply labelCacheCoherent_empty. reflexivity.
  - apply labelCacheCoherent_clearCache.
  - apply findMatchingNodes_preserves_coherent. assumption.
  - apply findMatchingPaths_preserves_coherent. assumption.
Qed.

(** Two matchers with the same options and coherent caches answer alike. *)
Lemma findMatchingNodes_coherent_eq (m m' : PatternMatcher) (graph : Graph.t)
      (pattern : NodePattern.t) :
  options m' = options m ->
  labelCacheCoherent m graph -> labelCacheCoherent m' graph ->
  fst (findMatchingNodes m' graph pattern) = fst (findMatchingNodes m graph pattern).
Proof.
  intros Ho Hc Hc'. unfold findMatchingNodes.
  destruct (NodePattern.labels pattern) as [| label0 rest].
  - simpl. rewrite Ho. reflexivity.
  - pose proof (getNodesByLabel_coherent m graph label0 Hc) as E.
    pose proof (getNodesByLabel_coherent m' graph label0 Hc') as E'.
    destruct (getNodesByLabel m graph label0) as [nodes1 m1].
    destruct (getNodesByLabel m' graph label0) as [nodes2 m2].
    simpl in *. rewrite E, E', Ho. reflexivity.
Qed.

Lemma initialNodesOf_coherent_eq (m m' : PatternMatcher) (graph : Graph.t)
      (pattern : PathPattern.t) :
  options m' = options m ->
  labelCacheCoherent m graph -> labelCacheCoherent m' graph ->
  fst (initialNodesOf m' graph pattern) = fst (initialNodesOf m graph pattern).
Proof.
  intros Ho Hc Hc'. unfold initialNodesOf.
  pose proof (findMatchingNodes_coherent_eq m m' graph (PathPattern.start pattern)
                Ho Hc Hc') as E.
  destruct (findMatchingNodes m graph (PathPattern.start pattern)).
  destruct (findMatchingNodes m' graph (PathPattern.start pattern)).
  simpl in *. rewrite E. reflexivity.
Qed.

Lemma findMatchingPaths_coherent_eq (m m' : PatternMatcher) (graph : Graph.t)
      (pattern : PathPattern.t) :
  options m' = options m ->
  labelCacheCoherent m graph -> labelCacheCoherent m' graph ->
  fst (findMatchingPaths m' graph pattern) = fst (findMatchingPaths m graph pattern).
Proof.
  intros Ho Hc Hc'. rewrite !findMatchingPaths_fst.
  rewrite (initialNodesOf_coherent_eq m m' graph pattern Ho Hc Hc'), Ho.
  reflexivity.
Qed.

(** C8, as the code has it.  When the label cache of the matcher is
    coherent with the graph at the first run (as for a matcher that is
    new, or was cleared after the graph last changed), a node query and a
    path query give, after [clearCache], the list they gave at the first
    run. *)
Theorem clearCache_same_results (m : PatternMatcher) (graph : Graph.t) :
  labelCacheCoherent m graph ->
  (forall pattern : NodePattern.t,
      fst (findMatchingNodes (clearCache (snd (findMatchingNodes m graph pattern)))
                             graph pattern)
      = fst (findMatchingNodes m graph pattern))
  /\ (forall pattern : PathPattern.t,
         fst (findMatchingPaths (clearCache (snd (findMatchingPaths m graph pattern)))
                                graph pattern)
         = fst (findMatchingPaths m graph pattern)).
Proof.
  intros Hc. split; intros pattern.
  - apply findMatchingNodes_coherent_eq.
    + simpl. apply findMatchingNodes_options.
    + assumption.
    + apply labelCacheCoherent_clearCache.
  - apply findMatchingPaths_coherent_eq.
    + simpl. apply findMatchingPaths_options.
    + assumption.
    + apply labelCacheCoherent_clearCache.
Qed.
End CacheFacts.

(** ** enrichPatternWithBindings on the store *)

Module HeapFacts.
Import Heap.

Ltac unfold_monad :=
  unfold readProps, readNodePattern, readSegment, readSegments, readPathPattern,
    read, alloc, write, fail, mbind, M_bind, bind, mret, M_ret, ret in *.

Lemma extends_refl (h : heap) : extends h h.
Proof. intros l o Hl. exact Hl. Qed.

Lemma extends_trans (h1 h2 h3 : heap) : extends h1 h2 -> extends h2 h3 -> extends h1 h3.
Proof. intros H12 H23 l o Hl. apply H23, H12, Hl. Qed.

Lemma extends_app (h ext : heap) : extends h (h ++ ext).
Proof. intros l o Hl. apply lookup_app_l_Some. exact Hl. Qed.

Lemma extends_length (h h' : heap) : extends h h' -> length h <= length h'.
Proof.
  intros He. destruct (Nat.le_gt_cases (length h) (length h')) as [Hle | Hgt]; [exact Hle |].
  destruct (lookup_lt_is_Some_2 h (length h')) as [o Ho]; [lia |].
  apply He in Ho. apply lookup_lt_Some in Ho. lia.
Qed.

(** Reading a pattern depends on the objects it reaches only. *)
Lemma lookupProps_extends (h h' : heap) (l : loc) (ps : gmap string Value) :
  extends h h' -> lookupProps h l = Some ps -> lookupProps h' l = Some ps.
Proof.
  unfold lookupProps. intros He.
  destruct (h !! l) as [[] |] eqn:Hl; try discriminate.
  rewrite (He _ _ Hl). auto.
Qed.

Lemma lookupLabels_extends (h h' : heap) (l : loc) (lbs : list string) :
  extends h h' -> lookupLabels h l = Some lbs -> lookupLabels h' l = Some lbs.
Proof.
  unfold lookupLabels. intros He.
  destruct (h !! l) as [[] |] eqn:Hl; try discriminate.
  rewrite (He _ _ Hl). auto.
Qed.

Lemma lookupNodePattern_extends (h h' : heap) (l : loc) (np : NodePattern.t) :
  extends h h' -> lookupNodePattern h l = Some np -> lookupNodePattern h' l = Some np.
Proof.
  unfold lookupNodePattern. intros He.
  destruct (h !! l) as [[| | v lb lp | | | |] |] eqn:Hl; try discriminate.
  rewrite (He _ _ Hl).
  destruct (lookupLabels h lb) as [lbs |] eqn:Hlb; [| discriminate].
  destruct (lookupProps h lp) as [ps |] eqn:Hlp; [| discriminate].
  rewrite (lookupLabels_extends _ _ _ _ He Hlb), (lookupProps_extends _ _ _ _ He Hlp).
  auto.
Qed.

Lemma lookupRel_extends (h h' : heap) (l : loc) (r : RelationshipPattern.t) :
  extends h h' -> lookupRel h l = Some r -> lookupRel h' l = Some r.
Proof.
  unfold lookupRel. intros He.
  destruct (h !! l) as [[| | | v ty lp d lo hi | | |] |] eqn:Hl; try discriminate.
  rewrite (He _ _ Hl).
  destruct (lookupProps h lp) as [ps |] eqn:Hlp; [| discriminate].
  rewrite (lookupProps_extends _ _ _ _ He Hlp). auto.
Qed.

Lemma lookupSegment_extends (h h' : heap) (l : loc) (s : Segment.t) :
  extends h h' -> lookupSegment h l = Some s -> lookupSegment h' l = Some s.
Proof.
  unfold lookupSegment. intros He.
  destruct (h !! l) as [[| | | | lr ln | |] |] eqn:Hl; try discriminate.
  rewrite (He _ _ Hl).
  destruct (lookupRel h lr) as [r |] eqn:Hr; [| discriminate].
  destruct (lookupNodePattern h ln) as [n |] eqn:Hn; [| discriminate].
  rewrite (lookupRel_extends _ _ _ _ He Hr), (lookupNodePattern_extends _ _ _ _ He Hn).
  auto.
Qed.

Lemma lookupAll_extends {A : Type} (f f' : loc -> option A) (ls : list loc) (xs : list A) :
  (forall l x, f l = Some x -> f' l = Some x) ->
  lookupAll f ls = Some xs -> lookupAll f' ls = Some xs.
Proof.
  intros Hf. revert xs. induction ls as [| l ls IH]; intros xs; simpl; [auto |].
  destruct (f l) as [a |] eqn:Hl; [| discriminate].
  destruct (lookupAll f ls) as [rest |]; [| discriminate].
  rewrite (Hf _ _ Hl), (IH rest eq_refl). auto.
Qed.

Lemma lookupPathPattern_extends (h h' : heap) (l : loc) (p : PathPattern.t) :
  extends h h' -> lookupPathPattern h l = Some p -> lookupPathPattern h' l = Some p.
Proof.
  unfold lookupPathPattern. intros He.
  destruct (h !! l) as [[| | | | | | ls la] |] eqn:Hl; try discriminate.
  rewrite (He _ _ Hl).
  destruct (lookupNodePattern h ls) as [s |] eqn:Hs; [| discriminate].
  destruct (h !! la) as [[| | | | | items |] |] eqn:Hla; try discriminate.
  destruct (lookupAll (lookupSegment h) items) as [segs |] eqn:Hsegs; [| discriminate].
  rewrite (lookupNodePattern_extends _ _ _ _ He Hs), (He _ _ Hla).
  rewrite (lookupAll_extends _ (lookupSegment h') _ _
             (fun l x => lookupSegment_extends h h' l x He) Hsegs).
  auto.
Qed.

(** *** The clone *)

Lemma lookupProps_Some (h : heap) (l : loc) (ps : gmap string Value) :
  lookupProps h l = Some ps <-> h !! l = Some (OProps ps).
Proof.
  unfold lookupProps. destruct (h !! l) as [[] |]; split; intros Heq;
    try discriminate; congruence.
Qed.

Lemma cloneProps_run (h : heap) (lp : loc) (ps : gmap string Value) :
  lookupProps h lp = Some ps ->
  cloneProps lp h = Some (length h, h ++ [OProps ps]).
Proof.
  intros Hp. apply lookupProps_Some in Hp.
  unfold cloneProps. unfold_monad. rewrite Hp. reflexivity.
Qed.

Lemma lookup_appended (h ext : heap) (k : nat) (o : obj) :
  ext !! k = Some o -> (h ++ ext) !! (length h + k) = Some o.
Proof. intros Hk. rewrite lookup_app_r by lia. rewrite <- Hk. f_equal. lia. Qed.

Lemma lookup_appended_0 (h ext : heap) (o : obj) :
  ext !! 0 = Some o -> (h ++ ext) !! length h = Some o.
Proof.
  intros Hk. replace (length h) with (length h + 0) by lia.
  apply lookup_appended. exact Hk.
Qed.

Lemma cloneNode_spec (h : heap) (ln : loc) (np : NodePattern.t) :
  lookupNodePattern h ln = Some np ->
  exists ln' ext,
    cloneNode ln h = Some (ln', h ++ ext)
    /\ lookupNodePattern (h ++ ext) ln' = Some np
    /\ length h <= ln' < length (h ++ ext).
Proof.
  unfold lookupNodePattern.
  destruct (h !! ln) as [[| | v lb lp | | | |] |] eqn:Hl; try discriminate.
  destruct (lookupLabels h lb) as [lbs |] eqn:Hlb; [| discriminate].
  destruct (lookupProps h lp) as [ps |] eqn:Hlp; [| discriminate].
  intros [= <-].
  exists (length h + 1), [OProps ps; ONodePattern v lb (length h)].
  split; [| split].
  - unfold cloneNode. unfold_monad. rewrite Hl.
    fold (cloneProps lp h). rewrite (cloneProps_run _ _ _ Hlp).
    rewrite length_app. simpl. rewrite <- app_assoc. reflexivity.
  - rewrite (lookup_appended h _ 1 (ONodePattern v lb (length h))) by reflexivity.
    rewrite (lookupLabels_extends h _ _ _ (extends_app _ _) Hlb).
    assert (Hnew : lookupProps (h ++ [OProps ps; ONodePattern v lb (length h)]) (length h)
                   = Some ps).
    { apply lookupProps_Some.
      apply lookup_appended_0. reflexivity. }
    rewrite Hnew. reflexivity.
  - rewrite length_app. simpl. lia.
Qed.

Lemma cloneRel_spec (h : heap) (lr : loc) (r : RelationshipPattern.t) :
  lookupRel h lr = Some r ->
  exists lr' ext,
    cloneRel lr h = Some (lr', h ++ ext)
    /\ lookupRel (h ++ ext) lr' = Some r.
Proof.
  unfold lookupRel.
  destruct (h !! lr) as [[| | | v ty lp d lo hi | | |] |] eqn:Hl; try discriminate.
  destruct (lookupProps h lp) as [ps |] eqn:Hlp; [| discriminate].
  intros [= <-].
  exists (length h + 1), [OProps ps; ORelPattern v ty (length h) d lo hi].
  split.
  - unfold cloneRel. unfold_monad. rewrite Hl.
    fold (cloneProps lp h). rewrite (cloneProps_run _ _ _ Hlp).
    rewrite length_app. simpl. rewrite <- app_assoc. reflexivity.
  - rewrite (lookup_appended h _ 1 (ORelPattern v ty (length h) d lo hi)) by reflexivity.
    assert (Hnew : lookupProps (h ++ [OProps ps; ORelPattern v ty (length h) d lo hi])
                               (length h) = Some ps).
    { apply lookupProps_Some.
      apply lookup_appended_0. reflexivity. }
    rewrite Hnew. reflexivity.
Qed.

Lemma cloneSegment_spec (h : heap) (l : loc) (s : Segment.t) :
  lookupSegment h l = Some s ->
  exists l' ln' ext,
    cloneSegment l h = Some (l', h ++ ext)
    /\ segmentAt (h ++ ext) l' ln' (Segment.relationship s) (Segment.node s)
    /\ length h <= ln' < length (h ++ ext).
Proof.
  unfold lookupSegment.
  destruct (h !! l) as [[| | | | lr ln | |] |] eqn:Hl; try discriminate.
  destruct (lookupRel h lr) as [r |] eqn:Hr; [| discriminate].
  destruct (lookupNodePattern h ln) as [n |] eqn:Hn; [| discriminate].
  intros [= <-]. simpl.
  destruct (cloneRel_spec h lr r Hr) as (lr' & ext1 & Hrun1 & Hr').
  pose proof (lookupNodePattern_extends h (h ++ ext1) ln n (extends_app _ _) Hn) as Hn1.
  destruct (cloneNode_spec (h ++ ext1) ln n Hn1) as (ln' & ext2 & Hrun2 & Hn' & Hfresh).
  exists (length ((h ++ ext1) ++ ext2)), ln', (ext1 ++ ext2 ++ [OSegment lr' ln']).
  assert (Hassoc : h ++ ext1 ++ ext2 ++ [OSegment lr' ln']
                   = ((h ++ ext1) ++ ext2) ++ [OSegment lr' ln'])
    by (rewrite <- !app_assoc; reflexivity).
  split; [| split].
  - unfold cloneSegment. unfold_monad. rewrite Hl.
    rewrite Hrun1, Hrun2. rewrite Hassoc. reflexivity.
  - rewrite Hassoc. exists lr'. split; [| split].
    + apply lookup_appended_0. reflexivity.
    + eapply lookupRel_extends; [| exact Hr'].
      rewrite <- app_assoc. apply extends_app.
    + eapply lookupNodePattern_extends; [apply extends_app | exact Hn'].
  - rewrite Hassoc. rewrite !length_app in *. simpl. lia.
Qed.

Lemma segmentAt_extends (h h' : heap) (s' ln' : loc) (r : RelationshipPattern.t)
      (n : NodePattern.t) :
  extends h h' -> segmentAt h s' ln' r n -> segmentAt h' s' ln' r n.
Proof.
  intros He (lr' & Hs & Hr & Hn). exists lr'. split; [| split].
  - apply He. exact Hs.
  - eapply lookupRel_extends; eauto.
  - eapply lookupNodePattern_extends; eauto.
Qed.

(** The clones of the segments: [cells] lists, for each clone, its
    location and the location of its node object.  The node objects are
    new and pairwise distinct. *)
Lemma mapM_cloneSegment_spec (items : list loc) :
  forall (h : heap) (segs : list Segment.t),
    lookupAll (lookupSegment h) items = Some segs ->
    exists (cells : list (loc * loc)) ext,
      mapM cloneSegment items h = Some (List.map fst cells, h ++ ext)
      /\ Forall2 (fun c s => segmentAt (h ++ ext) (fst c) (snd c)
                               (Segment.relationship s) (Segment.node s))
                 cells segs
      /\ Forall (fun c => length h <= snd c < length (h ++ ext)) cells
      /\ NoDup (List.map snd cells).
Proof.
  induction items as [| l items IH]; intros h segs; simpl.
  - intros [= <-]. exists [], []. rewrite app_nil_r. unfold_monad. simpl.
    repeat split; constructor.
  - destruct (lookupSegment h l) as [s |] eqn:Hs; [| discriminate].
    destruct (lookupAll (lookupSegment h) items) as [rest |] eqn:Hrest; [| discriminate].
    intros [= <-].
    destruct (cloneSegment_spec h l s Hs) as (l' & ln' & ext1 & Hrun1 & Hseg1 & Hfresh1).
    assert (Hrest1 : lookupAll (lookupSegment (h ++ ext1)) items = Some rest).
    { eapply lookupAll_extends; [| exact Hrest].
      intros l0 x. apply lookupSegment_extends. apply extends_app. }
    destruct (IH (h ++ ext1) rest Hrest1) as (cells & ext2 & Hrun2 & Hsegs & Hfresh2 & Hnd).
    exists ((l', ln') :: cells), (ext1 ++ ext2).
    rewrite app_assoc. split; [| split; [| split]].
    + unfold mbind, M_bind, bind. rewrite Hrun1. 
      unfold mbind, M_bind, bind in Hrun2. rewrite Hrun2. reflexivity.
    + constructor; [| exact Hsegs]. simpl.
      eapply segmentAt_extends; [apply extends_app | exact Hseg1].
    + constructor.
      * simpl. rewrite !length_app. rewrite length_app in Hfresh1. lia.
      * eapply Forall_impl; [exact Hfresh2 |]. intros c Hc.
        rewrite !length_app in Hc. rewrite !length_app. lia.
    + simpl. apply NoDup_cons_2; [| exact Hnd].
      intros Hin. apply list_elem_of_In, in_map_iff in Hin.
      destruct Hin as (c & Hc & Hcin). rewrite Forall_forall in Hfresh2.
      apply list_elem_of_In in Hcin. specialize (Hfresh2 c Hcin).
      rewrite length_app in Hfresh1. rewrite !length_app in Hfresh2. lia.
Qed.

(** *** Assigning the [id] constraint *)

Lemma lookupNodePattern_inv (h : heap) (ln : loc) (np : NodePattern.t) :
  lookupNodePattern h ln = Some np ->
  exists lb lp,
    h !! ln = Some (ONodePattern (NodePattern.variable np) lb lp)
    /\ lookupLabels h lb = Some (NodePattern.labels np)
    /\ lookupProps h lp = Some (NodePattern.properties np).
Proof.
  unfold lookupNodePattern.
  destruct (h !! ln) as [[| | v lb lp | | | |] |] eqn:Hl; try discriminate.
  destruct (lookupLabels h lb) as [lbs |] eqn:Hlb; [| discriminate].
  destruct (lookupProps h lp) as [ps |] eqn:Hlp; [| discriminate].
  intros [= <-]. simpl. eauto.
Qed.

(** Under [agreeExcept ln], where [ln] holds a node pattern object,
    whatever is read without going through [ln] is read as before. *)
Section Agree.
Variables (ln : loc) (h h' : heap).
Hypothesis Hagree : agreeExcept ln h h'.
Hypothesis Hnode : exists o, h !! ln = Some o /\ isNodeObject o.

Lemma agree_lookupProps (l : loc) (ps : gmap string Value) :
  lookupProps h l = Some ps -> lookupProps h' l = Some ps.
Proof.
  intros Hp. apply lookupProps_Some in Hp. apply lookupProps_Some.
  apply Hagree; [exact Hp |]. intros ->.
  destruct Hnode as (o & Ho & Hk). rewrite Hp in Ho. injection Ho as <-. exact Hk.
Qed.

Lemma agree_lookupLabels (l : loc) (lbs : list string) :
  lookupLabels h l = Some lbs -> lookupLabels h' l = Some lbs.
Proof.
  unfold lookupLabels.
  destruct (h !! l) as [[| lbs' | | | | |] |] eqn:Hl; try discriminate.
  intros [= <-]. rewrite (Hagree l _ Hl); [reflexivity |]. intros ->.
  destruct Hnode as (o & Ho & Hk). rewrite Hl in Ho. injection Ho as <-. exact Hk.
Qed.

Lemma agree_lookupRel (l : loc) (r : RelationshipPattern.t) :
  lookupRel h l = Some r -> lookupRel h' l = Some r.
Proof.
  unfold lookupRel.
  destruct (h !! l) as [[| | | v ty lp d lo hi | | |] |] eqn:Hl; try discriminate.
  destruct (lookupProps h lp) as [ps |] eqn:Hlp; [| discriminate].
  intros [= <-]. rewrite (Hagree l _ Hl).
  - rewrite (agree_lookupProps _ _ Hlp). reflexivity.
  - intros ->. destruct Hnode as (o & Ho & Hk). rewrite Hl in Ho.
    injection Ho as <-. exact Hk.
Qed.

Lemma agree_lookupNodePattern (l : loc) (np : NodePattern.t) :
  l <> ln -> lookupNodePattern h l = Some np -> lookupNodePattern h' l = Some np.
Proof.
  intros Hne Hn. apply lookupNodePattern_inv in Hn.
  destruct Hn as (lb & lp & Hl & Hlb & Hlp).
  unfold lookupNodePattern. rewrite (Hagree l _ Hl Hne).
  rewrite (agree_lookupLabels _ _ Hlb), (agree_lookupProps _ _ Hlp).
  destruct np; reflexivity.
Qed.

Lemma agree_segmentAt (s' ln' : loc) (r : RelationshipPattern.t) (n : NodePattern.t) :
  ln' <> ln -> segmentAt h s' ln' r n -> segmentAt h' s' ln' r n.
Proof.
  intros Hne (lr' & Hs & Hr & Hn). exists lr'. split; [| split].
  - apply Hagree; [exact Hs |]. intros ->.
    destruct Hnode as (o & Ho & Hk). rewrite Hs in Ho. injection Ho as <-. exact Hk.
  - apply agree_lookupRel. exact Hr.
  - apply agree_lookupNodePattern; assumption.
Qed.

Lemma agree_segmentAt_updated (s' : loc) (r : RelationshipPattern.t)
      (n n' : NodePattern.t) :
  segmentAt h s' ln r n -> lookupNodePattern h' ln = Some n' ->
  segmentAt h' s' ln r n'.
Proof.
  intros (lr' & Hs & Hr & Hn) Hn'. exists lr'. split; [| split].
  - apply Hagree; [exact Hs |]. intros ->.
    destruct Hnode as (o & Ho & Hk). rewrite Hs in Ho. injection Ho as <-. exact Hk.
  - apply agree_lookupRel. exact Hr.
  - exact Hn'.
Qed.

Lemma agree_extends (h0 : heap) :
  length h0 <= ln -> extends h0 h -> extends h0 h'.
Proof.
  intros Hfresh He l o Hl. apply Hagree; [apply He; exact Hl |].
  apply lookup_lt_Some in Hl. lia.
Qed.
End Agree.

Lemma setIdConstraint_spec (h : heap) (ln : loc) (i : NodeId) (np : NodePattern.t) :
  lookupNodePattern h ln = Some np ->
  exists h',
    setIdConstraint ln i h = Some (tt, h')
    /\ agreeExcept ln h h'
    /\ lookupNodePattern h' ln = Some (withId i np)
    /\ (exists o, h !! ln = Some o /\ isNodeObject o).
Proof.
  intros Hn. destruct (lookupNodePattern_inv h ln np Hn) as (lb & lp & Hl & Hlb & Hlp).
  set (ps' := <["id" := VStr i]> (NodePattern.properties np)).
  set (v := NodePattern.variable np) in *.
  exists (<[ln := ONodePattern v lb (length h)]> (h ++ [OProps ps'])).
  assert (Hlt : ln < length h) by (eapply lookup_lt_Some; exact Hl).
  assert (Hagree : agreeExcept ln h (<[ln := ONodePattern v lb (length h)]> (h ++ [OProps ps']))).
  { intros l o Ho Hne. rewrite list_lookup_insert_ne by congruence.
    apply lookup_app_l_Some. exact Ho. }
  assert (Hnode : exists o, h !! ln = Some o /\ isNodeObject o).
  { eexists. split; [exact Hl | exact I]. }
  split; [| split; [| split]]; try assumption.
  - unfold setIdConstraint. unfold_monad. rewrite Hl.
    apply lookupProps_Some in Hlp. rewrite Hlp.
    rewrite length_app. simpl.
    destruct (Nat.ltb_spec ln (length h + 1)); [reflexivity | lia].
  - unfold lookupNodePattern.
    rewrite list_lookup_insert_eq by (rewrite length_app; simpl; lia).
    rewrite (agree_lookupLabels ln h _ Hagree Hnode lb _ Hlb).
    assert (Hnew : lookupProps (<[ln := ONodePattern v lb (length h)]> (h ++ [OProps ps']))
                               (length h) = Some ps').
    { apply lookupProps_Some. rewrite list_lookup_insert_ne by lia.
      apply lookup_appended_0. reflexivity. }
    rewrite Hnew. reflexivity.
Qed.

(** *** Enriching the clone *)

Lemma map_lookup {A B : Type} (f : A -> B) (l : list A) (j : nat) :
  List.map f l !! j = f <$> (l !! j).
Proof.
  revert j. induction l as [| a l IH]; intros [| j]; simpl; auto.
Qed.

Section Clone.
Variables (h0 : heap) (e ls' la' : loc) (cells : list (loc * loc)).
Hypothesis Hfresh : cloneNodesFresh h0 ls' cells.

Lemma cell_node_fresh (k : nat) (c : loc * loc) :
  cells !! k = Some c -> length h0 <= snd c /\ snd c <> ls'.
Proof.
  intros Hk. destruct Hfresh as [Hnd Hall].
  assert (Hin : snd c ∈ List.map snd cells).
  { apply list_elem_of_lookup. exists k. rewrite map_lookup, Hk. reflexivity. }
  split.
  - apply Forall_cons in Hall. destruct Hall as [_ Hall].
    rewrite Forall_forall in Hall. apply Hall. exact Hin.
  - apply NoDup_cons in Hnd. destruct Hnd as [Hnot _]. intros Heq.
    apply Hnot. rewrite <- Heq. exact Hin.
Qed.

Lemma cell_nodes_distinct (j k : nat) (c c' : loc * loc) :
  cells !! j = Some c -> cells !! k = Some c' -> j <> k -> snd c <> snd c'.
Proof.
  intros Hj Hk Hne Heq. apply Hne.
  destruct Hfresh as [Hnd _]. apply NoDup_cons in Hnd. destruct Hnd as [_ Hnd].
  eapply NoDup_lookup; [exact Hnd | |].
  - rewrite map_lookup, Hj. reflexivity.
  - rewrite map_lookup, Hk. simpl. congruence.
Qed.

Lemma cloneAt_setStart (h : heap) (start : NodePattern.t)
      (rns : list (RelationshipPattern.t * NodePattern.t)) (i : NodeId) :
  cloneAt h0 e ls' la' cells h start rns ->
  exists h',
    setIdConstraint ls' i h = Some (tt, h')
    /\ cloneAt h0 e ls' la' cells h' (withId i start) rns.
Proof.
  intros (Hext & He & Hla & Hstart & Hsegs).
  destruct (setIdConstraint_spec h ls' i start Hstart) as (h' & Hrun & Hagree & Hn' & Hnode).
  exists h'. split; [exact Hrun |].
  assert (Hls : length h0 <= ls').
  { destruct Hfresh as [_ Hall]. apply Forall_cons in Hall. tauto. }
  split; [| split; [| split; [| split]]].
  - eapply agree_extends; eauto.
  - apply Hagree; [exact He |]. intros ->.
    destruct Hnode as (o & Ho & Hk). rewrite He in Ho. injection Ho as <-. exact Hk.
  - apply Hagree; [exact Hla |]. intros ->.
    destruct Hnode as (o & Ho & Hk). rewrite Hla in Ho. injection Ho as <-. exact Hk.
  - exact Hn'.
  - apply Forall2_same_length_lookup. split; [eapply Forall2_length; exact Hsegs |].
    intros j c rn Hc Hrn.
    apply (agree_segmentAt ls' h h' Hagree Hnode).
    + apply (cell_node_fresh j c Hc).
    + exact (Forall2_lookup_lr _ _ _ _ _ _ Hsegs Hc Hrn).
Qed.

Lemma cloneAt_setNode (h : heap) (start : NodePattern.t)
      (rns : list (RelationshipPattern.t * NodePattern.t)) (i : NodeId)
      (k : nat) (c : loc * loc) (r : RelationshipPattern.t) (n : NodePattern.t) :
  cloneAt h0 e ls' la' cells h start rns ->
  cells !! k = Some c ->
  rns !! k = Some (r, n) ->
  exists h',
    setIdConstraint (snd c) i h = Some (tt, h')
    /\ cloneAt h0 e ls' la' cells h' start (<[k := (r, withId i n)]> rns).
Proof.
  intros (Hext & He & Hla & Hstart & Hsegs) Hc Hrn.
  pose proof (Forall2_lookup_lr _ _ _ _ _ _ Hsegs Hc Hrn) as Hseg. simpl in Hseg.
  assert (Hn : lookupNodePattern h (snd c) = Some n).
  { destruct Hseg as (lr' & _ & _ & Hn). exact Hn. }
  destruct (setIdConstraint_spec h (snd c) i n Hn) as (h' & Hrun & Hagree & Hn' & Hnode).
  exists h'. split; [exact Hrun |].
  destruct (cell_node_fresh k c Hc) as [Hge Hne].
  split; [| split; [| split; [| split]]].
  - eapply agree_extends; eauto.
  - apply Hagree; [exact He |]. intros Heq.
    destruct Hnode as (o & Ho & Hk). rewrite <- Heq, He in Ho.
    injection Ho as <-. exact Hk.
  - apply Hagree; [exact Hla |]. intros Heq.
    destruct Hnode as (o & Ho & Hk). rewrite <- Heq, Hla in Ho.
    injection Ho as <-. exact Hk.
  - eapply agree_lookupNodePattern; eauto.
  - apply Forall2_same_length_lookup.
    split; [rewrite length_insert; eapply Forall2_length; exact Hsegs |].
    intros j c' rn Hc' Hrn'.
    destruct (decide (j = k)) as [-> | Hjk].
    + rewrite list_lookup_insert_eq in Hrn' by (eapply lookup_lt_Some; exact Hrn).
      injection Hrn' as <-. rewrite Hc in Hc'. injection Hc' as <-. simpl.
      apply (agree_segmentAt_updated (snd c) h h' Hagree Hnode _ _ n); assumption.
    + rewrite list_lookup_insert_ne in Hrn' by congruence.
      apply (agree_segmentAt (snd c) h h' Hagree Hnode).
      * apply (cell_nodes_distinct j k c' c Hc' Hc Hjk).
      * exact (Forall2_lookup_lr _ _ _ _ _ _ Hsegs Hc' Hrn').
Qed.

(** One iteration of the loop over the segments of the original. *)
Lemma enrichSegment_spec (b : BindingContext.t) (h : heap) (start : NodePattern.t)
      (rns : list (RelationshipPattern.t * NodePattern.t))
      (k : nat) (segment : loc) (s : Segment.t) :
  cloneAt h0 e ls' la' cells h start rns ->
  lookupSegment h0 segment = Some s ->
  rns !! k = Some (Segment.relationship s, Segment.node s) ->
  exists h',
    enrichSegment b e k segment h = Some (tt, h')
    /\ cloneAt h0 e ls' la' cells h' start
         (<[k := (Segment.relationship s, enrichedNode b (Segment.node s))]> rns).
Proof.
  intros Hclone Hs Hrn.
  pose proof Hclone as (Hext & He & Hla & Hstart & Hsegs).
  pose proof (lookupSegment_extends h0 h segment s Hext Hs) as Hs'.
  unfold lookupSegment in Hs'.
  destruct (h !! segment) as [[| | | | lr ln | |] |] eqn:Hseg; try discriminate.
  destruct (lookupRel h lr) as [r |]; [| discriminate].
  destruct (lookupNodePattern h ln) as [n |] eqn:Hn; [| discriminate].
  injection Hs' as <-. simpl in *.
  destruct (lookupNodePattern_inv h ln n Hn) as (lb & lp & Hln & _ & _).
  unfold enrichSegment, enrichedNode. unfold_monad. rewrite Hseg, Hln.
  destruct (idToAdd b (NodePattern.variable n)) as [i |].
  - rewrite He, Hla.
    destruct (lookup_lt_is_Some_2 cells k) as [c Hc].
    { rewrite (Forall2_length _ _ _ Hsegs). eapply lookup_lt_Some. exact Hrn. }
    rewrite map_lookup, Hc. simpl.
    pose proof (Forall2_lookup_lr _ _ _ _ _ _ Hsegs Hc Hrn) as (lr' & Hc1 & _ & _).
    simpl in Hc1. rewrite Hc1.
    destruct (cloneAt_setNode h start rns i k c r n Hclone Hc Hrn) as (h' & Hrun & Hclone').
    exists h'. split; [| exact Hclone'].
    unfold setIdConstraint in Hrun. unfold_monad. exact Hrun.
  - exists h. split; [reflexivity |].
    rewrite list_insert_id by exact Hrn. exact Hclone.
Qed.

Lemma forEach_enrichSegment_spec (b : BindingContext.t) (items : list loc) :
  forall (segs : list Segment.t) (k : nat) (h : heap) (start : NodePattern.t)
         (done : list (RelationshipPattern.t * NodePattern.t)),
    lookupAll (lookupSegment h0) items = Some segs ->
    length done = k ->
    cloneAt h0 e ls' la' cells h start
      (done ++ List.map (fun s => (Segment.relationship s, Segment.node s)) segs) ->
    exists h',
      forEachFrom (enrichSegment b e) k items h = Some (tt, h')
      /\ cloneAt h0 e ls' la' cells h' start
           (done ++ List.map (fun s => (Segment.relationship s,
                                        enrichedNode b (Segment.node s))) segs).
Proof.
  induction items as [| segment items IH]; intros segs k h start done; simpl.
  - intros [= <-] _ Hclone. exists h. split; [reflexivity | exact Hclone].
  - destruct (lookupSegment h0 segment) as [s |] eqn:Hs; [| discriminate].
    destruct (lookupAll (lookupSegment h0) items) as [rest |] eqn:Hrest; [| discriminate].
    intros [= <-] Hlen Hclone. simpl in Hclone.
    assert (Hrn : (done ++ (Segment.relationship s, Segment.node s)
                     :: List.map (fun s => (Segment.relationship s, Segment.node s)) rest)
                  !! k = Some (Segment.relationship s, Segment.node s)).
    { rewrite lookup_app_r by lia. replace (k - length done) with 0 by lia. reflexivity. }
    destruct (enrichSegment_spec b h start _ k segment s Hclone Hs Hrn)
      as (h1 & Hrun1 & Hclone1).
    rewrite insert_app_r_alt in Hclone1 by lia.
    replace (k - length done) with 0 in Hclone1 by lia. simpl in Hclone1.
    rewrite cons_middle, app_assoc in Hclone1.
    destruct (IH rest (S k) h1 start
                 (done ++ [(Segment.relationship s, enrichedNode b (Segment.node s))])
                 eq_refl)
      as (h2 & Hrun2 & Hclone2).
    { rewrite length_app. simpl. lia. }
    { exact Hclone1. }
    exists h2. split.
    + unfold mbind, M_bind, bind. rewrite Hrun1. exact Hrun2.
    + simpl. rewrite cons_middle, app_assoc. exact Hclone2.
Qed.
End Clone.

(** *** The whole of [enrichPatternWithBindings] *)

Lemma readPathPattern_run (h : heap) (l ls la : loc) :
  h !! l = Some (OPathPattern ls la) -> readPathPattern l h = Some ((ls, la), h).
Proof. intros Hl. unfold_monad. rewrite Hl. reflexivity. Qed.

Lemma readSegments_run (h : heap) (l : loc) (items : list loc) :
  h !! l = Some (OSegments items) -> readSegments l h = Some (items, h).
Proof. intros Hl. unfold_monad. rewrite Hl. reflexivity. Qed.

Lemma readNodePattern_run (h : heap) (l lb lp : loc) (v : option string) :
  h !! l = Some (ONodePattern v lb lp) -> readNodePattern l h = Some ((v, lb, lp), h).
Proof. intros Hl. unfold_monad. rewrite Hl. reflexivity. Qed.

Lemma lookupPathPattern_inv (h : heap) (l : loc) (p : PathPattern.t) :
  lookupPathPattern h l = Some p ->
  exists ls la items,
    h !! l = Some (OPathPattern ls la)
    /\ lookupNodePattern h ls = Some (PathPattern.start p)
    /\ h !! la = Some (OSegments items)
    /\ lookupAll (lookupSegment h) items = Some (PathPattern.segments p).
Proof.
  unfold lookupPathPattern.
  destruct (h !! l) as [[| | | | | | ls la] |] eqn:Hl; try discriminate.
  destruct (lookupNodePattern h ls) as [s |] eqn:Hs; [| discriminate].
  destruct (h !! la) as [[| | | | | items |] |] eqn:Hla; try discriminate.
  destruct (lookupAll (lookupSegment h) items) as [segs |] eqn:Hsegs; [| discriminate].
  intros [= <-]. simpl. exists ls, la, items. auto.
Qed.

Lemma segmentAt_lookupSegment (h : heap) (s' ln' : loc) (r : RelationshipPattern.t)
      (n : NodePattern.t) :
  segmentAt h s' ln' r n ->
  lookupSegment h s' = Some {| Segment.relationship := r; Segment.node := n |}.
Proof.
  intros (lr' & Hs & Hr & Hn). unfold lookupSegment. rewrite Hs, Hr, Hn. reflexivity.
Qed.

Lemma cells_lookupAll (h : heap) (cells : list (loc * loc))
      (rns : list (RelationshipPattern.t * NodePattern.t)) :
  Forall2 (fun c rn => segmentAt h (fst c) (snd c) (fst rn) (snd rn)) cells rns ->
  lookupAll (lookupSegment h) (List.map fst cells)
  = Some (List.map (fun rn => {| Segment.relationship := fst rn;
                                 Segment.node := snd rn |}) rns).
Proof.
  induction 1 as [| c rn cells rns Hc _ IH]; simpl; [reflexivity |].
  rewrite (segmentAt_lookupSegment _ _ _ _ _ Hc), IH. reflexivity.
Qed.

Lemma cloneAt_lookupPathPattern (h0 : heap) (e ls' la' : loc) (cells : list (loc * loc))
      (h : heap) (start : NodePattern.t)
      (rns : list (RelationshipPattern.t * NodePattern.t)) :
  cloneAt h0 e ls' la' cells h start rns ->
  lookupPathPattern h e
  = Some {| PathPattern.start := start;
            PathPattern.segments :=
              List.map (fun rn => {| Segment.relationship := fst rn;
                                     Segment.node := snd rn |}) rns |}.
Proof.
  intros (_ & He & Hla & Hstart & Hsegs).
  unfold lookupPathPattern. rewrite He, Hstart, Hla, (cells_lookupAll _ _ _ Hsegs).
  reflexivity.
Qed.

(** The description of the result in the words of the specification and
    the one read off the code agree. *)
Lemma enrichedNode_withBoundId (b : BindingContext.t) (np : NodePattern.t) :
  enrichedNode b np = withBoundId b np.
Proof.
  unfold enrichedNode, withBoundId, idToAdd, BindingContext.has, BindingContext.get,
    boundNodeId, truthy.
  destruct (NodePattern.variable np) as [v |] eqn:Hvar; [| reflexivity].
  destruct (String.eqb_spec v "") as [-> | Hv]; simpl.
  - destruct (b !! "") as [[n | | |] |]; reflexivity.
  - destruct (b !! v) as [[n | | |] |]; try reflexivity.
    destruct (String.eqb_spec (Node.id n) "") as [Hn | Hn]; simpl.
    + rewrite bool_decide_eq_false_2; [reflexivity | tauto].
    + rewrite bool_decide_eq_true_2 by tauto.
      unfold withId. rewrite Hvar. reflexivity.
Qed.

(** C9, as the code has it.  On a store that holds a path pattern,
    [enrichPatternWithBindings] returns a new pattern object, at a
    location the store did not hold, and leaves every object of the store
    as it was, the input pattern among them.
    The new pattern reads as the input with, on every node pattern (start
    or segment) whose variable is a non-empty name bound to a node with a
    non-empty id, the constraint [id] set to that id. *)
Theorem enrichPatternWithBindings_clone_with_ids (h : heap) (pattern : loc)
        (b : BindingContext.t) (p : PathPattern.t) :
  lookupPathPattern h pattern = Some p ->
  exists enriched h',
    enrichPatternWithBindings pattern b h = Some (enriched, h')
    /\ h !! enriched = None
    /\ (forall l o, h !! l = Some o -> h' !! l = Some o)
    /\ lookupPathPattern h' pattern = Some p
    /\ lookupPathPattern h' enriched = Some (enrichedPatternSpec b p).
Proof.
  intros Hp. fold (extends h).
  destruct (lookupPathPattern_inv h pattern p Hp) as (ls & la & items & Hl & Hstart & Hla & Hsegs).
  destruct (cloneNode_spec h ls _ Hstart) as (ls' & ext1 & Hrun1 & Hstart1 & Hls').
  set (h1 := h ++ ext1) in *.
  assert (He1 : extends h h1) by apply extends_app.
  assert (Hsegs1 : lookupAll (lookupSegment h1) items = Some (PathPattern.segments p)).
  { eapply lookupAll_extends; [| exact Hsegs].
    intros l0 x. apply lookupSegment_extends. exact He1. }
  destruct (mapM_cloneSegment_spec items h1 _ Hsegs1) as (cells & ext2 & Hrun2 & Hcells & Hfresh & Hnd).
  set (h2 := h1 ++ ext2) in *.
  set (la' := length h2).
  set (h3 := h2 ++ [OSegments (List.map fst cells)]).
  set (e := length h3).
  set (h4 := h3 ++ [OPathPattern ls' la']).
  assert (He2 : extends h1 h2) by apply extends_app.
  assert (He3 : extends h2 h3) by apply extends_app.
  assert (He4 : extends h3 h4) by apply extends_app.
  assert (He14 : extends h1 h4) by (eauto using extends_trans).
  assert (He24 : extends h2 h4) by (eauto using extends_trans).
  assert (He04 : extends h h4) by (eauto using extends_trans).
  assert (Hclone : cloneAt h e ls' la' cells h4 (PathPattern.start p)
                     (List.map (fun s => (Segment.relationship s, Segment.node s))
                               (PathPattern.segments p))).
  { split; [exact He04 |]. split; [| split; [| split]].
    - apply lookup_appended_0. reflexivity.
    - apply He4. apply lookup_appended_0. reflexivity.
    - eapply lookupNodePattern_extends; [exact He14 | exact Hstart1].
    - apply Forall2_fmap_r. eapply Forall2_impl; [exact Hcells |].
      intros c s Hc. simpl. eapply segmentAt_extends; [exact He24 | exact Hc]. }
  assert (Hnodes : cloneNodesFresh h ls' cells).
  { pose proof (extends_length _ _ He1) as Hlen1. split.
    - apply NoDup_cons_2; [| exact Hnd].
      intros Hin. apply list_elem_of_In, in_map_iff in Hin.
      destruct Hin as (c & Hc & Hcin). rewrite Forall_forall in Hfresh.
      apply list_elem_of_In in Hcin. specialize (Hfresh c Hcin). lia.
    - constructor; [lia |]. apply Forall_forall. intros l0 Hin.
      apply list_elem_of_In, in_map_iff in Hin.
      destruct Hin as (c & <- & Hcin). rewrite Forall_forall in Hfresh.
      apply list_elem_of_In in Hcin. specialize (Hfresh c Hcin). lia. }
  (* the start node *)
  destruct (lookupNodePattern_inv h ls _ Hstart) as (lb & lp & Hls & _ & _).
  assert (Hstep5 : exists h5,
             match idToAdd b (NodePattern.variable (PathPattern.start p)) with
             | Some i => '(ls'', _) ← readPathPattern e; setIdConstraint ls'' i
             | None => ret tt
             end h4 = Some (tt, h5)
             /\ cloneAt h e ls' la' cells h5 (enrichedNode b (PathPattern.start p))
                  (List.map (fun s => (Segment.relationship s, Segment.node s))
                            (PathPattern.segments p))).
  { unfold enrichedNode.
    destruct (idToAdd b (NodePattern.variable (PathPattern.start p))) as [i |].
    - destruct (cloneAt_setStart h e ls' la' cells Hnodes h4 _ _ i Hclone)
        as (h5 & Hrun5 & Hclone5).
      exists h5. split; [| exact Hclone5].
      unfold mbind, M_bind, bind.
      destruct Hclone as (_ & He' & _).
      rewrite (readPathPattern_run _ _ _ _ He'). exact Hrun5.
    - exists h4. split; [reflexivity | exact Hclone]. }
  destruct Hstep5 as (h5 & Hrun5 & Hclone5).
  destruct (forEach_enrichSegment_spec h e ls' la' cells Hnodes b items
              (PathPattern.segments p) 0 h5 _ [] Hsegs eq_refl Hclone5)
    as (h6 & Hrun6 & Hclone6).
  simpl in Hclone6.
  exists e, h6. split; [| split; [| split; [| split]]].
  - unfold enrichPatternWithBindings, mbind, M_bind, bind.
    rewrite (readPathPattern_run _ _ _ _ Hl).
    rewrite Hrun1. fold h1.
    rewrite (readSegments_run h1 la items (He1 _ _ Hla)).
    unfold mbind, M_bind, bind in Hrun2. rewrite Hrun2. fold h2.
    unfold alloc at 1 2. fold la'. fold h3. cbv zeta. fold e. fold h4.
    rewrite (readNodePattern_run h4 ls lb lp _ (He04 _ _ Hls)).
    unfold mbind, M_bind, bind in Hrun5. rewrite Hrun5.
    rewrite Hrun6. reflexivity.
  - apply lookup_ge_None.
    pose proof (extends_length _ _ He1). pose proof (extends_length _ _ He2).
    pose proof (extends_length _ _ He3). unfold e. lia.
  - destruct Hclone6 as (He6 & _). exact He6.
  - destruct Hclone6 as (He6 & _).
    eapply lookupPathPattern_extends; [exact He6 | exact Hp].
  - rewrite (cloneAt_lookupPathPattern _ _ _ _ _ _ _ _ Hclone6).
    unfold enrichedPatternSpec. rewrite enrichedNode_withBoundId.
    rewrite List.map_map. simpl.
    f_equal. f_equal. apply List.map_ext. intros s.
    rewrite enrichedNode_withBoundId. reflexivity.
Qed.
End HeapFacts.

(** ** The type cache, and cache entries without duplicates *)

Section MoreCacheFacts.
Context `{JSBuiltins}.

Lemma typeCacheCoherent_clearCache (m : PatternMatcher) (graph : Graph.t) :
  typeCacheCoherent (clearCache m) graph.
Proof. intros type ids Hl. simpl in Hl. rewrite lookup_empty in Hl. discriminate. Qed.

Lemma getRelationshipsByType_coherent (m : PatternMatcher) (graph : Graph.t)
      (type : string) :
  typeCacheCoherent m graph ->
  fst (getRelationshipsByType m graph type)
  = edgesOfIds graph
      (List.map (fun edge => (Edge.source edge, Edge.target edge, Edge.label edge))
         (Graph.findEdges graph
            (fun edge => typeMatches (options m) (Edge.label edge) type))).
Proof.
  intros Hc. unfold getRelationshipsByType.
  destruct (typeCache m !! normalizeLabel (options m) type) as [ids |] eqn:Hl; simpl.
  - rewrite (Hc type ids Hl). reflexivity.
  - reflexivity.
Qed.

Lemma findMatchingRelationships_coherent_eq (m m' : PatternMatcher) (graph : Graph.t)
      (pattern : RelationshipPattern.t) (sourceId : option NodeId) :
  options m' = options m ->
  typeCacheCoherent m graph -> typeCacheCoherent m' graph ->
  fst (findMatchingRelationships m' graph pattern sourceId)
  = fst (findMatchingRelationships m graph pattern sourceId).
Proof.
  intros Ho Hc Hc'.
  assert (Hany : fst (findRelationshipsAnywhere m' graph pattern)
                 = fst (findRelationshipsAnywhere m graph pattern)).
  { unfold findRelationshipsAnywhere.
    destruct (RelationshipPattern.type pattern) as [ty |]; [| simpl; rewrite Ho; reflexivity].
    destruct (truthy ty); [| simpl; rewrite Ho; reflexivity].
    pose proof (getRelationshipsByType_coherent m graph ty Hc) as E.
    pose proof (getRelationshipsByType_coherent m' graph ty Hc') as E'.
    destruct (getRelationshipsByType m graph ty) as [edges1 m1].
    destruct (getRelationshipsByType m' graph ty) as [edges2 m2].
    simpl in *. rewrite E, E', Ho. reflexivity. }
  unfold findMatchingRelationships.
  destruct sourceId as [i |]; [| exact Hany].
  destruct (truthy i); [| exact Hany].
  destruct (Graph.getNode graph i); simpl; [rewrite Ho |]; reflexivity.
Qed.

Lemma findMatchingRelationships_options (m : PatternMatcher) (graph : Graph.t)
      (pattern : RelationshipPattern.t) (sourceId : option NodeId) :
  options (snd (findMatchingRelationships m graph pattern sourceId)) = options m.
Proof.
  assert (Hany : options (snd (findRelationshipsAnywhere m graph pattern)) = options m).
  { unfold findRelationshipsAnywhere.
    destruct (RelationshipPattern.type pattern) as [ty |]; [| reflexivity].
    destruct (truthy ty); [| reflexivity].
    unfold getRelationshipsByType.
    destruct (typeCache m !! normalizeLabel (options m) ty); reflexivity. }
  unfold findMatchingRelationships.
  destruct sourceId as [i |]; [| exact Hany].
  destruct (truthy i); [| exact Hany].
  destruct (Graph.getNode graph i); reflexivity.
Qed.

(** Relationship queries behave like node queries: with a coherent type
    cache, the query gives after [clearCache] what it gave before. *)
Lemma clearCache_same_relationships (m : PatternMatcher) (graph : Graph.t)
      (pattern : RelationshipPattern.t) (sourceId : option NodeId) :
  typeCacheCoherent m graph ->
  fst (findMatchingRelationships
         (clearCache (snd (findMatchingRelationships m graph pattern sourceId)))
         graph pattern sourceId)
  = fst (findMatchingRelationships m graph pattern sourceId).
Proof.
  intros Hc. apply findMatchingRelationships_coherent_eq.
  - simpl. apply findMatchingRelationships_options.
  - exact Hc.
  - apply typeCacheCoherent_clearCache.
Qed.

(** *** Entries without duplicates *)

Lemma getNodesByLabel_preserves_NoDup (m : PatternMatcher) (graph : Graph.t)
      (label : string) :
  NoDup (List.map Node.id (Graph.nodes graph)) ->
  labelCacheNoDup m ->
  labelCacheNoDup (snd (getNodesByLabel m graph label)).
Proof.
  intros Hg Hc. unfold getNodesByLabel.
  destruct (labelCache m !! normalizeLabel (options m) label) as [nodeIds |] eqn:Hl; simpl.
  - exact Hc.
  - intros key ids. simpl.
    destruct (decide (normalizeLabel (options m) label = key)) as [<- | Hne].
    + rewrite lookup_insert_eq. intros [= <-]. apply filter_NoDup_ids. exact Hg.
    + rewrite lookup_insert_ne by assumption. apply Hc.
Qed.

Lemma findMatchingNodes_preserves_NoDup (m : PatternMatcher) (graph : Graph.t)
      (pattern : NodePattern.t) :
  NoDup (List.map Node.id (Graph.nodes graph)) ->
  labelCacheNoDup m ->
  labelCacheNoDup (snd (findMatchingNodes m graph pattern)).
Proof.
  intros Hg Hc. unfold findMatchingNodes.
  destruct (NodePattern.labels pattern) as [| label0 rest]; [exact Hc |].
  pose proof (getNodesByLabel_preserves_NoDup m graph label0 Hg Hc) as Hc'.
  destruct (getNodesByLabel m graph label0). exact Hc'.
Qed.

(** On a graph whose node ids are unique, a matcher that was only
    queried on this graph has no duplicate in its cache entries. *)
Lemma cachesBuiltOn_NoDup (graph : Graph.t) (m : PatternMatcher) :
  NoDup (List.map Node.id (Graph.nodes graph)) ->
  cachesBuiltOn graph m -> labelCacheNoDup m.
Proof.
  intros Hg. induction 1 as [a | m | m pattern _ IH | m pattern _ IH].
  - intros key ids Hl. simpl in Hl. rewrite lookup_empty in Hl. discriminate.
  - intros key ids Hl. simpl in Hl. rewrite lookup_empty in Hl. discriminate.
  - apply findMatchingNodes_preserves_NoDup; assumption.
  - rewrite findMatchingPaths_snd. apply findMatchingNodes_preserves_NoDup; assumption.
Qed.

End MoreCacheFacts.

(** The graphs the matcher is run on below are well formed. *)

Lemma twoCycle_wf : Graph.wf twoCycle.
Proof.
  split; simpl.
  - apply (bool_decide_unpack _). vm_compute. exact I.
  - repeat constructor; simpl; tauto.
Qed.

Lemma chain3_wf : Graph.wf chain3.
Proof.
  split; simpl.
  - apply (bool_decide_unpack _). vm_compute. exact I.
  - repeat constructor; simpl; tauto.
Qed.

Lemma onePerson_wf : Graph.wf onePerson.
Proof.
  split; simpl.
  - apply NoDup_singleton.
  - constructor.
Qed.

Lemma emptyGraph_wf : Graph.wf emptyGraph.
Proof. split; simpl; constructor. Qed.

(** ** The matcher on concrete graphs *)

(** Where the code departs from a sentence of the specification, the
    matcher is run on a small graph. *)

(** C1, counterexample.  On the graph a -> b -> a the pattern
    [()-[:R]->()-[:R]->()] returns the path a, b, a, on which a appears
    twice. *)
Lemma findMatchingPaths_returns_closed_cycle :
  ~ Forall (fun p => NoDup (List.map Node.id (Path.nodes p)))
           (fst (findMatchingPaths defaultMatcher twoCycle twoFixedHops)).
Proof.
  assert (E : List.map pathIds (fst (findMatchingPaths defaultMatcher twoCycle twoFixedHops))
              = [["a"; "b"; "a"]; ["b"; "a"; "b"]]) by (vm_compute; reflexivity).
  intros Hall. apply (Forall_map pathIds (fun ids => NoDup ids)) in Hall.
  rewrite E in Hall. apply Forall_cons in Hall. destruct Hall as [Hnd _].
  apply NoDup_cons in Hnd. destruct Hnd as [Hnot _].
  apply Hnot. apply elem_of_cons. right. apply elem_of_cons. left. reflexivity.
Qed.

(** C2, counterexample.  For a segment with neither [minHops] nor
    [maxHops] the pair of the specification is (1, 1), yet the code treats
    the segment as variable-length: on a -> b -> c the pattern [()-[]->()]
    also returns the path of two edges from a to c. *)
Lemma unspecified_hops_are_variable :
  let r := rel None None None in
  (nullish (RelationshipPattern.minHops r) 1,
   nullish (RelationshipPattern.maxHops r) (nullish (RelationshipPattern.minHops r) 1))
  = (1, 1)
  /\ isVariable r = true
  /\ List.map pathToString (fst (findMatchingPaths defaultMatcher chain3 hopsUnspecified))
     = ["a,b|a-R-b"; "a,b,c|a-R-b,b-R-c"; "b,c|b-R-c"].
Proof. repeat split; vm_compute; reflexivity. Qed.

(** C3, counterexample.  The pattern label [Person] is an entry of the
    [labels] array of the node's property bag, and the node does not
    match. *)
Lemma labels_array_is_not_consulted :
  (exists nodeData, Node.data taggedNode = Some nodeData
                    /\ nodeData !! "labels" = Some (VArr [VStr "Person"]))
  /\ NodePattern.labels (labelled "Person") = ["Person"]
  /\ NodePattern.properties (labelled "Person") = ∅
  /\ matchesNodePattern (options defaultMatcher) taggedNode (labelled "Person") = false.
Proof.
  split; [| repeat split; vm_compute; reflexivity].
  eexists. split; [reflexivity |]. vm_compute. reflexivity.
Qed.

(** C5, counterexample.  With [maxHops = 0] on its only segment, which
    is variable-length, the pattern [()-[*0..0]->()] returns paths of one
    edge. *)
Lemma zero_maxHops_returns_one_edge :
  Forall (fun s => RelationshipPattern.maxHops (Segment.relationship s) = Some 0
                   /\ isVariable (Segment.relationship s) = true)
         (PathPattern.segments zeroHops)
  /\ List.map (fun p => length (Path.edges p))
              (fst (findMatchingPaths defaultMatcher chain3 zeroHops))
     = [1; 1].
Proof.
  split; [repeat constructor | vm_compute; reflexivity].
Qed.

(** C6, counterexample.  With [maxPathResults = 1] a pattern without
    segments returns the three nodes of the graph as three paths. *)
Lemma no_segments_exceeds_result_limit :
  maxPathResults (options limitOne) = 1
  /\ length (fst (findMatchingPaths limitOne chain3 noSegments)) = 3.
Proof. split; vm_compute; reflexivity. Qed.

(** C8, counterexample.  A matcher that answered a query for [Person] on
    the empty graph answers the same query on a graph with one person from
    its cache, with no node; after [clearCache], the graph being the same,
    it finds the node. *)
Lemma stale_cache_changes_results :
  let first := findMatchingNodes usedOnEmptyGraph onePerson (labelled "Person") in
  let second := findMatchingNodes (clearCache (snd first)) onePerson (labelled "Person") in
  fst first = [] /\ fst second = [plainNode "p1" "Person"] /\ fst second <> fst first.
Proof. repeat split; try (vm_compute; reflexivity). vm_compute. discriminate. Qed.

(** C9, counterexample.  The variable [a] of the start node pattern is
    bound to a node whose id is the empty string; the enriched pattern has
    no [id] constraint on its start node. *)
Lemma empty_id_adds_no_constraint :
  Heap.lookupPathPattern storeWithPattern 4 = Some noSegmentsNamed
  /\ boundToEmptyId !! "a" = Some (BindingContext.BNode (plainNode "" "X"))
  /\ exists enriched h' p',
       Heap.enrichPatternWithBindings 4 boundToEmptyId storeWithPattern = Some (enriched, h')
       /\ Heap.lookupPathPattern h' enriched = Some p'
       /\ NodePattern.properties (PathPattern.start p') !! "id" = None.
Proof.
  split; [vm_compute; reflexivity |]. split; [vm_compute; reflexivity |].
  do 3 eexists. split; [vm_compute; reflexivity |].
  split; [vm_compute; reflexivity |]. vm_compute. reflexivity.
Qed.

(** The same for a variable that is the empty name, bound to the node
    [p1]. *)
Lemma empty_variable_adds_no_constraint :
  emptyNameBound !! "" = Some (BindingContext.BNode (plainNode "p1" "Person"))
  /\ exists enriched h' p',
       Heap.enrichPatternWithBindings 4 emptyNameBound storeWithUnnamed = Some (enriched, h')
       /\ Heap.lookupPathPattern h' enriched = Some p'
       /\ NodePattern.variable (PathPattern.start p') = Some ""
       /\ NodePattern.properties (PathPattern.start p') !! "id" = None.
Proof.
  split; [vm_compute; reflexivity |].
  do 3 eexists. split; [vm_compute; reflexivity |].
  split; [vm_compute; reflexivity |]. split; vm_compute; reflexivity.
Qed.

(** With a bound node whose id is not empty the constraint is added. *)
Lemma bound_node_adds_constraint :
  exists enriched h' p',
    Heap.enrichPatternWithBindings 4 boundToP1 storeWithPattern = Some (enriched, h')
    /\ Heap.lookupPathPattern h' enriched = Some p'
    /\ NodePattern.properties (PathPattern.start p') !! "id" = Some (VStr "p1")
    /\ Heap.lookupPathPattern h' 4 = Some noSegmentsNamed.
Proof.
  do 3 eexists. split; [vm_compute; reflexivity |].
  split; [vm_compute; reflexivity |]. split; vm_compute; reflexivity.
Qed.

(** C10, counterexample.  On nested arrays the array check of
    [valuesMatch] recurses: with coercion disabled, the value 5 matches
    [[5]] though no element of that array is equal to 5. *)
Lemma nested_array_matches_deep :
  enableTypeCoercion (options defaultMatcher) = false
  /\ isArray (VNum 5) = false
  /\ valuesMatch (options defaultMatcher) (VArr [VArr [VNum 5]]) (VNum 5) = true
  /\ ~ exists item, In item [VArr [VNum 5]] /\ strict_eq item (VNum 5) = true.
Proof.
  split; [reflexivity |]. split; [reflexivity |].
  split; [vm_compute; reflexivity |].
  intros (item & [<- | []] & Heq). discriminate.
Qed.

(** The search produces a path once for each way of splitting it between
    two variable-length segments; the deduplication keeps one.  On
    a -> b -> c -> d the path from a to d is produced twice. *)
Lemma dedup_collapses_splits :
  List.map pathToString
    (bfsResults (options defaultMatcher) chain4 (PathPattern.segments twoVariableSegments)
                (fst (initialNodesOf defaultMatcher chain4 twoVariableSegments)))
  = ["a,b,c|a-R-b,b-R-c"; "a,b,c,d|a-R-b,b-R-c,c-R-d"; "a,b,c,d|a-R-b,b-R-c,c-R-d";
     "b,c,d|b-R-c,c-R-d"]
  /\ List.map pathToString (fst (findMatchingPaths defaultMatcher chain4 twoVariableSegments))
     = ["a,b,c|a-R-b,b-R-c"; "a,b,c,d|a-R-b,b-R-c,c-R-d"; "b,c,d|b-R-c,c-R-d"].
Proof. split; vm_compute; reflexivity. Qed.

(** The theorems that carry hypotheses, at a concrete input. *)

(** C5, witness. *)
Lemma findMatchingPaths_hop_bounds_witness :
  Forall (fun p =>
            (exists runs,
                concat runs = Path.edges p
                /\ Forall2 (fun run s =>
                              1 <= length run <= 2
                              /\ Forall (edgeFits (options defaultMatcher) s) run)
                           runs (PathPattern.segments upToTwoHops))
            /\ length (Path.edges p) <= maxPathDepth (options defaultMatcher))
         (fst (findMatchingPaths defaultMatcher chain3 upToTwoHops)).
Proof.
  apply (findMatchingPaths_hop_bounds defaultMatcher chain3 upToTwoHops 2).
  - lia.
  - intros s [<- | []]. reflexivity.
Defined.

(** C6, witness. *)
Lemma findMatchingPaths_result_limit_witness :
  length (fst (findMatchingPaths limitOne chain3 hopsUnspecified))
  <= maxPathResults (options limitOne)
  /\ (forall c t d,
         maxPathResults (options (newPatternMatcher (mkOptionsArg c t d None))) = 1000).
Proof.
  apply (findMatchingPaths_result_limit limitOne chain3 hopsUnspecified).
  discriminate.
Defined.

(** C7, witness. *)
Lemma findMatchingPaths_deduplicated_witness :
  let returned := fst (findMatchingPaths defaultMatcher twoCycle twoFixedHops) in
  let produced := bfsResults (options defaultMatcher) twoCycle
                             (PathPattern.segments twoFixedHops)
                             (fst (initialNodesOf defaultMatcher twoCycle twoFixedHops)) in
  NoDup (List.map pathToString returned)
  /\ (PathPattern.segments twoFixedHops <> [] ->
      sublist returned produced
      /\ (forall p, p ∈ produced -> pathToString p ∈ List.map pathToString returned)
      /\ (forall p, p ∈ returned ->
            exists l1 l2, produced = l1 ++ p :: l2
                          /\ pathToString p ∉ List.map pathToString l1)).
Proof.
  apply (findMatchingPaths_deduplicated defaultMatcher twoCycle twoFixedHops).
  left. discriminate.
Defined.

(** C8, witness. *)
Lemma clearCache_same_results_witness :
  (forall pattern : NodePattern.t,
      fst (findMatchingNodes
             (clearCache (snd (findMatchingNodes defaultMatcher onePerson pattern)))
             onePerson pattern)
      = fst (findMatchingNodes defaultMatcher onePerson pattern))
  /\ (forall pattern : PathPattern.t,
         fst (findMatchingPaths
                (clearCache (snd (findMatchingPaths defaultMatcher onePerson pattern)))
                onePerson pattern)
         = fst (findMatchingPaths defaultMatcher onePerson pattern)).
Proof.
  apply (clearCache_same_results defaultMatcher onePerson).
  intros label nodeIds Hl. vm_compute in Hl. discriminate.
Defined.

(** C9, witness. *)
Lemma enrichPatternWithBindings_clone_with_ids_witness :
  exists enriched h',
    Heap.enrichPatternWithBindings 9 boundToP1P2 storeWithSegment = Some (enriched, h')
    /\ storeWithSegment !! enriched = None
    /\ (forall l o, storeWithSegment !! l = Some o -> h' !! l = Some o)
    /\ Heap.lookupPathPattern h' 9 = Some oneSegmentNamed
    /\ Heap.lookupPathPattern h' enriched
       = Some (enrichedPatternSpec boundToP1P2 oneSegmentNamed).
Proof.
  apply (HeapFacts.enrichPatternWithBindings_clone_with_ids
           storeWithSegment 9 boundToP1P2 oneSegmentNamed).
  vm_compute. reflexivity.
Defined.

(** C10, witness. *)
Lemma valuesMatch_array_is_membership_witness :
  (valuesMatch (options defaultMatcher) (VArr [VStr "red"; VStr "blue"]) (VStr "blue") = true
   <-> exists item, In item [VStr "red"; VStr "blue"] /\ occursIn (VStr "blue") item)
  /\ (valuesMatch (options defaultMatcher) (VArr [VStr "red"; VStr "blue"]) (VStr "blue")
      = true
      <-> exists item, In item [VStr "red"; VStr "blue"]
                       /\ strict_eq item (VStr "blue") = true).
Proof.
  destruct (valuesMatch_array_is_membership (options defaultMatcher)
              [VStr "red"; VStr "blue"] (VStr "blue") eq_refl eq_refl) as [Hdeep Hflat].
  split; [exact Hdeep |]. apply Hflat. repeat constructor.
Defined.


(** ** The search in full: the hops go along edges of the graph *)

Section FullSearchFacts.
Context `{JSBuiltins}.
Variable o : Options.
Variable graph : Graph.t.
Variable segments : list Segment.t.

Lemma strict_eq_VStr (s : string) (v : Value) :
  strict_eq (VStr s) v = true -> v = VStr s.
Proof.
  destruct v; simpl; try discriminate.
  intros Heq. apply String.eqb_eq in Heq. congruence.
Qed.

Lemma hopFull_emits (st : QueueState) (p : Path.t) :
  emitsFull o graph segments st p -> emits o graph segments st p.
Proof.
  intros [s e n Hhop Hfinal Hmin Hmatch ->].
  eapply emits_complete; eauto using hopFull_hop.
Qed.

Lemma hopFull_successor (st st' : QueueState) :
  successorFull o graph segments st st' -> successor o graph segments st st'.
Proof.
  intros [s e n Hhop Hv Hlt Hfresh -> | s e n Hhop Hmin Hmatch Hnext Hfresh ->].
  - eapply successor_extend; eauto using hopFull_hop.
  - eapply successor_advance; eauto using hopFull_hop.
Qed.

Ltac solve_appended_full :=
  first [ exists []; rewrite app_nil_r; split; [reflexivity | constructor]
        | eexists; split; [reflexivity |];
          repeat (first [apply List.Forall_nil | apply List.Forall_cons]);
          first [ eapply emitsFull_complete; eauto; fail
                | eapply successorFull_extend; eauto; fail
                | eapply successorFull_advance; eauto; fail ]
        | rewrite <- app_assoc; eexists; split; [reflexivity |];
          repeat (first [apply List.Forall_nil | apply List.Forall_cons]);
          first [ eapply successorFull_extend; eauto; fail
                | eapply successorFull_advance; eauto; fail ] ].

Lemma edgeStep_full_spec (st : QueueState) (currentSegment : Segment.t) (edge : Edge.t)
      (results : list Path.t) (queue : list QueueState)
      (ctl : Ctl) (results' : list Path.t) (queue' : list QueueState) :
  segments !! segmentIdx st = Some currentSegment ->
  length (Path.edges (currentPath st)) < maxPathDepth o ->
  In edge (getCandidateEdges graph (Node.id (currentNode st))
             (RelationshipPattern.direction (Segment.relationship currentSegment))) ->
  edgeStep o graph segments st currentSegment edge results queue
  = (ctl, (results', queue')) ->
  (exists ps, results' = results ++ ps /\ Forall (emitsFull o graph segments st) ps)
  /\ (exists qs, queue' = queue ++ qs /\ Forall (successorFull o graph segments st) qs).
Proof.
  intros Hseg Hdepth Hcand. unfold edgeStep.
  destruct (getNeighborNode _ _ _ _) as [neighborNode |] eqn:Hnb.
  2: { intros [= <- <- <-]. split; exists []; rewrite app_nil_r; auto. }
  destruct (matchesRelationshipPattern _ _ _ _ _) eqn:Hrel; simpl negb; cbv iota.
  2: { intros [= <- <- <-]. split; exists []; rewrite app_nil_r; auto. }
  assert (Hhop0 : hop o graph segments st currentSegment edge neighborNode)
    by (constructor; assumption).
  destruct (match NodePattern.properties (Segment.node currentSegment) !! "id" with
            | Some expectedId => _ | None => false end) eqn:Hid.
  { intros [= <- <- <-]. split; exists []; rewrite app_nil_r; auto. }
  assert (Hhop : hopFull o graph segments st currentSegment edge neighborNode).
  { constructor; [assumption | assumption |].
    intros v Hv. rewrite Hv in Hid. apply negb_false_iff in Hid.
    apply strict_eq_VStr. exact Hid. }
  clear Hhop0 Hid.
  set (newPath := {| Path.nodes := _; Path.edges := _ |}).
  change newPath with (extendPath (currentPath st) edge neighborNode) in *.
  clear newPath.
  destruct (Nat.leb_spec (length segments) (segmentIdx st + 1)) as [Hfinal | Hfinal];
  destruct (Nat.leb_spec (minHopsOf (Segment.relationship currentSegment))
                         (varHopCount st + 1)) as [Hmin | Hmin];
  destruct (matchesNodePattern o neighborNode (Segment.node currentSegment)) eqn:Hmatch;
  destruct (isVariable (Segment.relationship currentSegment)) eqn:Hvar;
  destruct (Nat.ltb_spec (varHopCount st + 1)
                         (maxHopsTraversal o (Segment.relationship currentSegment)))
    as [Hmax | Hmax];
  destruct (bool_decide (Node.id neighborNode ∈ visitedInPath st)) eqn:Hcyc;
  try apply bool_decide_eq_false in Hcyc;
  cbn [andb negb];
  try (destruct (pushResult_cases o results (extendPath (currentPath st) edge neighborNode))
        as [[-> Hlt] | [-> Hge]]);
  repeat match goal with
         | |- context [Nat.leb ?a ?b] => destruct (Nat.leb a b)
         end;
  intros Heq; inversion Heq; subst; clear Heq;
  split; solve_appended_full.
Qed.

Lemma edgeLoop_full_spec (st : QueueState) (currentSegment : Segment.t)
      (candidateEdges : list Edge.t) :
  segments !! segmentIdx st = Some currentSegment ->
  length (Path.edges (currentPath st)) < maxPathDepth o ->
  incl candidateEdges
       (getCandidateEdges graph (Node.id (currentNode st))
          (RelationshipPattern.direction (Segment.relationship currentSegment))) ->
  forall results queue results' queue',
    edgeLoop o graph segments st currentSegment candidateEdges results queue
    = (results', queue') ->
    (exists ps, results' = results ++ ps /\ Forall (emitsFull o graph segments st) ps)
    /\ (exists qs, queue' = queue ++ qs /\ Forall (successorFull o graph segments st) qs).
Proof.
  intros Hseg Hdepth.
  induction candidateEdges as [| edge rest IH]; intros Hincl results queue results' queue'.
  - simpl. intros [= <- <-]. split; exists []; rewrite app_nil_r; auto.
  - simpl.
    destruct (edgeStep o graph segments st currentSegment edge results queue)
      as [ctl [results1 queue1]] eqn:Hstep.
    apply edgeStep_full_spec in Hstep;
      [| assumption | assumption | apply Hincl; left; reflexivity].
    destruct Hstep as [(ps1 & -> & Hps1) (qs1 & -> & Hqs1)].
    destruct ctl.
    + intros [= <- <-]. split; eauto.
    + intros Hloop. apply IH in Hloop.
      2: { intros e He. apply Hincl. right. exact He. }
      destruct Hloop as [(ps2 & -> & Hps2) (qs2 & -> & Hqs2)].
      split; [exists (ps1 ++ ps2) | exists (qs1 ++ qs2)];
        rewrite app_assoc; (split; [reflexivity | apply Forall_app; auto]).
Qed.

Lemma processState_full_spec (st : QueueState) (results : list Path.t)
      (queue : list QueueState) (results' : list Path.t) (queue' : list QueueState) :
  processState o graph segments st results queue = (results', queue') ->
  (exists ps, results' = results ++ ps /\ Forall (emitsFull o graph segments st) ps)
  /\ (exists qs, queue' = queue ++ qs /\ Forall (successorFull o graph segments st) qs).
Proof.
  unfold processState.
  destruct (segments !! segmentIdx st) as [currentSegment |] eqn:Hseg.
  2: { intros [= <- <-]. split; exists []; rewrite app_nil_r; auto. }
  destruct (Nat.leb_spec (maxPathDepth o) (length (Path.edges (currentPath st)))).
  { intros [= <- <-]. split; exists []; rewrite app_nil_r; auto. }
  apply edgeLoop_full_spec; [assumption | assumption | apply incl_refl].
Qed.

(** Invariants of the search, over the hops described in full. *)
Section FullInvariant.
Variable I : QueueState -> Prop.
Variable Q : Path.t -> Prop.
Hypothesis I_successor :
  forall st st', I st -> successorFull o graph segments st st' -> I st'.
Hypothesis I_emits :
  forall st p, I st -> emitsFull o graph segments st p -> Q p.

Lemma bfsLoop_full_invariant (fuel : nat) :
  forall queue results,
    Forall I queue -> Forall Q results ->
    Forall Q (bfsLoop o graph segments fuel queue results).
Proof.
  induction fuel as [| fuel IH]; intros queue results Hq Hr.
  - destruct queue; simpl; [assumption |].
    destruct (Nat.ltb _ _); assumption.
  - destruct queue as [| st rest]; simpl; [assumption |].
    destruct (Nat.ltb _ _); [| assumption].
    destruct (processState o graph segments st results rest)
      as [results' queue'] eqn:Hp.
    apply processState_full_spec in Hp.
    destruct Hp as [(ps & -> & Hps) (qs & -> & Hqs)].
    apply Forall_cons in Hq. destruct Hq as [Hst Hrest].
    assert (Hr' : Forall Q (results ++ ps)).
    { apply Forall_app. split; [assumption |].
      eapply Forall_impl; [exact Hps |]. intros p Hp. eapply I_emits; eauto. }
    destruct (Nat.leb _ _); [assumption |].
    apply IH; [| assumption].
    apply Forall_app. split; [assumption |].
    eapply Forall_impl; [exact Hqs |]. intros st' Hs. eapply I_successor; eauto.
Qed.

Lemma bfsFold_full_invariant (fuel : nat) (initialNodes : list Node.t) :
  (forall startNode, In startNode initialNodes -> I (initialState startNode)) ->
  forall results,
    Forall Q results ->
    Forall Q (fold_left (fun results startNode =>
                           bfsLoop o graph segments fuel [initialState startNode] results)
                        initialNodes results).
Proof.
  induction initialNodes as [| startNode rest IH]; intros Hinit results Hr;
    cbn [fold_left].
  - assumption.
  - apply IH.
    + intros n Hn. apply Hinit. right. assumption.
    + apply bfsLoop_full_invariant; [| assumption].
      constructor; [| constructor]. apply Hinit. left. reflexivity.
Qed.

Lemma bfsResults_full_invariant (initialNodes : list Node.t) :
  (forall startNode, In startNode initialNodes -> I (initialState startNode)) ->
  Forall Q (bfsResults o graph segments initialNodes).
Proof.
  intros Hinit. unfold bfsResults.
  apply bfsFold_full_invariant; [assumption | constructor].
Qed.
End FullInvariant.
End FullSearchFacts.


(** ** The search in full: returned paths match the pattern *)

Section MatchFacts.
Context `{JSBuiltins}.
Variable o : Options.
Variable graph : Graph.t.
Variable segments : list Segment.t.

Lemma getCandidateEdges_In (i : NodeId) (d : Direction) (edge : Edge.t) :
  In edge (getCandidateEdges graph i d) -> In edge (Graph.edges graph).
Proof.
  unfold getCandidateEdges, Graph.getEdgesForNode. rewrite filter_In. tauto.
Qed.

Lemma getNeighborNode_joins (n : Node.t) (edge : Edge.t) (d : Direction) (n' : Node.t) :
  getNeighborNode graph (Node.id n) edge d = Some n' ->
  In n' (Graph.nodes graph) /\ joins d n edge n'.
Proof.
  unfold getNeighborNode.
  destruct (String.eqb_spec (Edge.source edge) (Node.id n)) as [Hs | Hs];
    destruct (String.eqb_spec (Edge.target edge) (Node.id n)) as [Ht | Ht];
    destruct d; cbn [andb]; try discriminate;
    intros Hget; apply getNode_Some in Hget; destruct Hget as [Hin Hid];
    (split; [exact Hin |]); simpl; auto.
Qed.

Lemma hopFull_hopsTo (st : QueueState) (s : Segment.t) (edge : Edge.t) (n : Node.t) :
  hopFull o graph segments st s edge n ->
  hopsTo o graph s (currentNode st) edge n.
Proof.
  intros [Hhop Hcand Hid].
  destruct (getNeighborNode_joins _ _ _ _ (hop_neighbor _ _ _ _ _ _ _ Hhop)) as [Hin Hj].
  repeat split.
  - eapply getCandidateEdges_In. exact Hcand.
  - exact Hin.
  - exact Hj.
  - apply (hop_relationship _ _ _ _ _ _ _ Hhop).
  - exact Hid.
Qed.

Lemma matchInvariant_initial (initialNodes : list Node.t) (startNode : Node.t) :
  In startNode initialNodes ->
  matchInvariant o graph segments initialNodes (initialState startNode).
Proof.
  intros Hin. exists startNode, [], [], startNode, [], []. simpl.
  rewrite take_0. repeat split; try assumption; constructor.
Qed.

Lemma take_snoc_lookup (i : nat) (s : Segment.t) :
  segments !! i = Some s -> take (i + 1) segments = take i segments ++ [s].
Proof.
  intros Hs. replace (i + 1) with (S i) by lia. apply take_S_r. exact Hs.
Qed.

(** The hop that follows a queued state stays within the hop constraints
    of the segment the state works on. *)
Lemma hopsWithin_next (st : QueueState) (s : Segment.t) :
  hopsInvariant o segments st ->
  segments !! segmentIdx st = Some s ->
  minHopsOf (Segment.relationship s) <= varHopCount st + 1 ->
  hopsWithin o (varHopCount st + 1) s.
Proof.
  intros [_ Hvar] Hseg Hmin. unfold hopsWithin. repeat split.
  - lia.
  - exact Hmin.
  - intros Hfixed. destruct Hvar as [-> | (s' & Hs' & Hv & _)]; [reflexivity |].
    congruence.
  - destruct Hvar as [-> | (s' & Hs' & _ & Hlt)]; [simpl; lia |].
    assert (s' = s) by congruence. subst s'. lia.
Qed.

(** With [maxHops] 0 the constraints leave one hop, not none. *)
Lemma hopsWithin_zero_maxHops (k : nat) (s : Segment.t) :
  RelationshipPattern.maxHops (Segment.relationship s) = Some 0 ->
  hopsWithin o k s -> k = 1.
Proof.
  intros Hmax (Hone & _ & _ & Hle).
  unfold maxHopsTraversal in Hle. rewrite Hmax in Hle. simpl in Hle. lia.
Qed.

(** The constraints of [hopsWithin] are at least those of [hopsOK]. *)
Lemma hopsWithin_hopsOK (k : nat) (s : Segment.t) :
  hopsWithin o k s -> hopsOK k s.
Proof.
  intros (Hone & Hmin & Hfixed & Hle). repeat split; try assumption.
  intros h Hh Hpos. unfold maxHopsTraversal in Hle. rewrite Hh in Hle. lia.
Qed.

Lemma matchInvariant_successor (initialNodes : list Node.t) (st st' : QueueState) :
  hopsInvariant o segments st ->
  matchInvariant o graph segments initialNodes st ->
  successorFull o graph segments st st' ->
  matchInvariant o graph segments initialNodes st'.
Proof.
  intros Hhops (n0 & es & ms & m & es' & ms' & Hn0 & Hnodes & Hedges & Hpm & Hlen & Hch) Hs.
  destruct Hs as [s e n Hhop Hv Hlt _ -> | s e n Hhop Hmin Hmatch Hnext _ ->].
  - pose proof (hop_segment _ _ _ _ _ _ _ (hopFull_hop _ _ _ _ _ _ _ Hhop)) as Hseg.
    exists n0, es, ms, m, (es' ++ [e]), (ms' ++ [n]). simpl.
    rewrite Hnodes, Hedges, length_app. simpl.
    repeat split; try assumption; try lia;
      try (rewrite <- ?app_assoc; reflexivity).
    intros s' Hs'. assert (s' = s) by congruence. subst s'.
    eapply chain_snoc; [apply Hch; assumption | apply hopFull_hopsTo; exact Hhop].
  - pose proof (hop_segment _ _ _ _ _ _ _ (hopFull_hop _ _ _ _ _ _ _ Hhop)) as Hseg.
    exists n0, (es ++ (es' ++ [e])), (ms ++ (ms' ++ [n])), n, [], []. simpl.
    rewrite Hnodes, Hedges, !app_nil_r. simpl.
    repeat split; try assumption; try constructor;
      try (rewrite <- ?app_assoc; reflexivity).
    rewrite (take_snoc_lookup _ _ Hseg).
    eapply pathMatches_snoc; [exact Hpm | | | exact Hmatch].
    + eapply chain_snoc; [apply Hch; assumption | apply hopFull_hopsTo; exact Hhop].
    + rewrite length_app, Hlen. simpl. apply (hopsWithin_next st s); assumption.
Qed.

Lemma matchInvariant_emits (initialNodes : list Node.t) (st : QueueState) (p : Path.t) :
  hopsInvariant o segments st ->
  matchInvariant o graph segments initialNodes st ->
  emitsFull o graph segments st p ->
  matchesFrom o graph segments initialNodes p.
Proof.
  intros Hhops (n0 & es & ms & m & es' & ms' & Hn0 & Hnodes & Hedges & Hpm & Hlen & Hch) He.
  destruct He as [s e n Hhop Hfinal Hmin Hmatch ->].
  pose proof (hop_segment _ _ _ _ _ _ _ (hopFull_hop _ _ _ _ _ _ _ Hhop)) as Hseg.
  exists n0, (ms ++ (ms' ++ [n])), n. simpl.
  rewrite Hnodes, Hedges. simpl. rewrite <- !app_assoc.
  repeat split; try assumption.
  assert (Hlt : segmentIdx st < length segments) by (apply lookup_lt_is_Some; eauto).
  assert (Hall : segments = take (segmentIdx st) segments ++ [s]).
  { rewrite <- (take_snoc_lookup _ _ Hseg). symmetry. apply take_ge. lia. }
  rewrite Hall at 1.
  eapply pathMatches_snoc; [exact Hpm | | | exact Hmatch].
  - eapply chain_snoc; [apply Hch; assumption | apply hopFull_hopsTo; exact Hhop].
  - rewrite length_app, Hlen. simpl. apply (hopsWithin_next st s); assumption.
Qed.

Lemma bfsResults_matchesFrom (initialNodes : list Node.t) :
  Forall (matchesFrom o graph segments initialNodes)
         (bfsResults o graph segments initialNodes).
Proof.
  apply (bfsResults_full_invariant o graph segments
           (fun st => hopsInvariant o segments st
                      /\ matchInvariant o graph segments initialNodes st)).
  - intros st st' [Hh Hm] Hs. split.
    + eapply hopsInvariant_successor; [exact Hh | apply hopFull_successor; exact Hs].
    + eapply matchInvariant_successor; eassumption.
  - intros st p [Hh Hm] He. eapply matchInvariant_emits; eassumption.
  - intros startNode Hin. split.
    + apply hopsInvariant_initial.
    + apply matchInvariant_initial. exact Hin.
Qed.
End MatchFacts.


(** ** Returned paths match the pattern *)

Section PathMatchFacts.
Context `{JSBuiltins}.

(** A node pattern with an [id] constraint matches the node of that id
    only. *)
Lemma matchesNodePattern_idAllowed (o : Options) (node : Node.t) (pattern : NodePattern.t) :
  matchesNodePattern o node pattern = true -> idAllowed pattern node.
Proof.
  unfold matchesNodePattern, idAllowed. intros Hm v Hv.
  destruct (forallb _ (NodePattern.labels pattern)); [| discriminate].
  cbn [negb] in Hm.
  assert (Hsize : size (NodePattern.properties pattern) <> 0).
  { intros Hz. apply map_size_empty_iff in Hz. rewrite Hz in Hv.
    rewrite lookup_empty in Hv. discriminate. }
  destruct (Nat.ltb_spec 0 (size (NodePattern.properties pattern))); [| lia].
  unfold nodePropertiesMatch in Hm.
  destruct (Node.data node) as [nodeData |].
  - rewrite forallb_forall in Hm.
    specialize (Hm ("id", v)). simpl in Hm.
    apply strict_eq_VStr. apply Hm.
    apply list_elem_of_In. apply elem_of_map_to_list. exact Hv.
  - apply Nat.eqb_eq in Hm. lia.
Qed.

Lemma initialNodesOf_sound (m : PatternMatcher) (graph : Graph.t) (pattern : PathPattern.t)
      (node : Node.t) :
  In node (fst (initialNodesOf m graph pattern)) ->
  In node (Graph.nodes graph)
  /\ matchesNodePattern (options m) node (PathPattern.start pattern) = true.
Proof.
  unfold initialNodesOf.
  pose proof (findMatchingNodes_sound m graph (PathPattern.start pattern) node) as Hs.
  destruct (findMatchingNodes m graph (PathPattern.start pattern)) as [initialNodes m'].
  simpl in *.
  destruct (NodePattern.properties (PathPattern.start pattern) !! "id").
  - rewrite filter_In. intros [Hin _]. apply Hs in Hin. tauto.
  - intros Hin. apply Hs in Hin. tauto.
Qed.

Lemma bfsResults_distinctButLast (o : Options) (graph : Graph.t)
      (segments : list Segment.t) (initialNodes : list Node.t) :
  Forall distinctButLast (bfsResults o graph segments initialNodes).
Proof.
  apply (bfsResults_invariant o graph segments visitedInvariant).
  - apply visitedInvariant_successor.
  - apply visitedInvariant_emits.
  - intros startNode _. apply visitedInvariant_initial.
Qed.

(** The paths [findMatchingPaths] returns start at an initial node, match
    the segments and repeat no node but the last. *)
Lemma findMatchingPaths_matchesFrom (m : PatternMatcher) (graph : Graph.t)
      (pattern : PathPattern.t) :
  Forall (fun p => matchesFrom (options m) graph (PathPattern.segments pattern)
                     (fst (initialNodesOf m graph pattern)) p
                   /\ distinctButLast p)
         (fst (findMatchingPaths m graph pattern)).
Proof.
  rewrite findMatchingPaths_fst.
  destruct (PathPattern.segments pattern) as [| s0 rest] eqn:Hsegs.
  - apply Forall_forall. intros p Hp. apply list_elem_of_In, in_map_iff in Hp.
    destruct Hp as (node & <- & Hin). split.
    + exists node, [], node. simpl. repeat split; [assumption | constructor].
    + unfold distinctButLast. simpl. apply NoDup_nil_2.
  - apply uniqueResults_Forall. apply Forall_and. split.
    + apply bfsResults_matchesFrom.
    + apply bfsResults_distinctButLast.
Qed.

(** *** Walks *)

Lemma joins_both (d : Direction) (n : Node.t) (edge : Edge.t) (n' : Node.t) :
  joins d n edge n' -> joins both n edge n'.
Proof. destruct d; simpl; tauto. Qed.

Lemma isWalk_length (d : Direction) (es : list Edge.t) :
  forall n ms, isWalk d n es ms -> length ms = length es.
Proof.
  induction es as [| e es IH]; intros n [| m ms]; simpl; try tauto.
  intros [_ Hw]. f_equal. eapply IH. exact Hw.
Qed.

Lemma isWalk_app (d : Direction) (es : list Edge.t) :
  forall n ms l es' ms',
    isWalk d n es ms -> last (n :: ms) = Some l -> isWalk d l es' ms' ->
    isWalk d n (es ++ es') (ms ++ ms').
Proof.
  induction es as [| e es IH]; intros n [| m ms] l es' ms'; simpl; try tauto.
  - intros _ [= <-] Hw. exact Hw.
  - intros [Hj Hw] Hl Hw'. split; [exact Hj |].
    apply (IH m ms l); [exact Hw | | exact Hw'].
    exact Hl.
Qed.

Lemma last_path (n0 m m' : Node.t) (ms ms' : list Node.t) :
  last (n0 :: ms) = Some m -> last (m :: ms') = Some m' ->
  last (n0 :: ms ++ ms') = Some m'.
Proof.
  intros Hl Hl'. change (n0 :: ms ++ ms') with ((n0 :: ms) ++ ms').
  rewrite last_app. destruct ms' as [| x l].
  - simpl in *. congruence.
  - rewrite last_cons_cons in Hl'. rewrite Hl'. reflexivity.
Qed.

Section Walks.
Variable o : Options.
Variable graph : Graph.t.
Variable d : Direction.

Lemma allows_joins (s : Segment.t) (n : Node.t) (edge : Edge.t) (n' : Node.t) :
  allows d s ->
  joins (RelationshipPattern.direction (Segment.relationship s)) n edge n' ->
  joins d n edge n'.
Proof.
  intros [-> | <-] Hj; [eapply joins_both; exact Hj | exact Hj].
Qed.

Lemma chain_isWalk (s : Segment.t) (n : Node.t) (es : list Edge.t) (ms : list Node.t)
      (l : Node.t) :
  allows d s ->
  chain o graph s n es ms l ->
  isWalk d n es ms
  /\ last (n :: ms) = Some l
  /\ Forall (fun x => In x (Graph.nodes graph) /\ idAllowed (Segment.node s) x) ms
  /\ Forall (fun e => In e (Graph.edges graph)) es.
Proof.
  intros Hd Hc. induction Hc as [n | n es ms m e m' Hc IH Hhop].
  - simpl. repeat split; constructor.
  - destruct IH as (Hw & Hl & Hns & Hes).
    destruct Hhop as (He & Hm' & Hj & _ & Hid).
    repeat split.
    + apply (isWalk_app d es n ms m [e] [m']); [exact Hw | exact Hl |].
      simpl. split; [| exact I]. eapply allows_joins; eassumption.
    + change (n :: ms ++ [m']) with ((n :: ms) ++ [m']). apply last_snoc.
    + apply Forall_app. split; [exact Hns |]. repeat constructor; assumption.
    + apply Forall_app. split; [exact Hes |]. repeat constructor; assumption.
Qed.

Lemma pathMatches_isWalk (segs : list Segment.t) (n0 : Node.t) (es : list Edge.t)
      (ms : list Node.t) (l : Node.t) :
  Forall (allows d) segs ->
  pathMatches o graph segs n0 es ms l ->
  isWalk d n0 es ms
  /\ last (n0 :: ms) = Some l
  /\ Forall (fun x => In x (Graph.nodes graph)) ms
  /\ Forall (fun e => In e (Graph.edges graph)) es.
Proof.
  intros Hd Hp.
  induction Hp as [n0 | segs s n0 es ms m es' ms' m' Hp IH Hc Hk Hm].
  - simpl. repeat split; constructor.
  - apply Forall_app in Hd. destruct Hd as [Hsegs Hs].
    apply Forall_cons in Hs. destruct Hs as [Hs _].
    destruct (IH Hsegs) as (Hw & Hl & Hns & Hes).
    destruct (chain_isWalk s m es' ms' m' Hs Hc) as (Hw' & Hl' & Hns' & Hes').
    repeat split.
    + eapply isWalk_app; eassumption.
    + eapply last_path; eassumption.
    + apply Forall_app. split; [exact Hns |].
      eapply Forall_impl; [exact Hns' |]. simpl. tauto.
    + apply Forall_app. split; assumption.
Qed.
End Walks.

(** The last node of a match of [segs ++ [s]] matches the node pattern
    of [s]. *)
Lemma pathMatches_snoc_inv (o : Options) (graph : Graph.t) (segs : list Segment.t)
      (s : Segment.t) (n0 : Node.t) (es : list Edge.t) (ms : list Node.t) (l : Node.t) :
  pathMatches o graph (segs ++ [s]) n0 es ms l ->
  matchesNodePattern o l (Segment.node s) = true.
Proof.
  intros Hp. inversion Hp as [n0' Hnil | segs' s' n0' es1 ms1 m es' ms' m' Hp' Hc Hk Hm Hsegs].
  - destruct segs; discriminate.
  - apply app_inj_tail in Hsegs. destruct Hsegs as [_ ->]. exact Hm.
Qed.
End PathMatchFacts.


Section PathTheorems.
Context `{JSBuiltins}.

(** X1.  Every path [findMatchingPaths] returns matches the pattern in the
    graph: it starts at a node of the graph that matches the start
    pattern, and its edges split into one chain of hops per segment, in
    order; every hop of a chain goes along an edge of the graph to a node
    of the graph, in the direction of the segment's relationship, the
    edge matching the relationship pattern; the last node of the chain
    matches the segment's node pattern.  The number [k] of hops of a
    chain is within the hop constraints as the search applies them
    ([hopsWithin]): [k >= 1] and [k >= minHops]; [k = 1] on a segment
    that is not variable; and [k <= max 1 b], where the bound [b] is
    [min maxHops maxPathDepth], or [maxPathDepth] when [maxHops] is
    absent.  So [maxHops = 0] allows one hop, not none. *)
Theorem findMatchingPaths_sound (m : PatternMatcher) (graph : Graph.t)
        (pattern : PathPattern.t) :
  Forall (fun p =>
            exists n0 ms last,
              Path.nodes p = n0 :: ms
              /\ In n0 (Graph.nodes graph)
              /\ matchesNodePattern (options m) n0 (PathPattern.start pattern) = true
              /\ pathMatches (options m) graph (PathPattern.segments pattern)
                   n0 (Path.edges p) ms last)
         (fst (findMatchingPaths m graph pattern)).
Proof.
  eapply Forall_impl; [apply findMatchingPaths_matchesFrom |].
  intros p [(n0 & ms & last & Hin & Hnodes & Hpm) _]. simpl in *.
  apply initialNodesOf_sound in Hin. destruct Hin as [Hg Hm].
  exists n0, ms, last. auto.
Qed.

(** X2.  Every path [findMatchingPaths] returns is a walk in the graph:
    its nodes and edges are nodes and edges of the graph, it has one node
    more than it has edges, and each edge joins the node before it to the
    node after it.  When all segments have the direction [d], every edge
    joins them the way [d] asks: for [outgoing] the edge leads from the
    node before it to the node after it, for [incoming] the other way
    round. *)
Theorem findMatchingPaths_walk (m : PatternMatcher) (graph : Graph.t)
        (pattern : PathPattern.t) (d : Direction) :
  Forall (allows d) (PathPattern.segments pattern) ->
  Forall (fun p =>
            Forall (fun n => In n (Graph.nodes graph)) (Path.nodes p)
            /\ Forall (fun e => In e (Graph.edges graph)) (Path.edges p)
            /\ length (Path.nodes p) = length (Path.edges p) + 1
            /\ exists n0 ms, Path.nodes p = n0 :: ms /\ isWalk d n0 (Path.edges p) ms)
         (fst (findMatchingPaths m graph pattern)).
Proof.
  intros Hd.
  eapply Forall_impl; [apply findMatchingPaths_matchesFrom |].
  intros p [(n0 & ms & last & Hin & Hnodes & Hpm) _]. simpl in *.
  apply initialNodesOf_sound in Hin. destruct Hin as [Hg _].
  destruct (pathMatches_isWalk (options m) graph d _ _ _ _ _ Hd Hpm)
    as (Hw & _ & Hns & Hes).
  rewrite Hnodes. repeat split.
  - constructor; assumption.
  - exact Hes.
  - simpl. rewrite (isWalk_length d _ _ _ Hw). lia.
  - exists n0, ms. auto.
Qed.

(** X3.  With one segment at least, every path [findMatchingPaths]
    returns begins at a node that matches the start pattern and ends at a
    node that matches the node pattern of the last segment; an [id]
    constraint of either pattern is the id of that node. *)
Theorem findMatchingPaths_endpoints (m : PatternMatcher) (graph : Graph.t)
        (pattern : PathPattern.t) (segs : list Segment.t) (s : Segment.t) :
  PathPattern.segments pattern = segs ++ [s] ->
  Forall (fun p =>
            exists first final,
              head (Path.nodes p) = Some first
              /\ last (Path.nodes p) = Some final
              /\ matchesNodePattern (options m) first (PathPattern.start pattern) = true
              /\ matchesNodePattern (options m) final (Segment.node s) = true
              /\ (forall v, NodePattern.properties (PathPattern.start pattern) !! "id"
                            = Some v -> v = VStr (Node.id first))
              /\ (forall v, NodePattern.properties (Segment.node s) !! "id"
                            = Some v -> v = VStr (Node.id final)))
         (fst (findMatchingPaths m graph pattern)).
Proof.
  intros Hsegs.
  eapply Forall_impl; [apply findMatchingPaths_matchesFrom |].
  intros p [(n0 & ms & final & Hin & Hnodes & Hpm) _]. simpl in *.
  apply initialNodesOf_sound in Hin. destruct Hin as [_ Hstart].
  assert (Hall : Forall (allows both) (PathPattern.segments pattern)).
  { apply Forall_forall. intros x _. left. reflexivity. }
  destruct (pathMatches_isWalk (options m) graph both _ _ _ _ _ Hall Hpm)
    as (_ & Hlast & _ & _).
  rewrite Hsegs in Hpm. apply pathMatches_snoc_inv in Hpm.
  exists n0, final. rewrite Hnodes. repeat split; try assumption.
  - apply (matchesNodePattern_idAllowed _ _ _ Hstart).
  - apply (matchesNodePattern_idAllowed _ _ _ Hpm).
Qed.
End PathTheorems.

(** X2, witness. *)
Lemma findMatchingPaths_walk_witness :
  Forall (fun p =>
            Forall (fun n => In n (Graph.nodes chain3)) (Path.nodes p)
            /\ Forall (fun e => In e (Graph.edges chain3)) (Path.edges p)
            /\ length (Path.nodes p) = length (Path.edges p) + 1
            /\ exists n0 ms, Path.nodes p = n0 :: ms
                             /\ isWalk outgoing n0 (Path.edges p) ms)
         (fst (findMatchingPaths defaultMatcher chain3 upToTwoHops)).
Proof.
  apply (findMatchingPaths_walk defaultMatcher chain3 upToTwoHops outgoing).
  apply List.Forall_cons; [right; reflexivity | apply List.Forall_nil].
Defined.

(** X3, witness. *)
Lemma findMatchingPaths_endpoints_witness :
  Forall (fun p =>
            exists first final,
              head (Path.nodes p) = Some first
              /\ last (Path.nodes p) = Some final
              /\ matchesNodePattern (options defaultMatcher) first
                   (PathPattern.start upToTwoHops) = true
              /\ matchesNodePattern (options defaultMatcher) final anyNode = true
              /\ (forall v, NodePattern.properties (PathPattern.start upToTwoHops) !! "id"
                            = Some v -> v = VStr (Node.id first))
              /\ (forall v, NodePattern.properties anyNode !! "id"
                            = Some v -> v = VStr (Node.id final)))
         (fst (findMatchingPaths defaultMatcher chain3 upToTwoHops)).
Proof.
  apply (findMatchingPaths_endpoints defaultMatcher chain3 upToTwoHops []
           (seg (rel None (Some 1) (Some 2)) anyNode)).
  reflexivity.
Defined.


Section PathBoundTheorems.
Context `{JSBuiltins}.

Lemma runs_minEdges (o : Options) (runs : list (list Edge.t)) (segs : list Segment.t) :
  Forall2 (runOK o) runs segs -> minEdges segs <= length (concat runs).
Proof.
  induction 1 as [| run s runs segs [(H1 & Hmin & _) _] _ IH]; simpl.
  - unfold minEdges. simpl. lia.
  - unfold minEdges in *. simpl. rewrite length_app. lia.
Qed.

(** X4.  A pattern whose segments need more edges than [maxPathDepth]
    allows has no match: each segment takes one edge at least, and
    [minHops] edges if that is more; when these add up to more than
    [maxPathDepth], [findMatchingPaths] returns no path. *)
Theorem findMatchingPaths_needs_depth (m : PatternMatcher) (graph : Graph.t)
        (pattern : PathPattern.t) :
  maxPathDepth (options m) < minEdges (PathPattern.segments pattern) ->
  fst (findMatchingPaths m graph pattern) = [].
Proof.
  intros Hdeep.
  pose proof (findMatchingPaths_runSplit m graph pattern) as Hall.
  destruct (fst (findMatchingPaths m graph pattern)) as [| p rest]; [reflexivity |].
  apply Forall_cons in Hall. destruct Hall as [[Hlen (runs & Hcat & Hruns)] _].
  apply runs_minEdges in Hruns. rewrite Hcat in Hruns. lia.
Qed.

Lemma pathMatches_nil_inv (o : Options) (graph : Graph.t) (n0 : Node.t)
      (es : list Edge.t) (ms : list Node.t) (l : Node.t) :
  pathMatches o graph [] n0 es ms l -> es = [] /\ ms = [] /\ l = n0.
Proof.
  intros Hp.
  inversion Hp as [| segs s' n0' es1 ms1 m1 es' ms' m' Hp' Hc Hk Hm Hsegs]; subst.
  - auto.
  - destruct segs; discriminate.
Qed.

Lemma pathMatches_single (o : Options) (graph : Graph.t) (s : Segment.t) (n0 : Node.t)
      (es : list Edge.t) (ms : list Node.t) (l : Node.t) :
  pathMatches o graph [s] n0 es ms l -> chain o graph s n0 es ms l.
Proof.
  intros Hp.
  inversion Hp as [| segs s' n0' es1 ms1 m1 es' ms' m' Hp' Hc Hk Hm Hsegs]; subst.
  destruct segs as [| x segs].
  - simpl in Hsegs. injection Hsegs as ->.
    apply pathMatches_nil_inv in Hp'. destruct Hp' as (-> & -> & ->).
    simpl. exact Hc.
  - destruct segs; discriminate.
Qed.

(** X5.  When the node pattern of a segment has an [id] constraint, the
    check of the constraint applies to every node the search reaches on
    that segment, not to the last one only.  For a pattern of one
    segment: every node of a returned path after the first has the
    required id, and the path has two edges at most, whatever [maxHops]
    is; a variable-length segment does not pass through other nodes on
    its way to the node of that id. *)
Theorem findMatchingPaths_id_constraint_all_hops (m : PatternMatcher) (graph : Graph.t)
        (start : NodePattern.t) (s : Segment.t) (v : Value) :
  NodePattern.properties (Segment.node s) !! "id" = Some v ->
  Forall (fun p =>
            Forall (fun n => v = VStr (Node.id n)) (tail (Path.nodes p))
            /\ length (Path.edges p) <= 2)
         (fst (findMatchingPaths m graph
                 {| PathPattern.start := start; PathPattern.segments := [s] |})).
Proof.
  intros Hid.
  eapply Forall_impl; [apply findMatchingPaths_matchesFrom |].
  intros p [(n0 & ms & final & _ & Hnodes & Hpm) Hdistinct]. simpl in *.
  apply pathMatches_single in Hpm.
  destruct (chain_isWalk (options m) graph both s n0 _ ms final
              (or_introl eq_refl) Hpm) as (Hw & _ & Hns & _).
  assert (Hids : Forall (fun n => v = VStr (Node.id n)) ms).
  { eapply Forall_impl; [exact Hns |]. simpl. intros n [_ Hn]. apply Hn. exact Hid. }
  rewrite Hnodes. simpl. split; [exact Hids |].
  rewrite <- (isWalk_length both _ _ _ Hw).
  unfold distinctButLast in Hdistinct. rewrite Hnodes in Hdistinct.
  destruct ms as [| a [| b [| c r]]]; simpl; try lia.
  exfalso.
  apply Forall_cons in Hids. destruct Hids as [Ha Hids].
  apply Forall_cons in Hids. destruct Hids as [Hb _].
  assert (Hab : Node.id a = Node.id b) by congruence.
  change (removelast (n0 :: a :: b :: c :: r))
    with (n0 :: a :: b :: removelast (c :: r)) in Hdistinct.
  simpl in Hdistinct.
  apply NoDup_cons in Hdistinct. destruct Hdistinct as [_ Hd].
  apply NoDup_cons in Hd. destruct Hd as [Hnot _].
  apply Hnot. rewrite Hab. left.
Qed.
End PathBoundTheorems.

(** X4, witness. *)
Lemma findMatchingPaths_needs_depth_witness :
  fst (findMatchingPaths defaultMatcher chain3 elevenHops) = [].
Proof.
  apply (findMatchingPaths_needs_depth defaultMatcher chain3 elevenHops).
  vm_compute. lia.
Defined.

(** X5, witness. *)
Lemma findMatchingPaths_id_constraint_all_hops_witness :
  Forall (fun p =>
            Forall (fun n => VStr "c" = VStr (Node.id n)) (tail (Path.nodes p))
            /\ length (Path.edges p) <= 2)
         (fst (findMatchingPaths defaultMatcher chain3 upToTwoHopsToC)).
Proof.
  apply (findMatchingPaths_id_constraint_all_hops defaultMatcher chain3 anyNode
           (seg (rel None (Some 1) (Some 2)) (nodeOfId "c")) (VStr "c")).
  reflexivity.
Defined.

(** On the chain a -> b -> c, the pattern [()-[*1..2]->({id: "c"})] finds
    the path from [b] only: the path from [a] passes through [b], whose id
    is not the required one. *)
Example id_constraint_stops_at_intermediate_node :
  List.map pathIds (fst (findMatchingPaths defaultMatcher chain3 upToTwoHopsToC))
  = [["b"; "c"]].
Proof. vm_compute. reflexivity. Qed.


(** ** A pattern of one fixed hop *)

Section OneHopFacts.
Context `{JSBuiltins}.
Variable o : Options.
Variable graph : Graph.t.
Variable s : Segment.t.
Hypothesis s_fixed : isVariable (Segment.relationship s) = false.

Lemma fixed_minHops : minHopsOf (Segment.relationship s) = 1.
Proof.
  unfold isVariable in s_fixed. apply negb_false_iff, andb_true_iff in s_fixed.
  destruct s_fixed as [Hmin _]. apply Nat.eqb_eq in Hmin. exact Hmin.
Qed.

Lemma appendUpTo_app (results rs1 rs2 : list Path.t) :
  appendUpTo o (appendUpTo o results rs1) rs2 = appendUpTo o results (rs1 ++ rs2).
Proof.
  unfold appendUpTo. rewrite <- app_assoc. f_equal.
  rewrite length_app, length_take, take_app.
  f_equal. f_equal.
  destruct (Nat.le_ge_cases (maxPathResults o - length results) (length rs1)); lia.
Qed.

Lemma appendUpTo_full (results rs1 rs2 : list Path.t) :
  maxPathResults o <= length (appendUpTo o results rs1) ->
  appendUpTo o results rs1 = appendUpTo o results (rs1 ++ rs2).
Proof.
  intros Hfull. rewrite <- appendUpTo_app.
  set (r := appendUpTo o results rs1) in *.
  unfold appendUpTo.
  replace (maxPathResults o - length r) with 0 by lia.
  rewrite take_0, app_nil_r. reflexivity.
Qed.

Lemma appendUpTo_nil (results : list Path.t) : appendUpTo o results [] = results.
Proof. unfold appendUpTo. rewrite take_nil, app_nil_r. reflexivity. Qed.

Lemma pushResult_appendUpTo (results : list Path.t) (p : Path.t) :
  pushResult o results p = appendUpTo o results [p].
Proof.
  unfold pushResult, appendUpTo.
  destruct (Nat.ltb_spec (length results) (maxPathResults o)) as [Hlt | Hge].
  - destruct (maxPathResults o - length results) eqn:Hk; [lia |].
    simpl. rewrite take_nil. reflexivity.
  - replace (maxPathResults o - length results) with 0 by lia.
    rewrite app_nil_r. reflexivity.
Qed.

(** One edge out of a start node: the hop's path is pushed if the hop
    passes the checks, nothing is queued, and the loop is left only when
    the limit is reached. *)
Lemma edgeStep_oneHop (startNode : Node.t) (edge : Edge.t)
      (results : list Path.t) (queue : list QueueState) :
  exists ctl,
    edgeStep o graph [s] (initialState startNode) s edge results queue
    = (ctl, (appendUpTo o results (option_list (oneHopPath o graph s startNode edge)), queue))
    /\ (ctl = Break ->
        maxPathResults o
        <= length (appendUpTo o results (option_list (oneHopPath o graph s startNode edge)))).
Proof.
  unfold edgeStep, oneHopPath. cbn [initialState currentNode currentPath segmentIdx varHopCount visitedInPath
       Path.nodes Path.edges app length Nat.add Nat.leb].
  destruct (getNeighborNode _ _ _ _) as [neighborNode |].
  2: { exists Next. cbn [option_list]. rewrite appendUpTo_nil. split; [reflexivity | discriminate]. }
  destruct (matchesRelationshipPattern _ _ _ _ _); cbn [negb andb].
  2: { exists Next. cbn [option_list]. rewrite appendUpTo_nil. split; [reflexivity | discriminate]. }
  destruct (NodePattern.properties (Segment.node s) !! "id") as [expectedId |].
  - destruct (strict_eq (VStr (Node.id neighborNode)) expectedId); cbn [negb andb].
    2: { exists Next. cbn [option_list]. rewrite appendUpTo_nil. split; [reflexivity | discriminate]. }
    rewrite fixed_minHops, s_fixed. simpl Nat.leb. cbn [negb andb].
    destruct (matchesNodePattern o neighborNode (Segment.node s)); cbn [negb andb option_list].
    + rewrite pushResult_appendUpTo.
      destruct (Nat.leb_spec (maxPathResults o)
                  (length (appendUpTo o results
                             [{| Path.nodes := [startNode; neighborNode];
                                 Path.edges := [edge] |}]))).
      * exists Break. split; [reflexivity | auto].
      * exists Next. split; [reflexivity | discriminate].
    + rewrite appendUpTo_nil.
      destruct (Nat.leb_spec (maxPathResults o) (length results)).
      * exists Break. split; [reflexivity | auto].
      * exists Next. split; [reflexivity | discriminate].
  - rewrite fixed_minHops, s_fixed. simpl Nat.leb. cbn [negb andb].
    destruct (matchesNodePattern o neighborNode (Segment.node s)); cbn [negb andb option_list].
    + rewrite pushResult_appendUpTo.
      destruct (Nat.leb_spec (maxPathResults o)
                  (length (appendUpTo o results
                             [{| Path.nodes := [startNode; neighborNode];
                                 Path.edges := [edge] |}]))).
      * exists Break. split; [reflexivity | auto].
      * exists Next. split; [reflexivity | discriminate].
    + rewrite appendUpTo_nil.
      destruct (Nat.leb_spec (maxPathResults o) (length results)).
      * exists Break. split; [reflexivity | auto].
      * exists Next. split; [reflexivity | discriminate].
Qed.

Lemma omap_cons_option_list (startNode : Node.t) (edge : Edge.t) (rest : list Edge.t) :
  omap (oneHopPath o graph s startNode) (edge :: rest)
  = option_list (oneHopPath o graph s startNode edge)
    ++ omap (oneHopPath o graph s startNode) rest.
Proof.
  simpl. destruct (oneHopPath o graph s startNode edge); reflexivity.
Qed.

Lemma edgeLoop_oneHop (startNode : Node.t) (candidateEdges : list Edge.t) :
  forall results queue,
    edgeLoop o graph [s] (initialState startNode) s candidateEdges results queue
    = (appendUpTo o results (omap (oneHopPath o graph s startNode) candidateEdges), queue).
Proof.
  induction candidateEdges as [| edge rest IH]; intros results queue.
  - simpl. rewrite appendUpTo_nil. reflexivity.
  - cbn [edgeLoop].
    destruct (edgeStep_oneHop startNode edge results queue) as (ctl & -> & Hbreak).
    rewrite omap_cons_option_list.
    destruct ctl.
    + f_equal. apply appendUpTo_full. apply Hbreak. reflexivity.
    + rewrite IH. rewrite appendUpTo_app. reflexivity.
Qed.

Hypothesis depth_positive : 1 <= maxPathDepth o.

Lemma processState_oneHop (startNode : Node.t) (results : list Path.t)
      (queue : list QueueState) :
  processState o graph [s] (initialState startNode) results queue
  = (appendUpTo o results (oneHopPathsFrom o graph s startNode), queue).
Proof.
  unfold processState. simpl.
  destruct (Nat.leb_spec (maxPathDepth o) 0); [lia |].
  apply edgeLoop_oneHop.
Qed.

Lemma bfsLoop_oneHop (fuel : nat) (startNode : Node.t) (results : list Path.t) :
  bfsLoop o graph [s] (S fuel) [initialState startNode] results
  = appendUpTo o results (oneHopPathsFrom o graph s startNode).
Proof.
  cbn [bfsLoop].
  destruct (Nat.ltb_spec (length results) (maxPathResults o)) as [Hlt | Hge].
  - rewrite processState_oneHop.
    destruct (Nat.leb _ _); [reflexivity |].
    destruct fuel; reflexivity.
  - unfold appendUpTo. replace (maxPathResults o - length results) with 0 by lia.
    rewrite take_0, app_nil_r. reflexivity.
Qed.

Lemma bfsFold_oneHop (fuel : nat) (initialNodes : list Node.t) :
  forall results,
    fold_left (fun results startNode =>
                 bfsLoop o graph [s] (S fuel) [initialState startNode] results)
              initialNodes results
    = appendUpTo o results (oneHopPaths o graph s initialNodes).
Proof.
  induction initialNodes as [| startNode rest IH]; intros results; cbn [fold_left].
  - unfold oneHopPaths. simpl. rewrite appendUpTo_nil. reflexivity.
  - rewrite IH, bfsLoop_oneHop, appendUpTo_app. reflexivity.
Qed.
End OneHopFacts.


Lemma bfsIterationLimit_positive : bfsIterationLimit = S (Nat.pred bfsIterationLimit).
Proof.
  assert (Hne : Nat.eqb bfsIterationLimit 0 = false) by (vm_compute; reflexivity).
  apply Nat.eqb_neq in Hne. symmetry. apply Nat.succ_pred. exact Hne.
Qed.

Section OneHopTheorem.
Context `{JSBuiltins}.

(** X6.  For a pattern of one segment of exactly one hop ([minHops] absent
    or 1, [maxHops] 1), [findMatchingPaths] returns the one-hop matches
    and nothing else: for each start node in turn and each of its
    candidate edges in turn, the path of the start node, the edge and the
    neighbour, if the edge matches the relationship pattern and the
    neighbour the node pattern; of these the first [maxPathResults], with
    later duplicates dropped.  So every one-hop match is returned when
    there are fewer than [maxPathResults] of them. *)
Theorem findMatchingPaths_one_fixed_hop (m : PatternMatcher) (graph : Graph.t)
        (start : NodePattern.t) (s : Segment.t) :
  let pattern := {| PathPattern.start := start; PathPattern.segments := [s] |} in
  isVariable (Segment.relationship s) = false ->
  1 <= maxPathDepth (options m) ->
  fst (findMatchingPaths m graph pattern)
  = uniqueResults
      (take (maxPathResults (options m))
            (oneHopPaths (options m) graph s (fst (initialNodesOf m graph pattern)))).
Proof.
  intros pattern Hfixed Hdepth.
  rewrite findMatchingPaths_fst. simpl PathPattern.segments. cbv iota.
  f_equal. unfold bfsResults. rewrite bfsIterationLimit_positive.
  rewrite (bfsFold_oneHop (options m) graph s Hfixed Hdepth).
  unfold appendUpTo. simpl. rewrite Nat.sub_0_r. reflexivity.
Qed.
End OneHopTheorem.

(** X6, witness. *)
Lemma findMatchingPaths_one_fixed_hop_witness :
  fst (findMatchingPaths defaultMatcher chain3 oneFixedHop)
  = uniqueResults
      (take (maxPathResults (options defaultMatcher))
            (oneHopPaths (options defaultMatcher) chain3
               (seg (rel (Some "R") (Some 1) (Some 1)) anyNode)
               (fst (initialNodesOf defaultMatcher chain3 oneFixedHop)))).
Proof.
  apply (findMatchingPaths_one_fixed_hop defaultMatcher chain3 anyNode
           (seg (rel (Some "R") (Some 1) (Some 1)) anyNode)).
  - reflexivity.
  - vm_compute. lia.
Defined.


(** ** Node lookup: what the label cache does and does not change *)

Section NodeScanFacts.
Context `{JSBuiltins}.

Lemma find_unique_id (l : list Node.t) (n : Node.t) :
  NoDup (List.map Node.id l) -> In n l ->
  List.find (fun x => String.eqb (Node.id x) (Node.id n)) l = Some n.
Proof.
  induction l as [| x l IH]; simpl; intros Hnd Hin; [contradiction |].
  apply NoDup_cons in Hnd. destruct Hnd as [Hx Hnd].
  destruct (String.eqb_spec (Node.id x) (Node.id n)) as [Heq | Hne].
  - destruct Hin as [-> | Hin]; [reflexivity |].
    exfalso. apply Hx. rewrite Heq. apply list_elem_of_In, in_map. exact Hin.
  - destruct Hin as [-> | Hin]; [congruence |]. apply IH; assumption.
Qed.

Lemma getNode_unique (graph : Graph.t) (n : Node.t) :
  NoDup (List.map Node.id (Graph.nodes graph)) -> In n (Graph.nodes graph) ->
  Graph.getNode graph (Node.id n) = Some n.
Proof. apply find_unique_id. Qed.

Lemma nodesOfIds_ids (graph : Graph.t) (l : list Node.t) :
  NoDup (List.map Node.id (Graph.nodes graph)) ->
  incl l (Graph.nodes graph) ->
  nodesOfIds graph (List.map Node.id l) = l.
Proof.
  intros Hnd. induction l as [| n l IH]; intros Hincl; [reflexivity |].
  simpl List.map. rewrite nodesOfIds_cons.
  rewrite (getNode_unique graph n Hnd) by (apply Hincl; left; reflexivity).
  f_equal. apply IH. intros x Hx. apply Hincl. right. exact Hx.
Qed.

Lemma filter_filter_implied {A : Type} (f g : A -> bool) (l : list A) :
  (forall x, f x = true -> g x = true) ->
  List.filter f (List.filter g l) = List.filter f l.
Proof.
  intros Himp. induction l as [| x l IH]; simpl; [reflexivity |].
  destruct (g x) eqn:Hg; simpl.
  - rewrite IH. reflexivity.
  - destruct (f x) eqn:Hf; [| exact IH].
    apply Himp in Hf. congruence.
Qed.

Lemma matchesNodePattern_first_label (o : Options) (node : Node.t)
      (pattern : NodePattern.t) (label0 : string) (rest : list string) :
  NodePattern.labels pattern = label0 :: rest ->
  matchesNodePattern o node pattern = true ->
  labelMatches o (getNodeLabels node) label0 = true.
Proof.
  unfold matchesNodePattern. intros Hl Hm. rewrite Hl in Hm. cbn [forallb] in Hm.
  destruct (labelMatches o (getNodeLabels node) label0); [reflexivity |].
  cbn [andb negb] in Hm. discriminate.
Qed.

(** X7.  When the label cache holds what the graph gives and node ids are
    unique, [findMatchingNodes] returns exactly the nodes of the graph
    that match the pattern, in the order of the graph: looking nodes up
    through the label cache gives what a scan of all nodes gives. *)
Theorem findMatchingNodes_is_scan (m : PatternMatcher) (graph : Graph.t)
        (pattern : NodePattern.t) :
  labelCacheCoherent m graph ->
  NoDup (List.map Node.id (Graph.nodes graph)) ->
  fst (findMatchingNodes m graph pattern)
  = List.filter (fun node => matchesNodePattern (options m) node pattern)
                (Graph.nodes graph).
Proof.
  intros Hc Hnd. unfold findMatchingNodes.
  destruct (NodePattern.labels pattern) as [| label0 rest] eqn:Hlabels; [reflexivity |].
  pose proof (getNodesByLabel_coherent m graph label0 Hc) as E.
  destruct (getNodesByLabel m graph label0) as [labeledNodes m']. simpl in *.
  rewrite E. unfold Graph.findNodes.
  rewrite nodesOfIds_ids; [| exact Hnd | intros x Hx; apply filter_In in Hx; tauto].
  apply filter_filter_implied.
  intros node Hm. eapply matchesNodePattern_first_label; eassumption.
Qed.

(** X8.  A label that has an entry in the label cache is not looked up in
    the graph again: for a pattern whose first label is that label,
    [findMatchingNodes] leaves the matcher as it is and returns only
    nodes whose ids the entry lists, whatever the graph holds now.  A
    node added to the graph later is not found before [clearCache]. *)
Theorem findMatchingNodes_cached_label (m : PatternMatcher) (graph : Graph.t)
        (pattern : NodePattern.t) (label0 : string) (rest : list string)
        (nodeIds : list NodeId) :
  NodePattern.labels pattern = label0 :: rest ->
  labelCache m !! normalizeLabel (options m) label0 = Some nodeIds ->
  snd (findMatchingNodes m graph pattern) = m
  /\ Forall (fun node => In (Node.id node) nodeIds)
            (fst (findMatchingNodes m graph pattern)).
Proof.
  intros Hlabels Hcached. unfold findMatchingNodes, getNodesByLabel.
  rewrite Hlabels, Hcached. simpl. split; [reflexivity |].
  apply Forall_forall. intros node Hin.
  apply list_elem_of_In, filter_In in Hin. destruct Hin as [Hin _].
  apply nodesOfIds_In in Hin. tauto.
Qed.

Lemma getNodesByLabel_cache_grows (m : PatternMatcher) (graph : Graph.t) (label : string) :
  labelCache m ⊆ labelCache (snd (getNodesByLabel m graph label))
  /\ typeCache (snd (getNodesByLabel m graph label)) = typeCache m.
Proof.
  unfold getNodesByLabel.
  destruct (labelCache m !! normalizeLabel (options m) label) eqn:Hl; simpl.
  - split; reflexivity.
  - split; [| reflexivity]. apply insert_subseteq. exact Hl.
Qed.

(** X9.  A path query changes the matcher in one way only: it may add
    entries to the label cache.  The options and the type cache stay as
    they are, and no entry of the label cache is removed or
    overwritten. *)
Theorem findMatchingPaths_cache_grows (m : PatternMatcher) (graph : Graph.t)
        (pattern : PathPattern.t) :
  let m' := snd (findMatchingPaths m graph pattern) in
  options m' = options m
  /\ typeCache m' = typeCache m
  /\ labelCache m ⊆ labelCache m'.
Proof.
  simpl. rewrite findMatchingPaths_snd.
  unfold findMatchingNodes.
  destruct (NodePattern.labels (PathPattern.start pattern)) as [| label0 rest].
  - simpl. repeat split; reflexivity.
  - pose proof (getNodesByLabel_cache_grows m graph label0) as [Hl Ht].
    pose proof (getNodesByLabel_options m graph label0) as Ho.
    destruct (getNodesByLabel m graph label0) as [labeledNodes m']. simpl in *.
    auto.
Qed.
End NodeScanFacts.

(** X7, witness. *)
Lemma findMatchingNodes_is_scan_witness :
  fst (findMatchingNodes defaultMatcher chain3 (labelled "N"))
  = List.filter (fun node => matchesNodePattern (options defaultMatcher) node (labelled "N"))
                (Graph.nodes chain3).
Proof.
  apply (findMatchingNodes_is_scan defaultMatcher chain3 (labelled "N")).
  - apply labelCacheCoherent_empty. reflexivity.
  - apply chain3_wf.
Defined.

(** X8, witness. *)
Lemma findMatchingNodes_cached_label_witness :
  snd (findMatchingNodes usedOnEmptyGraph onePerson (labelled "Person")) = usedOnEmptyGraph
  /\ Forall (fun node => In (Node.id node) [])
            (fst (findMatchingNodes usedOnEmptyGraph onePerson (labelled "Person"))).
Proof.
  apply (findMatchingNodes_cached_label usedOnEmptyGraph onePerson (labelled "Person")
           "Person" [] []).
  - reflexivity.
  - vm_compute. reflexivity.
Defined.


(** ** Relationship lookup *)

Section RelationshipFacts.
Context `{JSBuiltins}.

(** The checks of [matchesRelationshipPattern], with the direction check
    taken apart. *)
Lemma matchesRelationshipPattern_split (o : Options) (edge : Edge.t)
      (pattern : RelationshipPattern.t) (s t : Node.t) :
  matchesRelationshipPattern o edge pattern (Some s) (Some t)
  = matchesRelationshipPattern o edge pattern None None
    && (isBoth (RelationshipPattern.direction pattern)
        || hasCorrectDirection edge pattern s t).
Proof.
  unfold matchesRelationshipPattern.
  destruct (match RelationshipPattern.type pattern with
            | Some ty => _ | None => false end); [reflexivity |].
  destruct (isBoth (RelationshipPattern.direction pattern)); cbn [negb andb orb].
  - destruct (Nat.ltb 0 _ && negb _); reflexivity.
  - destruct (hasCorrectDirection edge pattern s t); cbn [negb].
    + destruct (Nat.ltb 0 _ && negb _); reflexivity.
    + destruct (Nat.ltb 0 _ && negb _); reflexivity.
Qed.

Lemma matchesRelationshipPattern_withDirection (o : Options) (edge : Edge.t)
      (pattern : RelationshipPattern.t) (d : Direction) :
  matchesRelationshipPattern o edge (withDirection pattern d) None None
  = matchesRelationshipPattern o edge pattern None None.
Proof. reflexivity. Qed.

(** With the edge's own endpoints, the direction check is
    [directionOnOwnEndpoints]. *)
Lemma hasCorrectDirection_own_endpoints (graph : Graph.t) (edge : Edge.t)
      (pattern : RelationshipPattern.t) (s t : Node.t) :
  Graph.getNode graph (Edge.source edge) = Some s ->
  Graph.getNode graph (Edge.target edge) = Some t ->
  isBoth (RelationshipPattern.direction pattern) || hasCorrectDirection edge pattern s t
  = directionOnOwnEndpoints (RelationshipPattern.direction pattern) edge.
Proof.
  intros Hs Ht. apply getNode_Some in Hs, Ht.
  destruct Hs as [_ Hs], Ht as [_ Ht].
  unfold hasCorrectDirection, directionOnOwnEndpoints.
  destruct (RelationshipPattern.direction pattern); simpl.
  - rewrite Hs, Ht, !String.eqb_refl. reflexivity.
  - rewrite Hs, Ht. rewrite (String.eqb_sym (Edge.target edge)).
    destruct (String.eqb (Edge.source edge) (Edge.target edge)); reflexivity.
  - reflexivity.
Qed.

Lemma matchesWithEndpoints_split (o : Options) (graph : Graph.t)
      (pattern : RelationshipPattern.t) (edge : Edge.t) :
  matchesWithEndpoints o graph pattern edge
  = hasEndpoints graph edge
    && matchesRelationshipPattern o edge pattern None None
    && directionOnOwnEndpoints (RelationshipPattern.direction pattern) edge.
Proof.
  unfold matchesWithEndpoints, hasEndpoints.
  destruct (Graph.getNode graph (Edge.source edge)) as [s |] eqn:Hs; [| reflexivity].
  destruct (Graph.getNode graph (Edge.target edge)) as [t |] eqn:Ht; [| reflexivity].
  rewrite matchesRelationshipPattern_split.
  rewrite (hasCorrectDirection_own_endpoints graph edge pattern s t Hs Ht).
  reflexivity.
Qed.

Lemma getEdgesForNode_In (graph : Graph.t) (i : NodeId) (d : Direction) (edge : Edge.t) :
  In edge (Graph.getEdgesForNode graph i d) ->
  In edge (Graph.edges graph)
  /\ match d with
     | outgoing => Edge.source edge = i
     | incoming => Edge.target edge = i
     | both => Edge.source edge = i \/ Edge.target edge = i
     end.
Proof.
  unfold Graph.getEdgesForNode. rewrite filter_In. intros [Hin Hd].
  split; [exact Hin |].
  destruct d.
  - apply String.eqb_eq. exact Hd.
  - apply String.eqb_eq. exact Hd.
  - apply orb_true_iff in Hd. rewrite !String.eqb_eq in Hd. exact Hd.
Qed.

Lemma matchesFromSource_incident (o : Options) (graph : Graph.t)
      (pattern : RelationshipPattern.t) (i : NodeId) (edge : Edge.t) :
  In edge (Graph.getEdgesForNode graph i (RelationshipPattern.direction pattern)) ->
  matchesFromSource o graph pattern i edge
  = hasEndpoints graph edge && matchesRelationshipPattern o edge pattern None None.
Proof.
  intros Hin. apply getEdgesForNode_In in Hin. destruct Hin as [_ Hd].
  unfold matchesFromSource, hasEndpoints.
  destruct (Graph.getNode graph (Edge.source edge)) as [s |] eqn:Hs.
  2: { destruct (match RelationshipPattern.type pattern with
                 | Some ty => _ | None => false end); reflexivity. }
  destruct (Graph.getNode graph (Edge.target edge)) as [t |] eqn:Ht.
  2: { destruct (match RelationshipPattern.type pattern with
                 | Some ty => _ | None => false end); reflexivity. }
  cbn [andb].
  assert (Htype : (match RelationshipPattern.type pattern with
                   | Some ty => truthy ty && negb (typeMatches o (Edge.label edge) ty)
                   | None => false end) = true ->
                  matchesRelationshipPattern o edge pattern None None = false).
  { unfold matchesRelationshipPattern. intros ->. reflexivity. }
  destruct (match RelationshipPattern.type pattern with
            | Some ty => _ | None => false end) eqn:Hty.
  { symmetry. apply Htype. reflexivity. }
  clear Htype Hty.
  pose proof (hasCorrectDirection_own_endpoints graph edge pattern s t Hs Ht) as Hown.
  pose proof (hasCorrectDirection_own_endpoints graph edge (withDirection pattern outgoing)
                s t Hs Ht) as Hout.
  rewrite !matchesRelationshipPattern_split, matchesRelationshipPattern_withDirection.
  rewrite Hown, Hout. simpl RelationshipPattern.direction.
  destruct (RelationshipPattern.direction pattern); simpl.
  - rewrite andb_true_r. reflexivity.
  - subst i. rewrite String.eqb_refl, andb_true_r. reflexivity.
  - rewrite andb_true_r. reflexivity.
Qed.

(** X10.  With a [sourceId], [findMatchingRelationships] returns the edges
    at that node in the direction of the pattern ([outgoing]: leaving it,
    [incoming]: entering it, [both]: either) whose two endpoints are
    nodes of the graph and which match the type and the properties of the
    pattern, in the order of the graph; it returns nothing when the graph
    has no node of that id.  The matcher and its caches are not
    touched. *)
Theorem findMatchingRelationships_from_source (m : PatternMatcher) (graph : Graph.t)
        (pattern : RelationshipPattern.t) (i : NodeId) :
  i <> "" ->
  findMatchingRelationships m graph pattern (Some i)
  = (match Graph.getNode graph i with
     | None => []
     | Some _ =>
         List.filter
           (fun edge => hasEndpoints graph edge
                        && matchesRelationshipPattern (options m) edge pattern None None)
           (Graph.getEdgesForNode graph i (RelationshipPattern.direction pattern))
     end, m).
Proof.
  intros Hi. unfold findMatchingRelationships.
  assert (Ht : truthy i = true).
  { unfold truthy. apply negb_true_iff, String.eqb_neq. exact Hi. }
  rewrite Ht. destruct (Graph.getNode graph i); [| reflexivity].
  f_equal. apply filter_ext_in. intros edge Hin.
  apply matchesFromSource_incident. exact Hin.
Qed.

Lemma filter_filter_and {A : Type} (f g : A -> bool) (l : list A) :
  List.filter f (List.filter g l) = List.filter (fun x => g x && f x) l.
Proof.
  induction l as [| x l IH]; simpl; [reflexivity |].
  destruct (g x); simpl; [destruct (f x); rewrite IH; reflexivity | exact IH].
Qed.

(** X11.  Without a [sourceId], [findMatchingRelationships] checks the
    direction of an edge against the edge's own endpoints.  A pattern of
    direction [incoming] then matches only edges from a node to itself;
    a pattern of direction [outgoing] matches what the same pattern with
    direction [both] matches. *)
Theorem findMatchingRelationships_direction_without_source
        (m : PatternMatcher) (graph : Graph.t) (pattern : RelationshipPattern.t) :
  match RelationshipPattern.direction pattern with
  | incoming =>
      Forall (fun edge => Edge.source edge = Edge.target edge)
             (fst (findMatchingRelationships m graph pattern None))
  | outgoing | both =>
      findMatchingRelationships m graph pattern None
      = findMatchingRelationships m graph (withDirection pattern both) None
  end.
Proof.
  unfold findMatchingRelationships, findRelationshipsAnywhere.
  assert (Hloop : forall p l,
             RelationshipPattern.direction p = incoming ->
             Forall (fun edge => Edge.source edge = Edge.target edge)
                    (List.filter (matchesWithEndpoints (options m) graph p) l)).
  { intros p l Hp. apply Forall_forall. intros edge Hin.
    apply list_elem_of_In, filter_In in Hin. destruct Hin as [_ Hm].
    rewrite matchesWithEndpoints_split, Hp in Hm.
    apply andb_true_iff in Hm. destruct Hm as [_ Hm].
    apply String.eqb_eq. exact Hm. }
  assert (Hsame : forall p l,
             RelationshipPattern.direction p <> incoming ->
             List.filter (matchesWithEndpoints (options m) graph p) l
             = List.filter (matchesWithEndpoints (options m) graph (withDirection p both)) l).
  { intros p l Hp. apply filter_ext. intros edge.
    rewrite !matchesWithEndpoints_split, matchesRelationshipPattern_withDirection.
    simpl RelationshipPattern.direction.
    destruct (RelationshipPattern.direction p); [reflexivity | congruence | reflexivity]. }
  destruct (RelationshipPattern.direction pattern) eqn:Hd.
  - simpl RelationshipPattern.type.
    destruct (RelationshipPattern.type pattern) as [ty |].
    + destruct (truthy ty).
      * destruct (getRelationshipsByType m graph ty) as [typedEdges m'].
        unfold filterEdgesByPattern. f_equal.
        rewrite (Hsame (withoutType pattern)) by (simpl; congruence). reflexivity.
      * unfold Graph.findEdges. f_equal. apply Hsame. congruence.
    + unfold Graph.findEdges. f_equal. apply Hsame. congruence.
  - destruct (RelationshipPattern.type pattern) as [ty |].
    + destruct (truthy ty).
      * destruct (getRelationshipsByType m graph ty) as [typedEdges m']. simpl.
        apply Hloop. exact Hd.
      * simpl. apply Hloop. exact Hd.
    + simpl. apply Hloop. exact Hd.
  - simpl RelationshipPattern.type.
    destruct (RelationshipPattern.type pattern) as [ty |].
    + destruct (truthy ty).
      * destruct (getRelationshipsByType m graph ty) as [typedEdges m'].
        unfold filterEdgesByPattern. f_equal.
        rewrite (Hsame (withoutType pattern)) by (simpl; congruence). reflexivity.
      * unfold Graph.findEdges. f_equal. apply Hsame. congruence.
    + unfold Graph.findEdges. f_equal. apply Hsame. congruence.
Qed.
End RelationshipFacts.

(** X10, witness. *)
Lemma findMatchingRelationships_from_source_witness :
  findMatchingRelationships defaultMatcher chain3 (rel (Some "R") None None) (Some "b")
  = (match Graph.getNode chain3 "b" with
     | None => []
     | Some _ =>
         List.filter
           (fun edge => hasEndpoints chain3 edge
                        && matchesRelationshipPattern (options defaultMatcher) edge
                             (rel (Some "R") None None) None None)
           (Graph.getEdgesForNode chain3 "b"
              (RelationshipPattern.direction (rel (Some "R") None None)))
     end, defaultMatcher).
Proof.
  apply (findMatchingRelationships_from_source defaultMatcher chain3
           (rel (Some "R") None None) "b").
  discriminate.
Defined.

(** On the graph a -> b with a loop on b, a pattern of direction
    [incoming] finds the loop only when no [sourceId] is given, and both
    edges that enter [b] when [sourceId] is [b]. *)
Example incoming_without_source_finds_loops_only :
  let incomingR := withDirection (rel (Some "R") None None) incoming in
  List.map edgeKey (fst (findMatchingRelationships defaultMatcher edgeAndLoop incomingR None))
  = [("b", "b", "R")]
  /\ List.map edgeKey
       (fst (findMatchingRelationships defaultMatcher edgeAndLoop incomingR (Some "b")))
     = [("a", "b", "R"); ("b", "b", "R")].
Proof. vm_compute. split; reflexivity. Qed.

Section TypeIndexFacts.
Context `{JSBuiltins}.

Lemma find_unique_key (l : list Edge.t) (e : Edge.t) :
  NoDup (List.map edgeKey l) -> In e l ->
  List.find (fun x => String.eqb (Edge.source x) (Edge.source e)
                      && String.eqb (Edge.target x) (Edge.target e)
                      && String.eqb (Edge.label x) (Edge.label e)) l = Some e.
Proof.
  induction l as [| x l IH]; simpl; intros Hnd Hin; [contradiction |].
  apply NoDup_cons in Hnd. destruct Hnd as [Hx Hnd].
  destruct (String.eqb_spec (Edge.source x) (Edge.source e)) as [Hs | Hs];
    destruct (String.eqb_spec (Edge.target x) (Edge.target e)) as [Ht | Ht];
    destruct (String.eqb_spec (Edge.label x) (Edge.label e)) as [Hl | Hl];
    cbn [andb];
    try (destruct Hin as [-> | Hin]; [congruence | apply IH; assumption]).
  destruct Hin as [-> | Hin]; [reflexivity |].
  exfalso. apply Hx.
  assert (Hk : edgeKey x = edgeKey e) by (unfold edgeKey; congruence).
  rewrite Hk. apply list_elem_of_In, in_map. exact Hin.
Qed.

Lemma edgesOfIds_keys (graph : Graph.t) (l : list Edge.t) :
  NoDup (List.map edgeKey (Graph.edges graph)) ->
  incl l (Graph.edges graph) ->
  edgesOfIds graph (List.map edgeKey l) = l.
Proof.
  intros Hnd. induction l as [| e l IH]; intros Hincl; [reflexivity |].
  unfold edgesOfIds in *. simpl.
  unfold Graph.getEdge at 1.
  rewrite (find_unique_key _ e Hnd) by (apply Hincl; left; reflexivity).
  f_equal. apply IH. intros x Hx. apply Hincl. right. exact Hx.
Qed.

Lemma matchesWithEndpoints_withoutType (o : Options) (graph : Graph.t)
      (pattern : RelationshipPattern.t) (ty : string) (edge : Edge.t) :
  RelationshipPattern.type pattern = Some ty ->
  truthy ty = true ->
  matchesWithEndpoints o graph pattern edge
  = typeMatches o (Edge.label edge) ty
    && matchesWithEndpoints o graph (withoutType pattern) edge.
Proof.
  intros Hty Ht. unfold matchesWithEndpoints.
  destruct (Graph.getNode graph (Edge.source edge)) as [s |];
    [| rewrite andb_false_r; reflexivity].
  destruct (Graph.getNode graph (Edge.target edge)) as [t |];
    [| rewrite andb_false_r; reflexivity].
  unfold matchesRelationshipPattern. rewrite Hty, Ht. simpl.
  destruct (typeMatches o (Edge.label edge) ty); reflexivity.
Qed.

(** X12.  When the type cache holds what the graph gives and no two edges
    of the graph agree on source, target and label, looking edges up
    through the type cache gives what a scan of all edges gives: without
    a [sourceId], [findMatchingRelationships] returns exactly the edges
    of the graph, in order, whose two endpoints are nodes of the graph
    and which pass [matchesRelationshipPattern] with these endpoints. *)
Theorem findMatchingRelationships_is_scan (m : PatternMatcher) (graph : Graph.t)
        (pattern : RelationshipPattern.t) :
  typeCacheCoherent m graph ->
  NoDup (List.map edgeKey (Graph.edges graph)) ->
  fst (findMatchingRelationships m graph pattern None)
  = List.filter (matchesWithEndpoints (options m) graph pattern) (Graph.edges graph).
Proof.
  intros Hc Hnd. unfold findMatchingRelationships, findRelationshipsAnywhere.
  destruct (RelationshipPattern.type pattern) as [ty |] eqn:Hty; [| reflexivity].
  destruct (truthy ty) eqn:Ht; [| reflexivity].
  pose proof (getRelationshipsByType_coherent m graph ty Hc) as E.
  destruct (getRelationshipsByType m graph ty) as [typedEdges m']. simpl in *.
  rewrite E. unfold Graph.findEdges, filterEdgesByPattern.
  change (fun edge : Edge.t => (Edge.source edge, Edge.target edge, Edge.label edge))
    with edgeKey.
  rewrite edgesOfIds_keys; [| exact Hnd | intros x Hx; apply filter_In in Hx; tauto].
  rewrite filter_filter_and. apply filter_ext. intros edge.
  symmetry. apply matchesWithEndpoints_withoutType; assumption.
Qed.

(** Relationship queries on the graph keep the type cache coherent with
    it. *)
Lemma findMatchingRelationships_preserves_coherent (m : PatternMatcher) (graph : Graph.t)
      (pattern : RelationshipPattern.t) (sourceId : option NodeId) :
  typeCacheCoherent m graph ->
  typeCacheCoherent (snd (findMatchingRelationships m graph pattern sourceId)) graph.
Proof.
  intros Hc.
  assert (Hany : typeCacheCoherent (snd (findRelationshipsAnywhere m graph pattern)) graph).
  { unfold findRelationshipsAnywhere.
    destruct (RelationshipPattern.type pattern) as [ty |]; [| exact Hc].
    destruct (truthy ty); [| exact Hc].
    unfold getRelationshipsByType.
    destruct (typeCache m !! normalizeLabel (options m) ty) as [ids |] eqn:Hl; simpl.
    - exact Hc.
    - intros ty' ids'. unfold typeMatches. simpl.
      destruct (decide (normalizeLabel (options m) ty = normalizeLabel (options m) ty'))
        as [Heq | Hne].
      + rewrite Heq, lookup_insert_eq. intros [= <-]. reflexivity.
      + rewrite lookup_insert_ne by assumption. apply Hc. }
  unfold findMatchingRelationships.
  destruct sourceId as [i |]; [| exact Hany].
  destruct (truthy i); [| exact Hany].
  destruct (Graph.getNode graph i); exact Hc.
Qed.
End TypeIndexFacts.

(** X12, witness. *)
Lemma findMatchingRelationships_is_scan_witness :
  fst (findMatchingRelationships defaultMatcher chain3 (rel (Some "R") None None) None)
  = List.filter (matchesWithEndpoints (options defaultMatcher) chain3
                   (rel (Some "R") None None))
                (Graph.edges chain3).
Proof.
  apply (findMatchingRelationships_is_scan defaultMatcher chain3 (rel (Some "R") None None)).
  - apply (typeCacheCoherent_clearCache defaultMatcher chain3).
  - apply (bool_decide_unpack _). vm_compute. exact I.
Defined.


(** ** Type coercion *)

Section CoercionFacts.
Context `{JSBuiltins}.
Variable strict lenient : Options.
Hypothesis strict_off : enableTypeCoercion strict = false.
Hypothesis lenient_on : enableTypeCoercion lenient = true.

(** Without coercion a value that is not an array matches by strict
    equality only, and strict equality is a match with coercion too. *)
Lemma valuesMatch_strict_eq (o : Options) (actual expected : Value) :
  strict_eq actual expected = true -> valuesMatch o actual expected = true.
Proof.
  intros Heq. destruct actual; simpl in *; try discriminate; rewrite Heq; reflexivity.
Qed.

(** When the coercions decide on an array, they decide for a match. *)
Lemma coerce_array (items : list Value) (expected : Value) (b : bool) :
  coerce (VArr items) expected = Some b -> b = true.
Proof.
  unfold coerce. destruct expected as [| e | | |]; try discriminate.
  destruct (e && _); [congruence |].
  destruct (negb e && _); [congruence | discriminate].
Qed.

(** X13.  Type coercion only adds matches: whatever [valuesMatch] accepts
    with [enableTypeCoercion] off, at any depth of nested arrays, it
    accepts with [enableTypeCoercion] on. *)
Theorem valuesMatch_coercion_only_adds (actual expected : Value) :
  valuesMatch strict actual expected = true ->
  valuesMatch lenient actual expected = true.
Proof.
  revert actual. fix IH 1. intros actual.
  destruct actual as [| b | z | str | items].
  - rewrite valuesMatch_scalar_no_coercion by (assumption || reflexivity).
    apply valuesMatch_strict_eq.
  - rewrite valuesMatch_scalar_no_coercion by (assumption || reflexivity).
    apply valuesMatch_strict_eq.
  - rewrite valuesMatch_scalar_no_coercion by (assumption || reflexivity).
    apply valuesMatch_strict_eq.
  - rewrite valuesMatch_scalar_no_coercion by (assumption || reflexivity).
    apply valuesMatch_strict_eq.
  - cbn [valuesMatch strict_eq]. rewrite strict_off, lenient_on.
    destruct (coerce (VArr items) expected) as [c |] eqn:Hco.
    + intros _. apply coerce_array in Hco. exact Hco.
    + destruct (negb (isArray expected)); [| discriminate].
      clear Hco.
      induction items as [| item items IHitems]; simpl; [discriminate |].
      intros Hm. apply orb_true_iff in Hm. apply orb_true_iff.
      destruct Hm as [Hm | Hm].
      * left. apply IH. exact Hm.
      * right. apply IHitems. exact Hm.
Qed.
End CoercionFacts.

(** X13, witness. *)
Lemma valuesMatch_coercion_only_adds_witness :
  valuesMatch (options coercingMatcher) (VArr [VArr [VNum 1]; VStr "x"]) (VNum 1) = true.
Proof.
  apply (valuesMatch_coercion_only_adds (options defaultMatcher) (options coercingMatcher)).
  - reflexivity.
  - reflexivity.
  - reflexivity.
Defined.

Section IdConstraintFacts.
Context `{JSBuiltins}.

(** X14.  The key [id] of a node pattern's properties is compared with
    the id of the node, not with a property of its data: a pattern whose
    only constraint is [id: v] matches a node exactly when [v] is the
    node's id, as a string, and the node has a data object.  A node
    without a data object matches no [id] constraint, not even its own
    id. *)
Theorem matchesNodePattern_id_only (o : Options) (node : Node.t)
        (variable : option string) (v : Value) :
  matchesNodePattern o node
    {| NodePattern.variable := variable;
       NodePattern.labels := [];
       NodePattern.properties := {[ "id" := v ]} |} = true
  <-> v = VStr (Node.id node) /\ is_Some (Node.data node).
Proof.
  unfold matchesNodePattern, nodePropertiesMatch. simpl.
  rewrite map_size_singleton. simpl.
  destruct (Node.data node) as [nodeData |].
  - rewrite map_to_list_singleton. simpl. rewrite andb_true_r. split.
    + intros Heq. apply strict_eq_VStr in Heq. split; [exact Heq | eauto].
    + intros [-> _]. simpl. apply String.eqb_refl.
  - split; [discriminate |]. intros [_ [x Hx]]. discriminate.
Qed.
End IdConstraintFacts.


(** ** Searching with an enriched pattern *)

Section EnrichedSearchFacts.
Context `{JSBuiltins}.

Lemma withBoundId_id (b : BindingContext.t) (np : NodePattern.t) (n : Node.t) :
  boundTo b np n ->
  NodePattern.properties (withBoundId b np) !! "id" = Some (VStr (Node.id n)).
Proof.
  intros (x & Hvar & Hx & Hb & Hid). unfold withBoundId. rewrite Hvar, Hb.
  rewrite bool_decide_eq_true_2 by auto.
  simpl. apply lookup_insert_eq.
Qed.

Lemma idAllowed_bound (b : BindingContext.t) (np : NodePattern.t) (n node : Node.t) :
  boundTo b np n -> idAllowed (withBoundId b np) node -> Node.id node = Node.id n.
Proof.
  intros Hb Hid. specialize (Hid _ (withBoundId_id b np n Hb)). congruence.
Qed.

(** X15.  Searching with the pattern [enrichPatternWithBindings] returns
    (C9) keeps the bound nodes fixed: when the variable of the start
    pattern is bound to a node, every returned path starts at the node of
    that id; when the variable of the last segment's node pattern is
    bound to a node, every returned path ends at the node of that id. *)
Theorem findMatchingPaths_enriched_endpoints (m : PatternMatcher) (graph : Graph.t)
        (b : BindingContext.t) (pattern : PathPattern.t) :
  (forall n,
      boundTo b (PathPattern.start pattern) n ->
      Forall (fun p => exists first,
                  head (Path.nodes p) = Some first /\ Node.id first = Node.id n)
             (fst (findMatchingPaths m graph (enrichedPatternSpec b pattern))))
  /\ (forall segs s n,
         PathPattern.segments pattern = segs ++ [s] ->
         boundTo b (Segment.node s) n ->
         Forall (fun p => exists final,
                     last (Path.nodes p) = Some final /\ Node.id final = Node.id n)
                (fst (findMatchingPaths m graph (enrichedPatternSpec b pattern)))).
Proof.
  split.
  - intros n Hb.
    eapply Forall_impl; [apply findMatchingPaths_matchesFrom |].
    intros p [(n0 & ms & final & Hin & Hnodes & _) _]. simpl in *.
    apply initialNodesOf_sound in Hin. destruct Hin as [_ Hstart].
    exists n0. rewrite Hnodes. split; [reflexivity |].
    apply matchesNodePattern_idAllowed in Hstart.
    eapply idAllowed_bound; eassumption.
  - intros segs s n Hsegs Hb.
    eapply Forall_impl; [apply findMatchingPaths_matchesFrom |].
    intros p [(n0 & ms & final & _ & Hnodes & Hpm) _].
    assert (Hall : Forall (allows both)
                          (PathPattern.segments (enrichedPatternSpec b pattern))).
    { apply Forall_forall. intros x _. left. reflexivity. }
    destruct (pathMatches_isWalk (options m) graph both _ _ _ _ _ Hall Hpm)
      as (_ & Hlast & _ & _).
    simpl in Hpm. rewrite Hsegs, List.map_app in Hpm. simpl in Hpm.
    apply pathMatches_snoc_inv in Hpm. simpl in Hpm.
    exists final. rewrite Hnodes. split; [exact Hlast |].
    apply matchesNodePattern_idAllowed in Hpm.
    eapply idAllowed_bound; eassumption.
Qed.
End EnrichedSearchFacts.

(** X15, witness. *)
Lemma findMatchingPaths_enriched_endpoints_witness :
  Forall (fun p => exists first,
              head (Path.nodes p) = Some first /\ Node.id first = "a")
         (fst (findMatchingPaths defaultMatcher chain3 (enrichedPatternSpec boundToAB namedEnds)))
  /\ Forall (fun p => exists final,
                 last (Path.nodes p) = Some final /\ Node.id final = "b")
            (fst (findMatchingPaths defaultMatcher chain3
                    (enrichedPatternSpec boundToAB namedEnds))).
Proof.
  destruct (findMatchingPaths_enriched_endpoints defaultMatcher chain3 boundToAB namedEnds)
    as [Hstart Hend].
  split.
  - apply (Hstart (plainNode "a" "N")).
    exists "x". repeat split; [discriminate | discriminate].
  - apply (Hend [] (seg (rel None (Some 1) (Some 2))
                        {| NodePattern.variable := Some "y";
                           NodePattern.labels := [];
                           NodePattern.properties := ∅ |})
                (plainNode "b" "N")).
    + reflexivity.
    + exists "y". repeat split; [discriminate | discriminate].
Defined.

(** On the chain a -> b -> c, the enriched pattern [(x)-[*1..2]->(y)] finds
    the edge from [a] to [b] when [x] and [y] are bound to [a] and [b]. *)
Example enriched_pattern_finds_bound_edge :
  List.map pathIds
    (fst (findMatchingPaths defaultMatcher chain3 (enrichedPatternSpec boundToAB namedEnds)))
  = [["a"; "b"]].
Proof. vm_compute. reflexivity. Qed.

(** With [x] and [y] bound to [a] and [c] it finds nothing: the only path
    from [a] to [c] passes through [b], which the [id] check of the segment
    rejects. *)
Example enriched_variable_segment_misses_path :
  fst (findMatchingPaths defaultMatcher chain3 (enrichedPatternSpec boundToAC namedEnds)) = [].
Proof. vm_compute. reflexivity. Qed.


(** ** Labels are compared after normalization *)

Section LabelCaseFacts.
Context `{JSBuiltins}.

Lemma labelMatches_same_normal (o : Options) (nodeLabels : list string)
      (label label' : string) :
  normalizeLabel o label = normalizeLabel o label' ->
  labelMatches o nodeLabels label = labelMatches o nodeLabels label'.
Proof. unfold labelMatches. intros ->. reflexivity. Qed.

Lemma forallb_labelMatches_same_normal (o : Options) (nodeLabels : list string)
      (labels labels' : list string) :
  List.map (normalizeLabel o) labels = List.map (normalizeLabel o) labels' ->
  forallb (labelMatches o nodeLabels) labels = forallb (labelMatches o nodeLabels) labels'.
Proof.
  revert labels'. induction labels as [| l labels IH]; intros [| l' labels']; simpl;
    try discriminate; [reflexivity |].
  intros [= Hl Hrest].
  rewrite (labelMatches_same_normal o nodeLabels l l' Hl), (IH labels' Hrest).
  reflexivity.
Qed.

Lemma matchesNodePattern_same_normal (o : Options) (node : Node.t)
      (pattern pattern' : NodePattern.t) :
  List.map (normalizeLabel o) (NodePattern.labels pattern)
  = List.map (normalizeLabel o) (NodePattern.labels pattern') ->
  NodePattern.properties pattern = NodePattern.properties pattern' ->
  matchesNodePattern o node pattern = matchesNodePattern o node pattern'.
Proof.
  intros Hl Hp. unfold matchesNodePattern.
  rewrite (forallb_labelMatches_same_normal o _ _ _ Hl), Hp. reflexivity.
Qed.

(** X16.  Labels count only through their normal form (the label itself
    when [caseSensitiveLabels] is set, its lower-case form otherwise): two
    node patterns with the same properties whose labels have the same
    normal forms get the same nodes from [findMatchingNodes] and leave
    the matcher, label cache included, in the same state. *)
Theorem findMatchingNodes_label_normal_form (m : PatternMatcher) (graph : Graph.t)
        (pattern pattern' : NodePattern.t) :
  List.map (normalizeLabel (options m)) (NodePattern.labels pattern)
  = List.map (normalizeLabel (options m)) (NodePattern.labels pattern') ->
  NodePattern.properties pattern = NodePattern.properties pattern' ->
  findMatchingNodes m graph pattern = findMatchingNodes m graph pattern'.
Proof.
  intros Hl Hp.
  pose proof (fun node => matchesNodePattern_same_normal (options m) node _ _ Hl Hp) as Hm.
  unfold findMatchingNodes.
  destruct (NodePattern.labels pattern) as [| l rest];
    destruct (NodePattern.labels pattern') as [| l' rest']; try discriminate.
  - unfold Graph.findNodes. f_equal. apply filter_ext. exact Hm.
  - injection Hl as Hl0 _.
    assert (Hget : getNodesByLabel m graph l = getNodesByLabel m graph l').
    { unfold getNodesByLabel. rewrite Hl0.
      destruct (labelCache m !! normalizeLabel (options m) l'); [reflexivity |].
      assert (Hf : Graph.findNodes graph
                     (fun node => labelMatches (options m) (getNodeLabels node) l)
                   = Graph.findNodes graph
                       (fun node => labelMatches (options m) (getNodeLabels node) l')).
      { unfold Graph.findNodes. apply filter_ext. intros node.
        apply labelMatches_same_normal. exact Hl0. }
      rewrite Hf. reflexivity. }
    rewrite Hget. destruct (getNodesByLabel m graph l') as [labeledNodes m'].
    f_equal. apply filter_ext. exact Hm.
Qed.
End LabelCaseFacts.

(** X16, witness. *)
Lemma findMatchingNodes_label_normal_form_witness :
  findMatchingNodes defaultMatcher onePerson (labelled "PERSON")
  = findMatchingNodes defaultMatcher onePerson (labelled "person").
Proof.
  apply (findMatchingNodes_label_normal_form defaultMatcher onePerson
           (labelled "PERSON") (labelled "person")).
  - reflexivity.
  - reflexivity.
Defined.


(** ** A pattern without segments *)

Section NoSegmentFacts.
Context `{JSBuiltins}.

Lemma filter_all {A : Type} (f : A -> bool) (l : list A) :
  (forall x, In x l -> f x = true) -> List.filter f l = l.
Proof.
  induction l as [| x l IH]; simpl; intros Hall; [reflexivity |].
  rewrite (Hall x) by (left; reflexivity). f_equal.
  apply IH. intros y Hy. apply Hall. right. exact Hy.
Qed.

(** The nodes [findMatchingNodes] returns pass the [id] filter of
    [findMatchingPaths]: the filter removes nothing. *)
Lemma initialNodesOf_findMatchingNodes (m : PatternMatcher) (graph : Graph.t)
      (pattern : PathPattern.t) :
  initialNodesOf m graph pattern = findMatchingNodes m graph (PathPattern.start pattern).
Proof.
  unfold initialNodesOf.
  pose proof (findMatchingNodes_sound m graph (PathPattern.start pattern)) as Hs.
  destruct (findMatchingNodes m graph (PathPattern.start pattern)) as [initialNodes m'].
  simpl in Hs.
  destruct (NodePattern.properties (PathPattern.start pattern) !! "id") as [v |] eqn:Hid;
    [| reflexivity].
  f_equal. apply filter_all. intros node Hin.
  destruct (Hs node Hin) as [Hm _].
  apply matchesNodePattern_idAllowed in Hm. rewrite (Hm v Hid).
  simpl. apply String.eqb_refl.
Qed.

(** X17.  For a pattern without segments, [findMatchingPaths] returns one
    path per node that [findMatchingNodes] returns for the start pattern,
    in the same order, each made of that node alone, and leaves the
    matcher as [findMatchingNodes] leaves it.  Neither [maxPathResults]
    nor the [id] filter on the start nodes removes any of them. *)
Theorem findMatchingPaths_no_segments (m : PatternMatcher) (graph : Graph.t)
        (pattern : PathPattern.t) :
  PathPattern.segments pattern = [] ->
  findMatchingPaths m graph pattern
  = (List.map singlePath (fst (findMatchingNodes m graph (PathPattern.start pattern))),
     snd (findMatchingNodes m graph (PathPattern.start pattern))).
Proof.
  intros Hsegs. unfold findMatchingPaths.
  rewrite initialNodesOf_findMatchingNodes, Hsegs.
  destruct (findMatchingNodes m graph (PathPattern.start pattern)); reflexivity.
Qed.
End NoSegmentFacts.

(** X17, witness. *)
Lemma findMatchingPaths_no_segments_witness :
  findMatchingPaths defaultMatcher chain3 noSegments
  = (List.map singlePath
       (fst (findMatchingNodes defaultMatcher chain3 (PathPattern.start noSegments))),
     snd (findMatchingNodes defaultMatcher chain3 (PathPattern.start noSegments))).
Proof.
  apply (findMatchingPaths_no_segments defaultMatcher chain3 noSegments).
  reflexivity.
Defined.
